(** * zotify/utils.py: a shallow embedding and its checked properties

    The helpers of [zotify/utils.py] that the specification talks about:
    the duration formatter [fmt_seconds], the identifier extractor
    [regex_input_for_urls], the filename sanitizer [fix_filename] and the
    download archive ([get_previously_downloaded], [add_to_archive],
    [create_download_directory], [get_directory_song_ids],
    [add_to_directory_song_ids]); and, beside them, the playlist writer
    [add_to_m3u], the selection parser [split_input] and
    [conv_artist_format].

    A Python [str] is a list of Unicode code points.  The regular
    expressions of the source are terms of a small syntax, run by a
    backtracking matcher in the style of [re]; the file system is a finite
    map from paths to files and directories, and the helpers that touch it
    are commands of a small state-and-exception monad. *)

From Stdlib Require Import List Bool Arith NArith ZArith QArith Qround Lia.
From Stdlib Require Import Ascii String DecimalString.
From Stdlib Require DecimalZ DecimalN DecimalPos.
From stdpp Require Import base gmap.
Import ListNotations.

Local Open Scope list_scope.
Local Open Scope bool_scope.

(** ** Strings *)

(** A character is a Unicode code point, a [str] is Python's [str]. *)
Definition char := N.
Definition str := list char.

Definition cp (a : ascii) : char := N_of_ascii a.
Arguments cp a%_char.

(** The [str] written by an ASCII literal. *)
Definition py (s : string) : str := map N_of_ascii (list_ascii_of_string s).
Arguments py s%_string.

Definition LF : char := 10%N.
Definition CR : char := 13%N.
Definition TAB : char := 9%N.
Definition underscore : char := cp "_".

Definition in_range (lo hi c : char) : bool := (lo <=? c)%N && (c <=? hi)%N.
Arguments in_range (lo hi c)%_N.

Definition is_digit (c : char) : bool := in_range (cp "0") (cp "9") c.
Definition is_lower (c : char) : bool := in_range (cp "a") (cp "z") c.
Definition is_upper (c : char) : bool := in_range (cp "A") (cp "Z") c.

(** [str.isspace]: the code points Python's Unicode database marks as
    whitespace.  This is the class [\s] of [re] on [str] patterns and what
    [str.strip()] removes. *)
Definition is_space (c : char) : bool :=
  in_range 9 13 c || in_range 28 32 c || (c =? 133)%N || (c =? 160)%N
  || (c =? 5760)%N || in_range 8192 8202 c || (c =? 8232)%N || (c =? 8233)%N
  || (c =? 8239)%N || (c =? 8287)%N || (c =? 12288)%N.

(** ** [fmt_seconds] *)

(** [str(n)] for a Python [int]. *)
Definition int_str (n : Z) : str := py (NilZero.string_of_int (Z.to_int n)).

Definition is_sign (c : char) : bool := (c =? cp "+")%N || (c =? cp "-")%N.

(** [s.zfill(width)]: zeros on the left up to [width], after a leading sign. *)
Definition zfill (width : nat) (s : str) : str :=
  let fill := repeat (cp "0") (width - length s) in
  match s with
  | c :: tl => if is_sign c then c :: fill ++ tl else fill ++ s
  | [] => fill
  end.

(** The decomposition [fmt_seconds] performs on [val = math.floor(secs)]:
    seconds, minutes and hours.  The source divides with [/=], on floats;
    every intermediate value is an integer, and the quotients are exact as
    long as they are below 2^53, so the arithmetic is that of [Z]. *)
Definition hms (val : Z) : Z * Z * Z :=
  let s := (val mod 60)%Z in
  let val := ((val - s) / 60)%Z in
  let m := (val mod 60)%Z in
  let val := ((val - m) / 60)%Z in
  let h := val in
  (h, m, s).

Definition fmt_seconds (secs : Q) : str :=
  let val := Qfloor secs in
  let '(h, m, s) := hms val in
  if (h =? 0)%Z && (m =? 0)%Z && (s =? 0)%Z then py "0s"
  else if (h =? 0)%Z && (m =? 0)%Z then zfill 2 (int_str s ++ py "s")
  else if (h =? 0)%Z then zfill 2 (int_str m) ++ py ":" ++ zfill 2 (int_str s)
  else zfill 2 (int_str h) ++ py ":" ++ zfill 2 (int_str m) ++ py ":" ++ zfill 2 (int_str s).

(** ** Regular expressions

    The syntax covers what the patterns of the source use.  Repetition
    ([+], [+?]) is over one-character classes, the only use the source
    makes of it; a counted repetition [{n}] is unfolded by [times].
    Unnamed and non-capturing groups only delimit: nothing reads a group by
    number, so they are the sub-expression itself. *)

Inductive regex : Type :=
| Eps                                   (* the empty pattern *)
| Lit (c : char)                        (* a literal character *)
| Cls (p : char -> bool)                (* a class: [[...]], [\s], [\w], [.] *)
| Cat (r1 r2 : regex)                   (* r1 r2 *)
| Alt (r1 r2 : regex)                   (* r1|r2 *)
| Opt (r : regex)                       (* r? (greedy) *)
| Plus (p : char -> bool)               (* p+ (greedy) *)
| PlusLazy (p : char -> bool)           (* p+? *)
| Group (name : string) (r : regex)     (* (?P<name>r) *)
| Bol                                   (* ^ (no MULTILINE) *)
| Eol                                   (* $ (no MULTILINE) *)
| NotAhead (r : regex).                 (* (?!r) *)

(** A literal string, and [r{n}]. *)
Fixpoint lits (l : str) : regex :=
  match l with
  | [] => Eps
  | c :: tl => Cat (Lit c) (lits tl)
  end.

Definition text (s : string) : regex := lits (py s).
Arguments text s%_string.

Fixpoint times (n : nat) (r : regex) : regex :=
  match n with
  | O => Eps
  | S n' => Cat r (times n' r)
  end.

(** [.] without DOTALL: anything but a line feed. *)
Definition dot (c : char) : bool := negb (c =? LF)%N.

(** The matcher's state: how many characters were consumed, what is left
    of the subject, and the named groups captured so far. *)
Record mstate : Type := MState {
  pos : nat;
  rest : str;
  groups : list (string * str)
}.

Definition advance (st : mstate) (tl : str) : mstate :=
  MState (S (pos st)) tl (groups st).

(** The text matched between [st] and [st'] is stored under [name]. *)
Definition capture (name : string) (st st' : mstate) : mstate :=
  MState (pos st') (rest st')
         ((name, firstn (pos st' - pos st) (rest st)) :: groups st').

(** [$] matches at the end of the subject and before a final line feed. *)
Definition at_eol (l : str) : bool :=
  match l with
  | [] => true
  | [c] => (c =? LF)%N
  | _ => false
  end.

(** A literal under IGNORECASE.  [sre] compares the lower-cased subject
    character with the lower-cased literal; for the ASCII letters other than
    i, k and s (the only letters the source writes under IGNORECASE are
    A C L M N O P R T U X) no code point outside ASCII lower-cases to them,
    so the test is on the two ASCII cases. *)
Definition swapcase (c : char) : char :=
  if is_upper c then (c + 32)%N else if is_lower c then (c - 32)%N else c.

Definition lit_eq (ignorecase : bool) (c x : char) : bool :=
  (x =? c)%N || (ignorecase && (x =? swapcase c)%N).

Definition orelse {A : Type} (a b : option A) : option A :=
  match a with
  | Some v => Some v
  | None => b
  end.

(** [p+]: as many characters of [p] as possible, then one fewer, ... *)
Fixpoint plus_greedy {A : Type} (p : char -> bool) (n : nat) (l : str)
    (k : nat -> str -> option A) : option A :=
  match l with
  | x :: tl => if p x then orelse (plus_greedy p (S n) tl k) (k (S n) tl) else None
  | [] => None
  end.

(** [p+?]: one character of [p], then one more, ... *)
Fixpoint plus_lazy {A : Type} (p : char -> bool) (n : nat) (l : str)
    (k : nat -> str -> option A) : option A :=
  match l with
  | x :: tl => if p x then orelse (k (S n) tl) (plus_lazy p (S n) tl k) else None
  | [] => None
  end.

(** The backtracking matcher, in continuation-passing style: [exec r st k]
    matches [r] at [st] and hands every way of doing so, in [re]'s order
    of preference, to [k] until [k] accepts one. *)
Fixpoint exec {A : Type} (ignorecase : bool) (r : regex) (st : mstate)
    (k : mstate -> option A) {struct r} : option A :=
  match r with
  | Eps => k st
  | Lit c =>
      match rest st with
      | x :: tl => if lit_eq ignorecase c x then k (advance st tl) else None
      | [] => None
      end
  | Cls p =>
      match rest st with
      | x :: tl => if p x then k (advance st tl) else None
      | [] => None
      end
  | Cat r1 r2 => exec ignorecase r1 st (fun st' => exec ignorecase r2 st' k)
  | Alt r1 r2 => orelse (exec ignorecase r1 st k) (exec ignorecase r2 st k)
  | Opt r1 => orelse (exec ignorecase r1 st k) (k st)
  | Plus p =>
      plus_greedy p (pos st) (rest st) (fun n l => k (MState n l (groups st)))
  | PlusLazy p =>
      plus_lazy p (pos st) (rest st) (fun n l => k (MState n l (groups st)))
  | Group name r1 => exec ignorecase r1 st (fun st' => k (capture name st st'))
  | Bol => if (pos st =? 0)%nat then k st else None
  | Eol => if at_eol (rest st) then k st else None
  | NotAhead r1 =>
      match exec ignorecase r1 st (fun _ => Some tt) with
      | Some _ => None
      | None => k st
      end
  end.

(** A match object: where the match ends and its named groups. *)
Record match_obj : Type := Match {
  m_end : nat;
  m_groups : list (string * str)
}.

Definition match_at (ignorecase : bool) (r : regex) (n : nat) (l : str)
    : option match_obj :=
  exec ignorecase r (MState n l []) (fun st => Some (Match (pos st) (groups st))).

(** [re.search(r, s)]: the first position of [s] where [r] matches. *)
Fixpoint search_from (ignorecase : bool) (r : regex) (n : nat) (l : str)
    : option match_obj :=
  match match_at ignorecase r n l with
  | Some m => Some m
  | None =>
      match l with
      | [] => None
      | _ :: tl => search_from ignorecase r (S n) tl
      end
  end.

Definition re_search (r : regex) (s : str) : option match_obj :=
  search_from false r 0 s.

(** [m.group(name)]. *)
Fixpoint assoc (name : string) (gs : list (string * str)) : option str :=
  match gs with
  | [] => None
  | (n, v) :: tl => if String.eqb n name then Some v else assoc name tl
  end.

Definition group (name : string) (m : match_obj) : option str :=
  assoc name (m_groups m).

(** [re.sub(r, repl, s)] for a pattern [r] that consumes at least one
    character wherever it matches (as the pattern of [fix_filename] does):
    scanning left to right, each match is replaced by [repl] and the scan
    resumes behind it; a character at which nothing matches is copied.
    [skip] counts the characters still covered by the last match. *)
Fixpoint sub_from (ignorecase : bool) (r : regex) (repl : str) (n : nat)
    (l : str) (skip : nat) : str :=
  match l with
  | [] =>
      match skip, match_at ignorecase r n [] with
      | O, Some _ => repl
      | _, _ => []
      end
  | c :: tl =>
      match skip with
      | S skip' => sub_from ignorecase r repl (S n) tl skip'
      | O =>
          match match_at ignorecase r n l with
          | Some m =>
              match (m_end m - n)%nat with
              | O => repl ++ c :: sub_from ignorecase r repl (S n) tl 0
              | S skip' => repl ++ sub_from ignorecase r repl (S n) tl skip'
              end
          | None => c :: sub_from ignorecase r repl (S n) tl 0
          end
      end
  end.

Definition re_sub (ignorecase : bool) (r : regex) (repl s : str) : str :=
  sub_from ignorecase r repl 0 s 0.

(** A sequence of patterns. *)
Definition seq (rs : list regex) : regex := fold_right Cat Eps rs.

(** ** [regex_input_for_urls] *)

Inductive rtype : Type := Track | Album | Playlist | Episode | Show | Artist.

Definition type_name (t : rtype) : string :=
  match t with
  | Track => "track"
  | Album => "album"
  | Playlist => "playlist"
  | Episode => "episode"
  | Show => "show"
  | Artist => "artist"
  end.

Definition group_name (t : rtype) : string :=
  match t with
  | Track => "TrackID"
  | Album => "AlbumID"
  | Playlist => "PlaylistID"
  | Episode => "EpisodeID"
  | Show => "ShowID"
  | Artist => "ArtistID"
  end.

(** [[0-9a-zA-Z]] *)
Definition is_alnum (c : char) : bool := is_digit c || is_lower c || is_upper c.

(** [(?P<name>[0-9a-zA-Z]{22})] *)
Definition id_group (t : rtype) : regex :=
  Group (group_name t) (times 22 (Cls is_alnum)).

(** [^spotify:<type>:(?P<TypeID>[0-9a-zA-Z]{22})$] *)
Definition uri_re (t : rtype) : regex :=
  seq [Bol; text "spotify:"; text (type_name t); text ":"; id_group t; Eol].

Section Unicode.

(** [str.isalnum] beyond ASCII is a table of Python's Unicode database; the
    patterns consult it only through [\w], and it is a parameter here. *)
Variable unicode_alnum : char -> bool.

(** [\w] on a [str] pattern: alphanumeric or underscore. *)
Definition is_word (c : char) : bool :=
  if (c <? 128)%N then is_alnum c || (c =? underscore)%N else unicode_alnum c.

(** [^(https?://)?open\.spotify\.com(?:/intl-\w+)?/<type>/(?P<TypeID>[0-9a-zA-Z]{22})(\?si=.+?)?$] *)
Definition url_re (t : rtype) : regex :=
  seq [Bol;
       Opt (seq [text "http"; Opt (Lit (cp "s")); text "://"]);
       text "open.spotify.com";
       Opt (seq [text "/intl-"; Plus is_word]);
       text "/"; text (type_name t); text "/";
       id_group t;
       Opt (seq [text "?si="; PlusLazy dot]);
       Eol].

(** One slot of the result: the URI match if there is one, else the URL
    match, and its named group; [None] when neither pattern matches. *)
Definition id_str (t : rtype) (search_input : str) : option str :=
  let uri_search := re_search (uri_re t) search_input in
  let url_search := re_search (url_re t) search_input in
  match uri_search, url_search with
  | Some m, _ => group (group_name t) m
  | None, Some m => group (group_name t) m
  | None, None => None
  end.

Definition slots : Type :=
  (option str * option str * option str * option str * option str * option str)%type.

Definition regex_input_for_urls (search_input : str) : slots :=
  (id_str Track search_input, id_str Album search_input,
   id_str Playlist search_input, id_str Episode search_input,
   id_str Show search_input, id_str Artist search_input).

End Unicode.

(** The result with only the slot of [t] filled, and the empty result. *)
Definition only (t : rtype) (id : str) : slots :=
  match t with
  | Track => (Some id, None, None, None, None, None)
  | Album => (None, Some id, None, None, None, None)
  | Playlist => (None, None, Some id, None, None, None)
  | Episode => (None, None, None, Some id, None, None)
  | Show => (None, None, None, None, Some id, None)
  | Artist => (None, None, None, None, None, Some id)
  end.

Definition no_match : slots := (None, None, None, None, None, None).

Definition filled (o : option str) : nat :=
  match o with
  | Some _ => 1
  | None => 0
  end.

(** How many slots of a result are not [None]. *)
Definition populated (r : slots) : nat :=
  let '(a, b, c, d, e, f) := r in
  filled a + filled b + filled c + filled d + filled e + filled f.

(** ** [fix_filename] *)

(** The first class of the pattern: slash, backslash, colon, bar, angle
    brackets, double quote, question mark, star, and the control characters
    [\0-\x1f]. *)
Definition forbidden (c : char) : bool :=
  (c =? cp "/")%N || (c =? cp "\")%N || (c =? cp ":")%N || (c =? cp "|")%N
  || (c =? cp "<")%N || (c =? cp ">")%N || (c =? 34)%N || (c =? cp "?")%N
  || (c =? cp "*")%N || in_range 0 31 c.

(** [[1-9]], [[^.]] and [[\s.]] *)
Definition digit19 (c : char) : bool := in_range (cp "1") (cp "9") c.
Definition not_period (c : char) : bool := negb (c =? cp ".")%N.
Definition space_or_period (c : char) : bool := is_space c || (c =? cp ".")%N.

(** [(AUX|COM[1-9]|CON|LPT[1-9]|NUL|PRN)] *)
Definition reserved_re : regex :=
  Alt (text "AUX")
  (Alt (seq [text "COM"; Cls digit19])
  (Alt (text "CON")
  (Alt (seq [text "LPT"; Cls digit19])
  (Alt (text "NUL")
       (text "PRN"))))).

(** [<forbidden>|^(AUX|COM[1-9]|CON|LPT[1-9]|NUL|PRN)(?![^.])|^\s|[\s.]$]
    The classes of this pattern hold no cased character, so IGNORECASE
    bears on its literals only. *)
Definition fix_re : regex :=
  Alt (Cls forbidden)
  (Alt (seq [Bol; reserved_re; NotAhead (Cls not_period)])
  (Alt (seq [Bol; Cls is_space])
       (seq [Cls space_or_period; Eol]))).

(** [re.sub(..., "_", str(name), flags=re.IGNORECASE)], on a [name] that is a
    [str]. *)
Definition fix_filename (name : str) : str :=
  re_sub true fix_re (py "_") name.

(** ** Text files

    A file holds the text written to it.  Writing is verbatim, as on POSIX
    (on Windows a line feed is stored as CR LF and read back as a line
    feed); reading is in universal-newlines mode, the default of [open].
    A file's text is the decoding of its bytes: UTF-8 encoding and
    decoding are inverse to each other on the texts UTF-8 can encode, and
    a text it cannot encode is refused when it is written. *)

(** A [str] can hold lone surrogates (U+D800 to U+DFFF), which UTF-8 does
    not encode: [f.write] raises [UnicodeEncodeError] on such a text. *)
Definition surrogate (c : char) : bool := in_range 55296 57343 c.

Definition encodable (s : str) : bool := forallb (fun c => negb (surrogate c)) s.

(** Universal newlines: CR LF and a lone CR are read as a line feed. *)
Fixpoint universal_newlines (l : str) : str :=
  match l with
  | [] => []
  | c :: tl =>
      if (c =? CR)%N then
        match tl with
        | c2 :: tl2 =>
            if (c2 =? LF)%N then LF :: universal_newlines tl2
            else LF :: universal_newlines tl
        | [] => [LF]
        end
      else c :: universal_newlines tl
  end.

(** The lines of a text, each with its line feed; [cur] is the line being
    read. *)
Fixpoint split_lines (cur : str) (l : str) : list str :=
  match l with
  | [] => match cur with [] => [] | _ => [cur] end
  | c :: tl =>
      if (c =? LF)%N then (cur ++ [c]) :: split_lines [] tl
      else split_lines (cur ++ [c]) tl
  end.

(** [f.readlines()] *)
Definition readlines (content : str) : list str :=
  split_lines [] (universal_newlines content).

(** [s.lstrip()], [s.rstrip()], [s.strip()] *)
Fixpoint lstrip (s : str) : str :=
  match s with
  | c :: tl => if is_space c then lstrip tl else s
  | [] => []
  end.

Definition rstrip (s : str) : str := rev (lstrip (rev s)).

Definition strip (s : str) : str := rstrip (lstrip s).

(** [s.split(sep)[0]]: the text before the first [sep]. *)
Fixpoint first_field (sep : char) (s : str) : str :=
  match s with
  | c :: tl => if (c =? sep)%N then [] else c :: first_field sep tl
  | [] => []
  end.

(** [[line.strip().split('\t')[0] for line in f.readlines()]] *)
Definition ids_of (content : str) : list str :=
  map (fun line => first_field TAB (strip line)) (readlines content).

(** ** The file system *)

(** A path is the list of its components; the empty path is the root. *)
Definition path : Type := list (list N).

Inductive node : Type :=
| File (content : str)
| Dir.

(** The exceptions the helpers can raise. *)
Inductive exn : Type :=
| FileExistsError
| FileNotFoundError
| IsADirectoryError
| NotADirectoryError
| UnicodeEncodeError
| ValueError
| OverflowError
| IndexError.

(** What a computation that does not touch the file system gives. *)
Inductive outcome (A : Type) : Type :=
| Return (a : A)
| Throw (e : exn).
Arguments Return {A} a.
Arguments Throw {A} e.

Inductive result (A : Type) : Type :=
| Ok (a : A)
| Raise (e : exn).
Arguments Ok {A} a.
Arguments Raise {A} e.

(** A command on the file system: a result or an exception, and the file
    system it leaves. *)
Definition io (A : Type) : Type := gmap path node -> result A * gmap path node.

Definition ret {A : Type} (a : A) : io A := fun fs => (Ok a, fs).

Definition raise {A : Type} (e : exn) : io A := fun fs => (Raise e, fs).

Definition bind {A B : Type} (c : io A) (k : A -> io B) : io B :=
  fun fs =>
    match c fs with
    | (Ok a, fs') => k a fs'
    | (Raise e, fs') => (Raise e, fs')
    end.

Notation "x <- c1 ;; c2" := (bind c1 (fun x => c2))
  (at level 100, c1 at next level, right associativity).

(** A computation without effect, as a command. *)
Definition lift {A : Type} (o : outcome A) : io A :=
  fun fs =>
    match o with
    | Return a => (Ok a, fs)
    | Throw e => (Raise e, fs)
    end.

Definition node_at (fs : gmap path node) (p : path) : option node :=
  match p with
  | [] => Some Dir
  | _ => fs !! p
  end.

Definition parent (p : path) : path := removelast p.

(** [Path(p).exists()] and [Path(p).is_file()] *)
Definition path_exists (p : path) : io bool :=
  fun fs => (Ok (match node_at fs p with Some _ => true | None => false end), fs).

Definition is_file (p : path) : io bool :=
  fun fs => (Ok (match node_at fs p with Some (File _) => true | _ => false end), fs).

(** The paths from the first component of [p] down to [p]. *)
Fixpoint prefixes (p : path) : list path :=
  match p with
  | [] => []
  | c :: tl => [c] :: map (cons c) (prefixes tl)
  end.

Definition is_file_node (o : option node) : bool :=
  match o with
  | Some (File _) => true
  | _ => false
  end.

(** What [open] raises on a path whose directory is not there: a file on
    the way is not a directory, otherwise a component is missing. *)
Definition missing_error (fs : gmap path node) (p : path) : exn :=
  if existsb (fun q => is_file_node (fs !! q)) (prefixes (parent p))
  then NotADirectoryError
  else FileNotFoundError.

(** What stands in the way of creating a file at [p]. *)
Definition create_check (fs : gmap path node) (p : path) : option exn :=
  match node_at fs (parent p) with
  | Some Dir => None
  | Some (File _) => Some NotADirectoryError
  | None => Some (missing_error fs p)
  end.

(** [open(p, 'w')] and [open(p, 'a')]: the file is created when it is not
    there, and ['w'] empties it. *)
Definition open_file (truncate : bool) (p : path) : io unit :=
  fun fs =>
    match node_at fs p with
    | Some Dir => (Raise IsADirectoryError, fs)
    | Some (File _) => (Ok tt, if truncate then <[p := File []]> fs else fs)
    | None =>
        match create_check fs p with
        | Some e => (Raise e, fs)
        | None => (Ok tt, <[p := File []]> fs)
        end
    end.

(** [f.write(data)] on the file opened at [p].  The text is encoded when
    it is written; what was written before an exception reaches the file
    when the [with] block is left. *)
Definition file_write (p : path) (data : str) : io unit :=
  fun fs =>
    if encodable data then
      (Ok tt,
       match fs !! p with
       | Some (File old) => <[p := File (old ++ data)]> fs
       | _ => fs
       end)
    else (Raise UnicodeEncodeError, fs).

(** [with open(p, 'w') as f: f.write(data)] *)
Definition write_file (p : path) (data : str) : io unit :=
  _ <- open_file true p ;;
  file_write p data.

(** [with open(p, 'a') as f: f.write(data)] *)
Definition append_file (p : path) (data : str) : io unit :=
  _ <- open_file false p ;;
  file_write p data.

(** [with open(p, 'r') as f: ...]: the stored text. *)
Definition read_file (p : path) : io str :=
  fun fs =>
    match node_at fs p with
    | Some (File content) => (Ok content, fs)
    | Some Dir => (Raise IsADirectoryError, fs)
    | None => (Raise (missing_error fs p), fs)
    end.

Definition make_dir (q : path) (fs : gmap path node) : gmap path node :=
  match fs !! q with
  | None => <[q := Dir]> fs
  | Some _ => fs
  end.

(** [Path(p).mkdir(parents=True, exist_ok=True)] *)
Definition mkdir_parents (p : path) : io unit :=
  fun fs =>
    match node_at fs p with
    | Some (File _) => (Raise FileExistsError, fs)
    | Some Dir => (Ok tt, fs)
    | None =>
        if existsb (fun q => is_file_node (fs !! q)) (prefixes p)
        then (Raise NotADirectoryError, fs)
        else (Ok tt, fold_right make_dir fs (prefixes p))
    end.

(** ** The download archive *)

(** What the helpers read of [Zotify.CONFIG]. *)
Record config : Type := Config {
  get_song_archive : path;
  get_disable_directory_archives : bool
}.

(** [PurePath(download_path).joinpath('.song_ids')] *)
Definition hidden_file (download_path : path) : path :=
  download_path ++ [py ".song_ids"].

(** The record both archives store; [now] is
    [datetime.datetime.now().strftime("%Y-%m-%d %H:%M:%S")] at the call. *)
Definition archive_line (song_id now author_name song_name filename : str) : str :=
  song_id ++ [TAB] ++ now ++ [TAB] ++ author_name ++ [TAB] ++ song_name
    ++ [TAB] ++ filename ++ [LF].

Definition create_download_directory (cfg : config) (download_path : path)
    : io unit :=
  _ <- mkdir_parents download_path ;;
  let hidden_file_path := hidden_file download_path in
  if get_disable_directory_archives cfg then ret tt
  else
    present <- is_file hidden_file_path ;;
    if negb present then open_file true hidden_file_path else ret tt.

Definition get_previously_downloaded (cfg : config) : io (list str) :=
  let archive_path := get_song_archive cfg in
  present <- path_exists archive_path ;;
  if present then
    content <- read_file archive_path ;;
    ret (ids_of content)
  else ret [].

Definition add_to_archive (cfg : config) (now : str)
    (song_id filename author_name song_name : str) : io unit :=
  let archive_path := get_song_archive cfg in
  present <- path_exists archive_path ;;
  if present then
    append_file archive_path (archive_line song_id now author_name song_name filename)
  else
    write_file archive_path (archive_line song_id now author_name song_name filename).

Definition get_directory_song_ids (cfg : config) (download_path : path)
    : io (list str) :=
  let hidden_file_path := hidden_file download_path in
  present <- is_file hidden_file_path ;;
  if present && negb (get_disable_directory_archives cfg) then
    content <- read_file hidden_file_path ;;
    ret ([] ++ ids_of content)
  else ret [].

Definition add_to_directory_song_ids (cfg : config) (now : str)
    (download_path : path) (song_id filename author_name song_name : str)
    : io unit :=
  let hidden_file_path := hidden_file download_path in
  if get_disable_directory_archives cfg then ret tt
  else
    append_file hidden_file_path
      (archive_line song_id now author_name song_name filename).

(** ** [add_to_m3u] *)

(** What [add_to_m3u] reads of [Zotify]: the root path of the
    configuration and the time stamp of the launch, which is one path
    component (it holds no separator). *)
Record launch : Type := Launch {
  get_root_path : path;
  datetime_launch : str
}.

(** A Python [float]: a finite number, an infinity or a NaN. *)
Inductive float : Type :=
| Finite (q : Q)
| Infinity (negative : bool)
| NaN.

(** [int(x)] for a float: towards zero. *)
Definition int_of_float (x : float) : outcome Z :=
  match x with
  | Finite q => Return (if Qle_bool 0 q then Qfloor q else Qceiling q)
  | Infinity _ => Throw OverflowError
  | NaN => Throw ValueError
  end.

(** [filename] is the text of the path, [str(filename)]. *)
Definition add_to_m3u (z : launch) (filename : str) (song_duration : float)
    (song_name : str) : io unit :=
  let m3u_path := get_root_path z ++ [datetime_launch z ++ py "_zotify.m3u8"] in
  present <- path_exists m3u_path ;;
  _ <- (if negb present then write_file m3u_path (py "#EXTM3U" ++ [LF; LF])
        else ret tt) ;;
  _ <- open_file false m3u_path ;;
  seconds <- lift (int_of_float song_duration) ;;
  _ <- file_write m3u_path
         (py "#EXTINF:" ++ int_str seconds ++ py ", " ++ song_name ++ [LF]) ;;
  file_write m3u_path (filename ++ [LF; LF]).

(** ** [split_input] *)

(** [s.split(sep)] for a separator of one character. *)
Fixpoint split_on (sep : char) (s : str) : list str :=
  match s with
  | [] => [[]]
  | c :: tl =>
      if (c =? sep)%N then [] :: split_on sep tl
      else
        match split_on sep tl with
        | x :: r => (c :: x) :: r
        | [] => [[c]]
        end
  end.

Section PyInt.

(** [int(s)] depends on two things outside the source: the decimal value
    Python's Unicode database gives to digits beyond ASCII, and the limit
    on the number of digits ([sys.get_int_max_str_digits()], 0 for none). *)
Variable unicode_decimal : char -> option N.
Variable max_str_digits : nat.

(** Whitespace around the number: ASCII blanks, and Unicode whitespace
    beyond ASCII. *)
Definition int_space (c : char) : bool :=
  in_range 9 13 c || (c =? 32)%N || ((128 <=? c)%N && is_space c).

Definition digit_value (c : char) : option N :=
  if is_digit c then Some (c - 48)%N
  else if (c <? 128)%N then None
  else unicode_decimal c.

Fixpoint skip_spaces (s : str) : str :=
  match s with
  | c :: tl => if int_space c then skip_spaces tl else s
  | [] => []
  end.

(** The digits, with single underscores allowed between them: the value,
    the number of digits and what follows. *)
Fixpoint scan_digits (acc : N) (digits : nat) (after_underscore : bool)
    (s : str) : outcome (N * nat * str) :=
  match s with
  | c :: tl =>
      match digit_value c with
      | Some d => scan_digits (10 * acc + d)%N (S digits) false tl
      | None =>
          if (c =? underscore)%N then
            if after_underscore then Throw ValueError
            else scan_digits acc digits true tl
          else if after_underscore then Throw ValueError
          else Return (acc, digits, s)
      end
  | [] => if after_underscore then Throw ValueError else Return (acc, digits, [])
  end.

Definition too_many_digits (digits : nat) : bool :=
  (640 <? digits)%nat && (0 <? max_str_digits)%nat
  && (max_str_digits <? digits)%nat.

(** [int(s)] for a [str], base 10: blanks, a sign, digits, blanks. *)
Definition int_of_str (s : str) : outcome Z :=
  let s1 := skip_spaces s in
  let '(negative, s2) :=
    match s1 with
    | c :: tl =>
        if (c =? cp "+")%N then (false, tl)
        else if (c =? cp "-")%N then (true, tl)
        else (false, s1)
    | [] => (false, [])
    end in
  match s2 with
  | [] => Throw ValueError
  | c :: _ =>
      if (c =? underscore)%N then Throw ValueError
      else
        match scan_digits 0 0 false s2 with
        | Throw e => Throw e
        | Return (v, digits, after) =>
            if (digits =? 0)%nat then Throw ValueError
            else if too_many_digits digits then Throw ValueError
            else
              match skip_spaces after with
              | [] => Return (if negative then - Z.of_N v else Z.of_N v)%Z
              | _ => Throw ValueError
              end
        end
  end.

(** An element of the result: a number of the range, or a piece of text. *)
Inductive item : Type :=
| Number (n : Z)
| Text (s : str).

(** [range(lo, hi)] *)
Definition range (lo hi : Z) : list Z :=
  map (fun i => (lo + Z.of_nat i)%Z) (List.seq 0 (Z.to_nat (hi - lo))).

Definition split_input (selection : str) : outcome (list item) :=
  if existsb (fun c => (c =? cp "-")%N) selection then
    match split_on (cp "-") selection with
    | first :: second :: _ =>
        match int_of_str first with
        | Throw e => Throw e
        | Return lo =>
            match int_of_str second with
            | Throw e => Throw e
            | Return hi => Return (map Number (range lo (hi + 1)))
            end
        end
    | _ => Throw IndexError
    end
  else
    Return (map (fun i => Text (strip i)) (split_on (cp ",") selection)).

End PyInt.

(** [sep.join(l)] *)
Fixpoint join (sep : str) (l : list str) : str :=
  match l with
  | [] => []
  | [x] => x
  | x :: tl => x ++ sep ++ join sep tl
  end.

(** ** [conv_artist_format] *)

Definition conv_artist_format (artists : list str) : str :=
  join (py ", ") artists.

(** * Vocabulary of the properties

    What the statements below are written in: the language of a pattern,
    the forms of input [regex_input_for_urls] accepts, what [fix_filename]
    does behind the first character, and well-formed archives. *)

(** ** The language of a pattern *)

(** [den r st st']: [r] can match at [st] and leave the matcher in [st'].
    This is the set of all the matches the backtracking search ranges
    over, without their order. *)
Fixpoint den (ic : bool) (r : regex) (st st' : mstate) : Prop :=
  match r with
  | Eps => st' = st
  | Lit c => exists x tl, rest st = x :: tl /\ lit_eq ic c x = true /\ st' = advance st tl
  | Cls p => exists x tl, rest st = x :: tl /\ p x = true /\ st' = advance st tl
  | Cat r1 r2 => exists mid, den ic r1 st mid /\ den ic r2 mid st'
  | Alt r1 r2 => den ic r1 st st' \/ den ic r2 st st'
  | Opt r1 => den ic r1 st st' \/ st' = st
  | Plus p | PlusLazy p =>
      exists w tl, w <> [] /\ forallb p w = true /\ rest st = w ++ tl
                   /\ st' = MState (pos st + length w) tl (groups st)
  | Group name r1 => exists st1, den ic r1 st st1 /\ st' = capture name st st1
  | Bol => pos st = 0 /\ st' = st
  | Eol => at_eol (rest st) = true /\ st' = st
  | NotAhead r1 => (forall st1, ~ den ic r1 st st1) /\ st' = st
  end.

(** [eats st w st']: from [st] the matcher consumed exactly [w]. *)
Definition eats (st : mstate) (w : str) (st' : mstate) : Prop :=
  rest st = w ++ rest st' /\ pos st' = pos st + length w /\ groups st' = groups st.

(** ** Accepted forms of input *)

(** [s] is the URI of [id] for the type [t]: [spotify:<type>:<id>], with
    what [$] lets follow. *)
Definition uri_form (t : rtype) (id s : str) : Prop :=
  exists nl, s = py "spotify:" ++ py (type_name t) ++ py ":" ++ id ++ nl
     /\ length id = 22 /\ forallb is_alnum id = true /\ at_eol nl = true.

(** The optional parts of a URL: scheme, locale segment and query. *)
Definition is_scheme (sc : str) : Prop :=
  sc = [] \/ sc = py "http://" \/ sc = py "https://".

Section FormsOfInput.
Variable unicode_alnum : char -> bool.

Definition is_intl (i : str) : Prop :=
  i = [] \/ exists w, i = py "/intl-" ++ w /\ w <> []
                      /\ forallb (is_word unicode_alnum) w = true.

Definition is_query (q : str) : Prop :=
  q = [] \/ exists v, q = py "?si=" ++ v /\ v <> [] /\ forallb dot v = true.

(** [s] is a URL of [id] for the type [t]. *)
Definition url_form (t : rtype) (id s : str) : Prop :=
  exists sc intl q nl,
    s = sc ++ py "open.spotify.com" ++ intl ++ py "/" ++ py (type_name t)
           ++ py "/" ++ id ++ q ++ nl
    /\ is_scheme sc /\ is_intl intl /\ length id = 22
    /\ forallb is_alnum id = true /\ is_query q /\ at_eol nl = true.

(** The inputs that fill the slot of [t] with [id]. *)
Definition form (t : rtype) (id s : str) : Prop :=
  uri_form t id s \/ url_form t id s.

End FormsOfInput.

(** A text without one final line feed. *)
Fixpoint chomp (q : str) : str :=
  match q with
  | [] => []
  | c :: tl =>
      match tl with
      | [] => if (c =? LF)%N then [] else [c]
      | _ => c :: chomp tl
      end
  end.

(** [?si=] and a value that is not empty and holds no line feed. *)
Definition si_query (q : str) : bool :=
  match q with
  | a :: b :: c :: d :: v =>
      (a =? cp "?")%N && (b =? cp "s")%N && (c =? cp "i")%N && (d =? cp "=")%N
      && match v with [] => false | _ => forallb dot v end
  | _ => false
  end.

(** What may follow the identifier of a URL: nothing or an [si] query, and
    behind it possibly one final line feed. *)
Definition accepted_tail (q : str) : bool :=
  match chomp q with
  | [] => true
  | q' => si_query q'
  end.

(** The plain URI and the plain URL of an identifier. *)
Definition uri (t : rtype) (id : str) : str :=
  py "spotify:" ++ py (type_name t) ++ py ":" ++ id.

Definition url (scheme : str) (t : rtype) (id : str) : str :=
  scheme ++ py "open.spotify.com" ++ py "/" ++ py (type_name t) ++ py "/" ++ id.

(** A Unicode table with no alphanumeric character beyond ASCII, for
    concrete runs on ASCII input, which never consult it. *)
Definition ascii_only : char -> bool := fun _ => false.

(** A well-formed identifier. *)
Definition id0 : str := py "0123456789abcdefghijkl".

(** ** The passes of [fix_filename] *)

(** What [fix_filename] does to a character [x] that is not the first one,
    given the characters [tl] behind it. *)
Definition scrub (x : char) (tl : str) : char :=
  if forbidden x || (space_or_period x && at_eol tl) then underscore else x.

(** The places [fix_filename] replaces by [_] in a name without reserved
    stem: a forbidden character; whitespace at the start; whitespace or a
    period at the end, that is, with nothing behind it or one final line
    feed.  [first] tells the first place, [behind] is what follows. *)
Definition replaced (first : bool) (x : char) (behind : str) : bool :=
  forbidden x || (first && is_space x) || (space_or_period x && at_eol behind).

(** The substitution behind the first character. *)
Fixpoint tail_pass (l : str) : str :=
  match l with
  | [] => []
  | x :: tl => scrub x tl :: tail_pass tl
  end.

(** A match that ends at [n]; the pattern has no named group. *)
Definition found (n : nat) : option match_obj := Some (Match n []).

(** The second alternative of the pattern, tried at the start of the
    name. *)
Definition reserved_alt : regex := seq [Bol; reserved_re; NotAhead (Cls not_period)].

Definition reserved_match (l : str) : option match_obj :=
  match_at true reserved_alt 0 l.

(** [w] is [name] up to the case of its letters. *)
Definition ci (name : string) (w : str) : Prop :=
  Forall2 (fun c x => lit_eq true c x = true) (py name) w.
Arguments ci name%_string w.

(** The words of [(AUX|COM[1-9]|CON|LPT[1-9]|NUL|PRN)] under IGNORECASE. *)
Definition reserved_word (w : str) : Prop :=
  ci "AUX" w
  \/ (exists w3 d, w = w3 ++ [d] /\ ci "COM" w3 /\ digit19 d = true)
  \/ ci "CON" w
  \/ (exists w3 d, w = w3 ++ [d] /\ ci "LPT" w3 /\ digit19 d = true)
  \/ ci "NUL" w
  \/ ci "PRN" w.

(** What [(?![^.])] accepts: the end of the name, or a period. *)
Definition ends_stem (tl : str) : Prop :=
  tl = [] \/ exists tl', tl = cp "." :: tl'.

(** ** Archives *)

(** A text that is empty or ends with a line feed: what appending whole
    lines to a new file produces. *)
Definition terminated (s : str) : Prop := s = [] \/ exists a, s = a ++ [LF].

(** No CR and no LF. *)
Definition one_line (s : str) : bool :=
  forallb (fun c => negb (c =? LF)%N && negb (c =? CR)%N) s.

(** An identifier as the archive can give it back: not empty and free of
    whitespace (so of tabs and line breaks too). *)
Definition clean_id (id : str) : Prop :=
  id <> [] /\ forallb (fun c => negb (is_space c)) id = true.

(** The archive holds the text [old]: either the file is there with that
    text, or it is not there yet ([old] is empty) and can be created. *)
Definition archive_text (fs : gmap path node) (p : path) (old : str) : Prop :=
  node_at fs p = Some (File old)
  \/ (node_at fs p = None /\ create_check fs p = None /\ old = []).


(** A configuration and a file system for concrete runs. *)
Definition demo_cfg : config := Config [py ".song_archive"] true.

Definition demo_dir : path := [py "music"; py "album"].

Definition demo_fs : gmap path node :=
  {[ hidden_file demo_dir := File (py "abc" ++ [LF]) ]}.

(** ** Slots, valid names and digits *)

(** The slot of [t] in a result. *)
Definition slot (t : rtype) (r : slots) : option str :=
  let '(a, b, c, d, e, f) := r in
  match t with
  | Track => a
  | Album => b
  | Playlist => c
  | Episode => d
  | Show => e
  | Artist => f
  end.

(** A URL with a locale segment: [<scheme>open.spotify.com/intl-<locale>/<type>/<id>]. *)
Definition url_intl (scheme locale : str) (t : rtype) (id : str) : str :=
  scheme ++ py "open.spotify.com" ++ (py "/intl-" ++ locale) ++ py "/"
    ++ py (type_name t) ++ py "/" ++ id.

(** A name [fix_filename] has nothing to do on: no forbidden character, no
    whitespace at the start, no whitespace or period at the end, and no
    reserved device name as its stem. *)
Definition valid_name (s : str) : Prop :=
  forallb (fun c => negb (forbidden c)) s = true
  /\ is_space (hd underscore s) = false
  /\ space_or_period (List.last s underscore) = false
  /\ ~ (exists w tl, s = w ++ tl /\ reserved_word w /\ ends_stem tl).

(** A number below 100 as two decimal digits. *)
Definition digit_char (d : Z) : char := (48 + Z.to_N d)%N.

Definition two_digits (n : Z) : str :=
  [digit_char (n / 10); digit_char (n mod 10)].

(** ** Runs of downloads *)

(** One record of the archive, as [add_to_archive] and
    [add_to_directory_song_ids] take it. *)
Record entry : Type := Entry {
  e_now : str;
  e_id : str;
  e_filename : str;
  e_author : str;
  e_name : str
}.

Definition entry_line (e : entry) : str :=
  archive_line (e_id e) (e_now e) (e_author e) (e_name e) (e_filename e).

(** An identifier that can be read back, no line break in the other
    fields, and no lone surrogate in any field. *)
Definition clean_entry (e : entry) : Prop :=
  clean_id (e_id e)
  /\ one_line (e_now e ++ e_author e ++ e_name e ++ e_filename e) = true
  /\ encodable (entry_line e) = true.

(** The downloads of a run: one call per record, in order. *)
Fixpoint add_all_to_archive (cfg : config) (es : list entry) : io unit :=
  match es with
  | [] => ret tt
  | e :: tl =>
      _ <- add_to_archive cfg (e_now e) (e_id e) (e_filename e) (e_author e)
             (e_name e) ;;
      add_all_to_archive cfg tl
  end.

Fixpoint add_all_to_directory (cfg : config) (download_path : path)
    (es : list entry) : io unit :=
  match es with
  | [] => ret tt
  | e :: tl =>
      _ <- add_to_directory_song_ids cfg (e_now e) download_path (e_id e)
             (e_filename e) (e_author e) (e_name e) ;;
      add_all_to_directory cfg download_path tl
  end.

(** ** Playlists *)

Definition m3u_path (z : launch) : path :=
  get_root_path z ++ [datetime_launch z ++ py "_zotify.m3u8"].

Definition m3u_header : str := py "#EXTM3U" ++ [LF; LF].

Record song : Type := Song {
  s_filename : str;
  s_duration : float;
  s_name : str
}.

(** The whole seconds of a finite duration, towards zero. *)
Definition whole_seconds (x : float) : Z :=
  match x with
  | Finite q => if Qle_bool 0 q then Qfloor q else Qceiling q
  | _ => 0
  end.

(** The first line of the block of a song, and the block: the [#EXTINF]
    line, the path, a blank line. *)
Definition m3u_extinf (s : song) : str :=
  py "#EXTINF:" ++ int_str (whole_seconds (s_duration s)) ++ py ", "
    ++ s_name s ++ [LF].

Definition m3u_entry (s : song) : str :=
  m3u_extinf s ++ s_filename s ++ [LF; LF].

(** What goes wrong with a song that cannot be written: the exception,
    and what of the song is written before it. *)
Definition m3u_failure (s : song) : option (exn * str) :=
  match s_duration s with
  | NaN => Some (ValueError, [])
  | Infinity _ => Some (OverflowError, [])
  | Finite _ =>
      if negb (encodable (s_name s)) then Some (UnicodeEncodeError, [])
      else if negb (encodable (s_filename s))
           then Some (UnicodeEncodeError, m3u_extinf s)
           else None
  end.

(** A song [add_to_m3u] can write: a finite duration, and no lone
    surrogate in the title or in the path. *)
Definition clean_song (s : song) : Prop :=
  (exists q, s_duration s = Finite q)
  /\ encodable (s_name s) = true
  /\ encodable (s_filename s) = true.

Fixpoint add_all_to_m3u (z : launch) (songs : list song) : io unit :=
  match songs with
  | [] => ret tt
  | s :: tl =>
      _ <- add_to_m3u z (s_filename s) (s_duration s) (s_name s) ;;
      add_all_to_m3u z tl
  end.

(** The playlist holds [text], or is not there yet, can be created and
    will start with the header. *)
Definition playlist_text (fs : gmap path node) (p : path) (text : str) : Prop :=
  node_at fs p = Some (File text)
  \/ (node_at fs p = None /\ create_check fs p = None /\ text = m3u_header).

(** ** Selections *)

(** The value of a decimal numeral read from the left, as [scan_digits]
    accumulates it. *)
Fixpoint uint_value (acc : N) (u : Decimal.uint) : N :=
  match u with
  | Decimal.Nil => acc
  | Decimal.D0 l => uint_value (10 * acc + 0)%N l
  | Decimal.D1 l => uint_value (10 * acc + 1)%N l
  | Decimal.D2 l => uint_value (10 * acc + 2)%N l
  | Decimal.D3 l => uint_value (10 * acc + 3)%N l
  | Decimal.D4 l => uint_value (10 * acc + 4)%N l
  | Decimal.D5 l => uint_value (10 * acc + 5)%N l
  | Decimal.D6 l => uint_value (10 * acc + 6)%N l
  | Decimal.D7 l => uint_value (10 * acc + 7)%N l
  | Decimal.D8 l => uint_value (10 * acc + 8)%N l
  | Decimal.D9 l => uint_value (10 * acc + 9)%N l
  end.

(** A table without digits beyond ASCII, for concrete runs on ASCII input. *)
Definition no_unicode_digits : char -> option N := fun _ => None.

(** [sep] does not occur in [s]. *)
Definition free_of (sep : char) (s : str) : bool :=
  forallb (fun c => negb (c =? sep)%N) s.

(** ** Data for concrete runs *)

Definition id1 : str := py "ZYXWVUTSRQPONMLKJIHGFE".

Definition demo_entries : list entry :=
  [ Entry (py "2024-01-01 10:00:00") id0 (py "a.ogg") (py "Ann") (py "Song");
    Entry (py "2024-01-02 11:00:00") id1 (py "b.ogg") (py "Bob") (py "Tune") ].

(** [demo_cfg] with directory archives on. *)
Definition demo_on : config := Config [py ".song_archive"] false.

Definition demo_launch : launch := Launch [py "music"] (py "2024-01-01_10-00-00").

Definition demo_songs : list song :=
  [ Song (py "music/a.ogg") (Finite (1815 # 10)) (py "Song");
    Song (py "music/b.ogg") (Finite (59 # 1)) (py "Tune") ].


(** A file system that holds the root directory of [demo_launch]. *)
Definition demo_root : gmap path node := {[ [py "music"] := Dir ]}.

(** * Properties *)

(** ** Concrete runs *)

(** The doctests of [fix_filename]. *)
Example fix_filename_doctest1 : fix_filename (py "  COM1  ") = py "_ COM1 _".
Proof. vm_compute. reflexivity. Qed.

Example fix_filename_doctest2 : fix_filename (py "COM10") = py "COM10".
Proof. vm_compute. reflexivity. Qed.

Example fix_filename_doctest3 : fix_filename (py "COM1,") = py "COM1,".
Proof. vm_compute. reflexivity. Qed.

Example fix_filename_doctest4 : fix_filename (py "COM1.txt") = py "_.txt".
Proof. vm_compute. reflexivity. Qed.

Example fix_filename_doctest5 :
  forallb (fun i => bool_decide (fix_filename [N.of_nat i] = py "_"))
          (List.seq 0 32) = true.
Proof. vm_compute. reflexivity. Qed.

Example fix_filename_forbidden : fix_filename (py "a/b:c.") = py "a_b_c_".
Proof. vm_compute. reflexivity. Qed.

Example fix_filename_lpt : fix_filename (py "lpt3.tar.gz ") = py "_.tar.gz_".
Proof. vm_compute. reflexivity. Qed.

Example fix_filename_lf : fix_filename (py "COM1" ++ [LF]) = py "COM1_".
Proof. vm_compute. reflexivity. Qed.

Example regex_input_uri :
  regex_input_for_urls ascii_only (py "spotify:track:0123456789abcdefghijkl")
  = only Track id0.
Proof. vm_compute. reflexivity. Qed.

Example regex_input_url_intl :
  regex_input_for_urls ascii_only
    (py "https://open.spotify.com/intl-en/album/0123456789abcdefghijkl?si=xyz")
  = only Album id0.
Proof. vm_compute. reflexivity. Qed.

Example regex_input_url_lf :
  regex_input_for_urls ascii_only
    (py "http://open.spotify.com/show/0123456789abcdefghijkl?si=a" ++ [LF])
  = only Show id0.
Proof. vm_compute. reflexivity. Qed.

Example regex_input_short_id :
  regex_input_for_urls ascii_only
    (py "http://open.spotify.com/show/0123456789abcdefghijk?si=a")
  = no_match.
Proof. vm_compute. reflexivity. Qed.

Example fmt_seconds_0 : fmt_seconds 0 = py "0s".
Proof. reflexivity. Qed.

Example fmt_seconds_59 : fmt_seconds 59.9 = py "59s".
Proof. vm_compute. reflexivity. Qed.

Example fmt_seconds_65 : fmt_seconds 65 = py "01:05".
Proof. vm_compute. reflexivity. Qed.

Example fmt_seconds_3661 : fmt_seconds 3661 = py "01:01:01".
Proof. vm_compute. reflexivity. Qed.

Example fmt_seconds_100h : fmt_seconds 360000 = py "100:00:00".
Proof. vm_compute. reflexivity. Qed.

Example fmt_seconds_negative : fmt_seconds (-1) = py "-1:59:59".
Proof. vm_compute. reflexivity. Qed.

(** ** The matcher against the language of a pattern *)

Lemma orelse_Some {A} (a b : option A) v :
  orelse a b = Some v -> a = Some v \/ (a = None /\ b = Some v).
Proof. destruct a; simpl; intros H; [left | right]; auto. Qed.

Lemma orelse_is_Some {A} (a b : option A) :
  is_Some a \/ is_Some b -> is_Some (orelse a b).
Proof.
  destruct a; simpl; [eauto | intros [[? H] | H]; [discriminate | exact H]].
Qed.

Lemma plus_greedy_sound {A} p (k : nat -> str -> option A) l n v :
  plus_greedy p n l k = Some v ->
  exists w tl, w <> [] /\ forallb p w = true /\ l = w ++ tl
               /\ k (n + length w) tl = Some v.
Proof.
  revert n. induction l as [|x tl IH]; simpl; intros n H; [discriminate|].
  destruct (p x) eqn:Hp; [|discriminate].
  apply orelse_Some in H as [H | [_ H]].
  - apply IH in H as (w & tl' & _ & Hw & -> & Hk).
    exists (x :: w), tl'. simpl. rewrite Hp, Hw.
    replace (n + S (length w)) with (S n + length w) by lia. auto.
  - exists [x], tl. simpl. rewrite Hp.
    replace (n + 1) with (S n) by lia. auto.
Qed.

Lemma plus_lazy_sound {A} p (k : nat -> str -> option A) l n v :
  plus_lazy p n l k = Some v ->
  exists w tl, w <> [] /\ forallb p w = true /\ l = w ++ tl
               /\ k (n + length w) tl = Some v.
Proof.
  revert n. induction l as [|x tl IH]; simpl; intros n H; [discriminate|].
  destruct (p x) eqn:Hp; [|discriminate].
  apply orelse_Some in H as [H | [_ H]].
  - exists [x], tl. simpl. rewrite Hp.
    replace (n + 1) with (S n) by lia. auto.
  - apply IH in H as (w & tl' & _ & Hw & -> & Hk).
    exists (x :: w), tl'. simpl. rewrite Hp, Hw.
    replace (n + S (length w)) with (S n + length w) by lia. auto.
Qed.

Lemma plus_greedy_complete {A} p (k : nat -> str -> option A) w tl n :
  w <> [] -> forallb p w = true -> is_Some (k (n + length w) tl) ->
  is_Some (plus_greedy p n (w ++ tl) k).
Proof.
  revert n. induction w as [|x w IH]; intros n Hne Hw Hk; [congruence|].
  simpl in *. apply andb_prop in Hw as [Hp Hw]. rewrite Hp.
  apply orelse_is_Some. destruct w as [|y w].
  - right. simpl in *. replace (S n) with (n + 1) by lia. exact Hk.
  - left. apply IH; [discriminate | exact Hw |].
    replace (S n + length (y :: w)) with (n + S (length (y :: w))) by lia.
    exact Hk.
Qed.

Lemma plus_lazy_complete {A} p (k : nat -> str -> option A) w tl n :
  w <> [] -> forallb p w = true -> is_Some (k (n + length w) tl) ->
  is_Some (plus_lazy p n (w ++ tl) k).
Proof.
  revert n. induction w as [|x w IH]; intros n Hne Hw Hk; [congruence|].
  simpl in *. apply andb_prop in Hw as [Hp Hw]. rewrite Hp.
  apply orelse_is_Some. destruct w as [|y w].
  - left. simpl in *. replace (S n) with (n + 1) by lia. exact Hk.
  - right. apply IH; [discriminate | exact Hw |].
    replace (S n + length (y :: w)) with (n + S (length (y :: w))) by lia.
    exact Hk.
Qed.

(** Soundness and completeness of [exec], together: the lookahead makes
    each depend on the other. *)
Lemma exec_den ic r :
  (forall A st (k : mstate -> option A) v,
      exec ic r st k = Some v -> exists st', den ic r st st' /\ k st' = Some v)
  /\ (forall A st (k : mstate -> option A) st',
      den ic r st st' -> is_Some (k st') -> is_Some (exec ic r st k)).
Proof.
  induction r as [ | c | p | r1 IH1 r2 IH2 | r1 IH1 r2 IH2 | r1 IH1 | p | p
                 | name r1 IH1 | | | r1 IH1 ]; simpl; split.
  - intros A st k v H. eauto.
  - intros A st k st' -> H. exact H.
  - intros A st k v H. destruct (rest st) as [|x tl] eqn:E; [discriminate|].
    destruct (lit_eq ic c x) eqn:Hc; [|discriminate]. eauto 10.
  - intros A st k st' (x & tl & E & Hc & ->) H. rewrite E, Hc. exact H.
  - intros A st k v H. destruct (rest st) as [|x tl] eqn:E; [discriminate|].
    destruct (p x) eqn:Hc; [|discriminate]. eauto 10.
  - intros A st k st' (x & tl & E & Hc & ->) H. rewrite E, Hc. exact H.
  - intros A st k v H.
    apply (proj1 IH1) in H as (mid & H1 & H).
    apply (proj1 IH2) in H as (st' & H2 & H). eauto.
  - intros A st k st' (mid & H1 & H2) H.
    apply (proj2 IH1 _ _ _ mid H1). apply (proj2 IH2 _ _ _ st' H2 H).
  - intros A st k v H. apply orelse_Some in H as [H | [_ H]].
    + apply (proj1 IH1) in H as (st' & ? & ?). eauto.
    + apply (proj1 IH2) in H as (st' & ? & ?). eauto.
  - intros A st k st' [H1 | H2] H; apply orelse_is_Some.
    + left. apply (proj2 IH1 _ _ _ st' H1 H).
    + right. apply (proj2 IH2 _ _ _ st' H2 H).
  - intros A st k v H. apply orelse_Some in H as [H | [_ H]].
    + apply (proj1 IH1) in H as (st' & ? & ?). eauto.
    + eauto.
  - intros A st k st' [H1 | ->] H; apply orelse_is_Some.
    + left. apply (proj2 IH1 _ _ _ st' H1 H).
    + right. exact H.
  - intros A st k v H.
    apply plus_greedy_sound in H as (w & tl & ? & ? & ? & ?). eauto 10.
  - intros A st k st' (w & tl & Hne & Hw & E & ->) H. rewrite E.
    apply plus_greedy_complete; assumption.
  - intros A st k v H.
    apply plus_lazy_sound in H as (w & tl & ? & ? & ? & ?). eauto 10.
  - intros A st k st' (w & tl & Hne & Hw & E & ->) H. rewrite E.
    apply plus_lazy_complete; assumption.
  - intros A st k v H. apply (proj1 IH1) in H as (st1 & ? & ?). eauto.
  - intros A st k st' (st1 & H1 & ->) H.
    apply (proj2 IH1 _ _ _ st1 H1). exact H.
  - intros A st k v H. destruct (pos st =? 0)%nat eqn:E; [|discriminate].
    apply Nat.eqb_eq in E. eauto.
  - intros A st k st' [E ->] H. rewrite E. exact H.
  - intros A st k v H. destruct (at_eol (rest st)) eqn:E; [|discriminate]. eauto.
  - intros A st k st' [E ->] H. rewrite E. exact H.
  - intros A st k v H.
    destruct (exec ic r1 st (fun _ => Some tt)) eqn:E; [discriminate|].
    exists st. split; [split; [|reflexivity] | exact H].
    intros st1 H1.
    destruct (proj2 IH1 unit st (fun _ => Some tt) st1 H1) as [u Hu]; [eauto|].
    congruence.
  - intros A st k st' [Hn ->] H.
    destruct (exec ic r1 st (fun _ => Some tt)) eqn:E; [|exact H].
    apply (proj1 IH1) in E as (st1 & H1 & _). destruct (Hn st1 H1).
Qed.

Lemma exec_sound {A} ic r st (k : mstate -> option A) v :
  exec ic r st k = Some v -> exists st', den ic r st st' /\ k st' = Some v.
Proof. apply (proj1 (exec_den ic r)). Qed.

Lemma exec_complete {A} ic r st (k : mstate -> option A) st' :
  den ic r st st' -> is_Some (k st') -> is_Some (exec ic r st k).
Proof. apply (proj2 (exec_den ic r)). Qed.

(** No match in the language, no result. *)
Lemma exec_None {A} ic r st (k : mstate -> option A) :
  (forall st', den ic r st st' -> k st' = None) -> exec ic r st k = None.
Proof.
  intros H. destruct (exec ic r st k) as [v|] eqn:E; [|reflexivity].
  apply exec_sound in E as (st' & Hd & Hk). rewrite (H st' Hd) in Hk. discriminate.
Qed.

(** When every match of the language leads [k] to the same result, that
    is the result of the search. *)
Lemma exec_unique {A} ic r st (k : mstate -> option A) st0 v :
  den ic r st st0 -> k st0 = Some v ->
  (forall st' v', den ic r st st' -> k st' = Some v' -> v' = v) ->
  exec ic r st k = Some v.
Proof.
  intros Hd Hk Hu.
  destruct (exec_complete ic r st k st0 Hd) as [v' E]; [eauto|].
  rewrite E. f_equal.
  apply exec_sound in E as (st' & Hd' & Hk'). eauto.
Qed.

Lemma eats_nil st : eats st [] st.
Proof. unfold eats. simpl. repeat split; lia. Qed.

Lemma eats_app st w1 mid w2 st' :
  eats st w1 mid -> eats mid w2 st' -> eats st (w1 ++ w2) st'.
Proof.
  intros (E1 & P1 & G1) (E2 & P2 & G2). unfold eats.
  rewrite E1, E2, P2, P1, G2, G1, length_app, <- app_assoc. repeat split; lia.
Qed.

Lemma eats_advance st x tl : rest st = x :: tl -> eats st [x] (advance st tl).
Proof. intros E. unfold eats. simpl. rewrite E. repeat split; lia. Qed.

Lemma eats_mk st w tl :
  rest st = w ++ tl -> eats st w (MState (pos st + length w) tl (groups st)).
Proof. intros E. unfold eats. simpl. auto. Qed.

Lemma eats_eq st w st' :
  eats st w st' -> st' = MState (pos st + length w) (rest st') (groups st).
Proof. intros (E & P & G). destruct st'. simpl in *. congruence. Qed.

Lemma lit_eq_exact c x : lit_eq false c x = true -> x = c.
Proof.
  unfold lit_eq. simpl. rewrite orb_false_r. apply N.eqb_eq.
Qed.

(** A literal string matches its own text, letter for letter, in either
    case under IGNORECASE. *)
Lemma den_lits ic l st st' :
  den ic (lits l) st st' <->
  exists w, Forall2 (fun c x => lit_eq ic c x = true) l w /\ eats st w st'.
Proof.
  revert st. induction l as [|c l IH]; intros st; simpl.
  - split.
    + intros ->. exists []. split; [constructor | apply eats_nil].
    + intros (w & Hw & He). inversion Hw; subst.
      destruct He as (E & P & G). destruct st, st'. simpl in *.
      subst. f_equal. lia.
  - split.
    + intros (mid & (x & tl & E & Hc & ->) & H).
      apply IH in H as (w & Hw & He). exists (x :: w). split.
      * constructor; assumption.
      * apply (eats_app st [x] _ w st' (eats_advance st x tl E) He).
    + intros (w & Hw & He). inversion Hw as [|c' x l' w' Hc Hw']; subst.
      destruct He as (E & P & G). simpl in E.
      exists (advance st (w' ++ rest st')). split.
      * exists x, (w' ++ rest st'). auto.
      * apply IH. exists w'. split; [exact Hw'|].
        unfold eats. simpl in *. repeat split; [lia | exact G].
Qed.

Lemma Forall2_lit_exact l w :
  Forall2 (fun c x => lit_eq false c x = true) l w <-> w = l.
Proof.
  split.
  - induction 1 as [|c x l w Hc _ IH]; [reflexivity|].
    apply lit_eq_exact in Hc. congruence.
  - intros ->. induction l; constructor; [|assumption].
    unfold lit_eq. rewrite N.eqb_refl. reflexivity.
Qed.

(** Without IGNORECASE a literal string matches itself only. *)
Lemma den_lits_exact l st st' : den false (lits l) st st' <-> eats st l st'.
Proof.
  rewrite den_lits. split.
  - intros (w & Hw & He). apply Forall2_lit_exact in Hw. congruence.
  - intros He. exists l. split; [apply Forall2_lit_exact; reflexivity | exact He].
Qed.

(** [p{n}] matches [n] characters of the class [p]. *)
Lemma den_times_cls ic p n st st' :
  den ic (times n (Cls p)) st st' <->
  exists w, length w = n /\ forallb p w = true /\ eats st w st'.
Proof.
  revert st. induction n as [|n IH]; intros st; simpl.
  - split.
    + intros ->. exists []. split; [reflexivity | split; [reflexivity|]].
      apply eats_nil.
    + intros (w & Hl & _ & He). destruct w; [|discriminate].
      destruct He as (E & P & G). destruct st, st'. simpl in *.
      subst. f_equal. lia.
  - split.
    + intros (mid & (x & tl & E & Hc & ->) & H).
      apply IH in H as (w & Hl & Hw & He). exists (x :: w). simpl.
      rewrite Hc, Hw, Hl. split; [reflexivity | split; [reflexivity|]].
      apply (eats_app st [x] _ w st' (eats_advance st x tl E) He).
    + intros (w & Hl & Hw & He). destruct w as [|x w]; [discriminate|].
      simpl in *. apply andb_prop in Hw as [Hc Hw].
      destruct He as (E & P & G). simpl in E, P.
      exists (advance st (w ++ rest st')). split.
      * exists x, (w ++ rest st'). auto.
      * apply IH. exists w. split; [lia|]. split; [exact Hw|].
        unfold eats. simpl. split; [reflexivity|]. split; [lia | exact G].
Qed.

(** A pattern that starts with [^] matches at the start of the subject
    only, so [re.search] is a match at position 0. *)
Lemma search_from_bol ic r n l :
  search_from ic (Cat Bol r) (S n) l = None.
Proof.
  revert n. induction l as [|x l IH]; intros n; simpl; [reflexivity|].
  apply IH.
Qed.

Lemma re_search_bol r s :
  re_search (Cat Bol r) s = match_at false (Cat Bol r) 0 s.
Proof.
  unfold re_search. destruct s as [|x s]; simpl.
  - destruct (match_at false (Cat Bol r) 0 []); reflexivity.
  - rewrite search_from_bol.
    destruct (match_at false (Cat Bol r) 0 (x :: s)); reflexivity.
Qed.

(** ** [regex_input_for_urls]: what each pattern matches *)

Lemma group_name_lookup t n id gs :
  group (group_name t) (Match n ((group_name t, id) :: gs)) = Some id.
Proof. unfold group. simpl. rewrite String.eqb_refl. reflexivity. Qed.

Lemma capture_eats name st w st' :
  eats st w st' ->
  capture name st st' = MState (pos st') (rest st') ((name, w) :: groups st).
Proof.
  intros (E & P & G). unfold capture. rewrite E, P, G. do 3 f_equal.
  replace (pos st + length w - pos st) with (length w) by lia.
  rewrite firstn_app, Nat.sub_diag, firstn_all. simpl. apply app_nil_r.
Qed.

Lemma eats_start s w st' :
  eats (MState 0 s []) w st' -> s = w ++ rest st' /\ groups st' = [].
Proof. intros (E & _ & G). auto. Qed.

Lemma uri_den t s st' :
  den false (uri_re t) (MState 0 s []) st' ->
  exists id, uri_form t id s /\ groups st' = [(group_name t, id)].
Proof.
  unfold uri_re, id_group. cbn [seq fold_right].
  intros (m1 & [_ ->] & m2 & H2 & m3 & H3 & m4 & H4 & m5
          & (st1 & H5 & ->) & m6 & [Hnl ->] & ->).
  apply den_lits_exact in H2, H3, H4.
  apply den_times_cls in H5 as (id & Hl & Hid & H5).
  rewrite (capture_eats _ _ _ _ H5) in *. simpl in *.
  pose proof (eats_app _ _ _ _ _ H2 (eats_app _ _ _ _ _ H3 H4)) as H.
  destruct (eats_start _ _ _ (eats_app _ _ _ _ _ H H5)) as [E G].
  destruct H as (_ & _ & ->). simpl.
  exists id. split; [|reflexivity].
  exists (rest st1). rewrite E, <- !app_assoc. auto.
Qed.

Lemma uri_den_intro t id s :
  uri_form t id s ->
  exists st', den false (uri_re t) (MState 0 s []) st'
              /\ groups st' = [(group_name t, id)].
Proof.
  intros (nl & -> & Hl & Hid & Hnl).
  unfold uri_re, id_group. cbn [seq fold_right].
  set (s0 := MState 0 _ []).
  set (w1 := py "spotify:"). set (w2 := py (type_name t)). set (w3 := py ":").
  pose (m2 := MState (length w1) (w2 ++ w3 ++ id ++ nl) []).
  pose (m3 := MState (length w1 + length w2) (w3 ++ id ++ nl) []).
  pose (m4 := MState (length w1 + length w2 + length w3) (id ++ nl) []).
  pose (m5 := MState (length w1 + length w2 + length w3 + length id) nl []).
  assert (H5 : eats m4 id m5) by (unfold eats; simpl; auto).
  exists (capture (group_name t) m4 m5). split.
  - exists s0. split; [split; reflexivity|].
    exists m2. split; [apply den_lits_exact; unfold eats; simpl; auto|].
    exists m3. split; [apply den_lits_exact; unfold eats; simpl; auto|].
    exists m4. split; [apply den_lits_exact; unfold eats; simpl; auto|].
    exists (capture (group_name t) m4 m5). split.
    + exists m5. split; [|reflexivity].
      apply den_times_cls. exists id. auto.
    + exists (capture (group_name t) m4 m5). split; [|reflexivity].
      split; [|reflexivity]. rewrite (capture_eats _ _ _ _ H5). exact Hnl.
  - rewrite (capture_eats _ _ _ _ H5). reflexivity.
Qed.

Lemma den_lit_exact c st st' : den false (Lit c) st st' <-> eats st [c] st'.
Proof.
  split.
  - intros (x & tl & E & Hc & ->). apply lit_eq_exact in Hc. subst.
    apply eats_advance, E.
  - intros (E & P & G). exists c, (rest st'). split; [exact E|].
    split; [unfold lit_eq; rewrite N.eqb_refl; reflexivity|].
    destruct st, st'. unfold advance. simpl in *. subst. f_equal. lia.
Qed.

Lemma den_plus ic p st st' :
  den ic (Plus p) st st' <->
  exists w, w <> [] /\ forallb p w = true /\ eats st w st'.
Proof.
  simpl. split.
  - intros (w & tl & Hne & Hw & E & ->). exists w. repeat split; auto.
  - intros (w & Hne & Hw & (E & P & G)). exists w, (rest st').
    repeat split; auto. destruct st'. simpl in *. subst. reflexivity.
Qed.

Lemma den_plus_lazy ic p st st' :
  den ic (PlusLazy p) st st' <->
  exists w, w <> [] /\ forallb p w = true /\ eats st w st'.
Proof. apply (den_plus ic p st st'). Qed.

Lemma eats_nil_eq st st' : eats st [] st' -> st' = st.
Proof.
  intros (E & P & G). destruct st, st'. simpl in *. subst. f_equal. lia.
Qed.

Section UrlForm.
Variable unicode_alnum : char -> bool.

Lemma den_scheme st st' :
  den false (Opt (seq [text "http"; Opt (Lit (cp "s")); text "://"])) st st' <->
  exists sc, is_scheme sc /\ eats st sc st'.
Proof.
  cbn [seq fold_right]. split.
  - intros [(m1 & H1 & m2 & [H2 | ->] & m3 & H3 & ->) | ->].
    + apply den_lits_exact in H1, H3. apply den_lit_exact in H2.
      exists (py "https://"). split; [right; right; reflexivity|].
      apply (eats_app _ _ _ _ _ H1 (eats_app _ _ _ _ _ H2 H3)).
    + apply den_lits_exact in H1, H3.
      exists (py "http://"). split; [right; left; reflexivity|].
      apply (eats_app _ _ _ _ _ H1 H3).
    + exists []. split; [left; reflexivity | apply eats_nil].
  - intros (sc & [-> | [-> | ->]] & He).
    + right. apply eats_nil_eq, He.
    + left. destruct He as (E & P & G).
      exists (MState (pos st + 4) (py "://" ++ rest st') (groups st)).
      split; [apply den_lits_exact; unfold eats; simpl; auto|].
      exists (MState (pos st + 4) (py "://" ++ rest st') (groups st)).
      split; [right; reflexivity|].
      exists st'. split; [|reflexivity].
      apply den_lits_exact. unfold eats. simpl in *. repeat split; [lia|auto].
    + left. destruct He as (E & P & G).
      exists (MState (pos st + 4) (py "s://" ++ rest st') (groups st)).
      split; [apply den_lits_exact; unfold eats; simpl; auto|].
      exists (MState (pos st + 5) (py "://" ++ rest st') (groups st)).
      split; [left; apply den_lit_exact; unfold eats; simpl;
              repeat split; lia|].
      exists st'. split; [|reflexivity].
      apply den_lits_exact. unfold eats. simpl in *. repeat split; [lia|auto].
Qed.

Lemma den_intl st st' :
  den false (Opt (seq [text "/intl-"; Plus (is_word unicode_alnum)])) st st' <->
  exists i, is_intl unicode_alnum i /\ eats st i st'.
Proof.
  cbn [seq fold_right]. split.
  - intros [(m1 & H1 & m2 & H2 & ->) | ->].
    + apply den_lits_exact in H1. apply den_plus in H2 as (w & Hne & Hw & H2).
      exists (py "/intl-" ++ w). split; [right; eauto|].
      apply (eats_app _ _ _ _ _ H1 H2).
    + exists []. split; [left; reflexivity | apply eats_nil].
  - intros (i & [-> | (w & -> & Hne & Hw)] & He).
    + right. apply eats_nil_eq, He.
    + left. destruct He as (E & P & G).
      exists (MState (pos st + 6) (w ++ rest st') (groups st)).
      split; [apply den_lits_exact; unfold eats; simpl; rewrite E; auto|].
      exists st'. split; [|reflexivity].
      apply den_plus. exists w. repeat split; auto.
      simpl. rewrite P, length_app. simpl. lia.
Qed.

Lemma den_query st st' :
  den false (Opt (seq [text "?si="; PlusLazy dot])) st st' <->
  exists q, is_query q /\ eats st q st'.
Proof.
  cbn [seq fold_right]. split.
  - intros [(m1 & H1 & m2 & H2 & ->) | ->].
    + apply den_lits_exact in H1. apply den_plus_lazy in H2 as (w & Hne & Hw & H2).
      exists (py "?si=" ++ w). split; [right; eauto|].
      apply (eats_app _ _ _ _ _ H1 H2).
    + exists []. split; [left; reflexivity | apply eats_nil].
  - intros (i & [-> | (w & -> & Hne & Hw)] & He).
    + right. apply eats_nil_eq, He.
    + left. destruct He as (E & P & G).
      exists (MState (pos st + 4) (w ++ rest st') (groups st)).
      split; [apply den_lits_exact; unfold eats; simpl; rewrite E; auto|].
      exists st'. split; [|reflexivity].
      apply den_plus_lazy. exists w. repeat split; auto.
      simpl. rewrite P, length_app. simpl. lia.
Qed.

End UrlForm.

Section UrlMatch.
Variable unicode_alnum : char -> bool.

Lemma url_den t s st' :
  den false (url_re unicode_alnum t) (MState 0 s []) st' ->
  exists id, url_form unicode_alnum t id s /\ groups st' = [(group_name t, id)].
Proof.
  unfold url_re, id_group.
  change (seq (?a :: ?b :: ?c :: ?d :: ?e :: ?f :: ?g :: ?h :: ?i :: ?j :: nil))
    with (Cat a (Cat b (Cat c (Cat d (Cat e (Cat f (Cat g (Cat h (Cat i (Cat j Eps)))))))))).
  intros (m1 & [_ ->] & m2 & H2 & m3 & H3 & m4 & H4 & m5 & H5 & m6 & H6
          & m7 & H7 & m8 & (st1 & H8 & ->) & m9 & H9 & m10 & [Hnl ->] & ->).
  apply den_scheme in H2 as (sc & Hsc & H2).
  apply den_intl in H4 as (i & Hi & H4).
  apply den_lits_exact in H3, H5, H6, H7.
  apply den_times_cls in H8 as (id & Hl & Hid & H8).
  rewrite (capture_eats _ _ _ _ H8) in *.
  apply den_query in H9 as (q & Hq & H9).
  pose proof (eats_app _ _ _ _ _ H2 (eats_app _ _ _ _ _ H3
             (eats_app _ _ _ _ _ H4 (eats_app _ _ _ _ _ H5
             (eats_app _ _ _ _ _ H6 H7))))) as H.
  destruct H9 as (E9 & P9 & G9). simpl in E9, G9.
  destruct (eats_start _ _ _ (eats_app _ _ _ _ _ H H8)) as [E G].
  destruct H as (_ & _ & G'). simpl in G'.
  exists id. split.
  - exists sc, i, q, (rest m9). rewrite E, E9, <- !app_assoc. auto 10.
  - rewrite G9, G'. reflexivity.
Qed.

Lemma url_den_intro t id s :
  url_form unicode_alnum t id s ->
  exists st', den false (url_re unicode_alnum t) (MState 0 s []) st'
              /\ groups st' = [(group_name t, id)].
Proof.
  intros (sc & i & q & nl & -> & Hsc & Hi & Hl & Hid & Hq & Hnl).
  unfold url_re, id_group.
  change (seq (?a :: ?b :: ?c :: ?d :: ?e :: ?f :: ?g :: ?h :: ?i :: ?j :: nil))
    with (Cat a (Cat b (Cat c (Cat d (Cat e (Cat f (Cat g (Cat h (Cat i (Cat j Eps)))))))))).
  set (s0 := MState 0 _ []).
  set (w3 := py "open.spotify.com"). set (w5 := py "/").
  set (w6 := py (type_name t)).
  pose (n2 := length sc). pose (n3 := n2 + length w3).
  pose (n4 := n3 + length i). pose (n5 := n4 + length w5).
  pose (n6 := n5 + length w6). pose (n7 := n6 + length w5).
  pose (n8 := n7 + length id). pose (n9 := n8 + length q).
  pose (m2 := MState n2 (w3 ++ i ++ w5 ++ w6 ++ w5 ++ id ++ q ++ nl) []).
  pose (m3 := MState n3 (i ++ w5 ++ w6 ++ w5 ++ id ++ q ++ nl) []).
  pose (m4 := MState n4 (w5 ++ w6 ++ w5 ++ id ++ q ++ nl) []).
  pose (m5 := MState n5 (w6 ++ w5 ++ id ++ q ++ nl) []).
  pose (m6 := MState n6 (w5 ++ id ++ q ++ nl) []).
  pose (m7 := MState n7 (id ++ q ++ nl) []).
  pose (m8 := MState n8 (q ++ nl) []).
  pose (m8' := MState n8 (q ++ nl) [(group_name t, id)]).
  pose (m9 := MState n9 nl [(group_name t, id)]).
  assert (H8 : eats m7 id m8) by (unfold eats; simpl; auto).
  assert (C : capture (group_name t) m7 m8 = m8')
    by (rewrite (capture_eats _ _ _ _ H8); reflexivity).
  exists m9. split; [|reflexivity].
  exists s0. split; [split; reflexivity|].
  exists m2. split; [apply den_scheme; exists sc; unfold eats; simpl; auto|].
  exists m3. split; [apply den_lits_exact; unfold eats; simpl; auto|].
  exists m4. split; [apply den_intl; exists i; unfold eats; simpl; auto|].
  exists m5. split; [apply den_lits_exact; unfold eats; simpl; auto|].
  exists m6. split; [apply den_lits_exact; unfold eats; simpl; auto|].
  exists m7. split; [apply den_lits_exact; unfold eats; simpl; auto|].
  exists m8'. split.
  { exists m8. split; [|symmetry; exact C].
    apply den_times_cls. exists id. auto. }
  exists m9. split; [apply den_query; exists q; unfold eats; simpl; auto|].
  exists m9. split; [|reflexivity]. split; [exact Hnl | reflexivity].
Qed.

End UrlMatch.

(** ** One input, one form *)

(** Two readings of one string as a run of [p] followed by a separator
    outside [p] agree on the run. *)
Lemma run_sep_inj (p : char -> bool) c w w' r r' :
  forallb p w = true -> forallb p w' = true -> p c = false ->
  w ++ c :: r = w' ++ c :: r' -> w = w' /\ r = r'.
Proof.
  intros Hw Hw' Hc. revert w' Hw'.
  induction w as [|x w IH]; intros [|y w'] Hw' E; simpl in *.
  - injection E as ->. auto.
  - injection E as <- _. apply andb_prop in Hw' as [Hy _]. congruence.
  - injection E as -> _. apply andb_prop in Hw as [Hx _]. congruence.
  - injection E as -> E. apply andb_prop in Hw as [_ Hw].
    apply andb_prop in Hw' as [_ Hw'].
    destruct (IH Hw w' Hw' E) as [-> ->]. auto.
Qed.

(** After the type's name comes a separator: the names tell the types
    apart. *)
Lemma type_name_sep_inj c t t' r r' :
  py (type_name t) ++ c :: r = py (type_name t') ++ c :: r' ->
  t = t' /\ r = r'.
Proof.
  intros E.
  destruct t, t'; simpl in E; try discriminate E;
    try (split; [reflexivity | congruence]).
Qed.

Lemma id_tail_inj (id id' r r' : str) :
  length id = 22 -> length id' = 22 -> id ++ r = id' ++ r' -> id = id'.
Proof.
  intros Hl Hl' E. apply (app_inj_1 id id' r r') in E; [tauto | congruence].
Qed.

Lemma uri_form_inj t t' id id' s :
  uri_form t id s -> uri_form t' id' s -> t = t' /\ id = id'.
Proof.
  intros (nl & -> & Hl & _ & _) (nl' & E & Hl' & _ & _).
  apply app_inv_head in E.
  change (py ":" ++ ?x) with (cp ":" :: x) in E.
  apply type_name_sep_inj in E as [<- E]. split; [reflexivity|].
  apply (id_tail_inj _ _ _ _ Hl Hl' E).
Qed.

Section Forms.
Variable unicode_alnum : char -> bool.

Lemma uri_url_excl t t' id id' s :
  uri_form t id s -> url_form unicode_alnum t' id' s -> False.
Proof.
  intros (nl & -> & _) (sc & i & q & nl' & E & [-> | [-> | ->]] & _);
    discriminate E.
Qed.

Lemma word_slash : is_word unicode_alnum (cp "/") = false.
Proof. reflexivity. Qed.

Lemma url_form_inj t t' id id' s :
  url_form unicode_alnum t id s -> url_form unicode_alnum t' id' s ->
  t = t' /\ id = id'.
Proof.
  intros (sc & i & q & nl & -> & Hsc & Hi & Hl & _ & _ & _)
         (sc' & i' & q' & nl' & E & Hsc' & Hi' & Hl' & _ & _ & _).
  assert (Es : sc' = sc).
  { destruct Hsc as [-> | [-> | ->]], Hsc' as [-> | [-> | ->]];
      try reflexivity; discriminate E. }
  subst sc'. do 2 apply app_inv_head in E.
  change (py "/" ++ ?x) with (cp "/" :: x) in E.
  assert (E' : py (type_name t) ++ cp "/" :: id ++ q ++ nl
               = py (type_name t') ++ cp "/" :: id' ++ q' ++ nl').
  { destruct Hi as [-> | (w & -> & _ & Hw)], Hi' as [-> | (w' & -> & _ & Hw')].
    - cbn [app] in E. injection E as E. exact E.
    - destruct t; discriminate E.
    - destruct t'; discriminate E.
    - rewrite <- !app_assoc in E. apply app_inv_head in E.
      apply (run_sep_inj _ _ _ _ _ _ Hw Hw' word_slash) in E. tauto. }
  apply type_name_sep_inj in E' as [<- E']. split; [reflexivity|].
  apply (id_tail_inj _ _ _ _ Hl Hl' E').
Qed.

Lemma form_inj t t' id id' s :
  form unicode_alnum t id s -> form unicode_alnum t' id' s -> t = t' /\ id = id'.
Proof.
  intros [H | H] [H' | H'].
  - apply (uri_form_inj _ _ _ _ _ H H').
  - destruct (uri_url_excl _ _ _ _ _ H H').
  - destruct (uri_url_excl _ _ _ _ _ H' H).
  - apply (url_form_inj _ _ _ _ _ H H').
Qed.

End Forms.

(** ** The slots of the result *)

Lemma uri_search_Some t s m :
  re_search (uri_re t) s = Some m ->
  exists id, uri_form t id s /\ group (group_name t) m = Some id.
Proof.
  unfold uri_re. cbn [seq fold_right]. rewrite re_search_bol.
  intros H. apply exec_sound in H as (st' & Hd & Hk).
  apply (uri_den t s st') in Hd as (id & Hf & G).
  exists id. split; [exact Hf|]. injection Hk as <-. rewrite G.
  apply group_name_lookup.
Qed.

Lemma uri_search_None t s :
  (forall id, ~ uri_form t id s) -> re_search (uri_re t) s = None.
Proof.
  intros Hn. destruct (re_search (uri_re t) s) as [m|] eqn:E; [|reflexivity].
  apply uri_search_Some in E as (id & Hf & _). destruct (Hn id Hf).
Qed.

Lemma uri_search_form t id s :
  uri_form t id s ->
  exists m, re_search (uri_re t) s = Some m /\ group (group_name t) m = Some id.
Proof.
  intros Hf. destruct (uri_den_intro t id s Hf) as (st' & Hd & G).
  assert (Hs : is_Some (re_search (uri_re t) s)).
  { unfold uri_re in *. cbn [seq fold_right] in *. rewrite re_search_bol.
    apply (exec_complete _ _ _ _ st' Hd). eauto. }
  destruct Hs as [m Hm]. exists m. split; [exact Hm|].
  apply uri_search_Some in Hm as (id' & Hf' & Hg).
  destruct (uri_form_inj _ _ _ _ _ Hf Hf') as [_ ->]. exact Hg.
Qed.

Section IdStr.
Variable uw : char -> bool.

Lemma url_bol t : exists r, url_re uw t = Cat Bol r.
Proof. unfold url_re. cbn [seq fold_right]. eauto. Qed.

Lemma url_search_Some t s m :
  re_search (url_re uw t) s = Some m ->
  exists id, url_form uw t id s /\ group (group_name t) m = Some id.
Proof.
  destruct (url_bol t) as [r Er]. rewrite Er, re_search_bol, <- Er.
  intros H. apply exec_sound in H as (st' & Hd & Hk).
  apply (url_den uw t s st') in Hd as (id & Hf & G).
  exists id. split; [exact Hf|]. injection Hk as <-. rewrite G.
  apply group_name_lookup.
Qed.

Lemma url_search_None t s :
  (forall id, ~ url_form uw t id s) -> re_search (url_re uw t) s = None.
Proof.
  intros Hn. destruct (re_search (url_re uw t) s) as [m|] eqn:E; [|reflexivity].
  apply url_search_Some in E as (id & Hf & _). destruct (Hn id Hf).
Qed.

Lemma url_search_form t id s :
  url_form uw t id s ->
  exists m, re_search (url_re uw t) s = Some m
            /\ group (group_name t) m = Some id.
Proof.
  intros Hf. destruct (url_den_intro uw t id s Hf) as (st' & Hd & G).
  assert (Hs : is_Some (re_search (url_re uw t) s)).
  { destruct (url_bol t) as [r Er]. rewrite Er, re_search_bol, <- Er.
    apply (exec_complete _ _ _ _ st' Hd). eauto. }
  destruct Hs as [m Hm]. exists m. split; [exact Hm|].
  apply url_search_Some in Hm as (id' & Hf' & Hg).
  destruct (url_form_inj _ _ _ _ _ _ Hf Hf') as [_ ->]. exact Hg.
Qed.

(** A slot is filled exactly when the input has the URI form or the URL
    form of its type, and then it holds the identifier of that form. *)
Lemma id_str_Some t s id : id_str uw t s = Some id <-> form uw t id s.
Proof.
  unfold id_str, form. split.
  - destruct (re_search (uri_re t) s) as [m|] eqn:E1.
    + apply uri_search_Some in E1 as (id' & Hf & Hg). intros H. left. congruence.
    + destruct (re_search (url_re uw t) s) as [m|] eqn:E2; [|discriminate].
      apply url_search_Some in E2 as (id' & Hf & Hg). intros H. right. congruence.
  - intros [Hf | Hf].
    + destruct (uri_search_form t id s Hf) as (m & -> & Hg). exact Hg.
    + destruct (url_search_form t id s Hf) as (m & -> & Hg).
      rewrite uri_search_None; [exact Hg|].
      intros id' Hf'. apply (uri_url_excl uw _ _ _ _ _ Hf' Hf).
Qed.

Lemma id_str_None t s : id_str uw t s = None <-> forall id, ~ form uw t id s.
Proof.
  split.
  - intros E id Hf. apply id_str_Some in Hf. congruence.
  - intros Hn. destruct (id_str uw t s) as [id|] eqn:E; [|reflexivity].
    apply id_str_Some in E. destruct (Hn id E).
Qed.

(** An input of the form of [t] fills the slot of [t] and no other. *)
Lemma regex_input_form t id s :
  form uw t id s -> regex_input_for_urls uw s = only t id.
Proof.
  intros Hf. unfold regex_input_for_urls.
  assert (Ho : forall t', t' <> t -> id_str uw t' s = None).
  { intros t' Hne. apply id_str_None. intros id' Hf'.
    destruct (form_inj uw _ _ _ _ _ Hf Hf') as [? _]. congruence. }
  apply id_str_Some in Hf.
  destruct t; rewrite Hf, !Ho by discriminate; reflexivity.
Qed.

Lemma regex_input_no_form s :
  (forall t id, ~ form uw t id s) -> regex_input_for_urls uw s = no_match.
Proof.
  intros Hn. unfold regex_input_for_urls, no_match.
  rewrite !(proj2 (id_str_None _ s)) by (intros id; apply Hn). reflexivity.
Qed.

End IdStr.

(** ** What [regex_input_for_urls] accepts *)

Section Accepted.
Variable uw : char -> bool.

Lemma url_form_plain sc t id q nl :
  is_scheme sc -> length id = 22 -> forallb is_alnum id = true ->
  is_query q -> at_eol nl = true ->
  form uw t id (url sc t id ++ q ++ nl).
Proof.
  intros Hsc Hl Hid Hq Hnl. right. exists sc, [], q, nl.
  unfold url. rewrite <- !app_assoc. simpl. unfold is_intl. auto 10.
Qed.

(** C2: whatever the input string, at most one of the six slots of the
    result is not [None]. *)
Theorem at_most_one_slot s : populated (regex_input_for_urls uw s) <= 1.
Proof.
  destruct (id_str uw Track s) as [i|] eqn:E1;
    [apply id_str_Some in E1; rewrite (regex_input_form uw _ _ _ E1); simpl; lia|].
  destruct (id_str uw Album s) as [i|] eqn:E2;
    [apply id_str_Some in E2; rewrite (regex_input_form uw _ _ _ E2); simpl; lia|].
  destruct (id_str uw Playlist s) as [i|] eqn:E3;
    [apply id_str_Some in E3; rewrite (regex_input_form uw _ _ _ E3); simpl; lia|].
  destruct (id_str uw Episode s) as [i|] eqn:E4;
    [apply id_str_Some in E4; rewrite (regex_input_form uw _ _ _ E4); simpl; lia|].
  destruct (id_str uw Show s) as [i|] eqn:E5;
    [apply id_str_Some in E5; rewrite (regex_input_form uw _ _ _ E5); simpl; lia|].
  destruct (id_str uw Artist s) as [i|] eqn:E6;
    [apply id_str_Some in E6; rewrite (regex_input_form uw _ _ _ E6); simpl; lia|].
  unfold regex_input_for_urls. rewrite E1, E2, E3, E4, E5, E6. simpl. lia.
Qed.

Lemma uri_query_no_form t id q t' id' :
  length id = 22 -> ~ form uw t' id' (uri t id ++ py "?" ++ q).
Proof.
  intros Hl [(nl & E & Hl' & _ & Hnl) | (sc & i & q' & nl' & E & [-> | [-> | ->]] & _)];
    try discriminate E.
  unfold uri in E. rewrite <- !app_assoc in E. apply app_inv_head in E.
  change (py ":" ++ ?x) with (cp ":" :: x) in E.
  apply type_name_sep_inj in E as [<- E].
  apply (app_inj_1 id id') in E as [_ <-]; [|congruence].
  destruct q; discriminate Hnl.
Qed.

End Accepted.

(** C5 as stated fails: a query string other than [?si=...] leaves every
    slot [None]. *)
Lemma url_other_query_unmatched :
  regex_input_for_urls ascii_only (url (py "https://") Track id0) = only Track id0
  /\ regex_input_for_urls ascii_only (url (py "https://") Track id0 ++ py "?utm=1")
     = no_match.
Proof. split; vm_compute; reflexivity. Qed.

Section Scheme.
Variable uw : char -> bool.

Lemma form_scheme t id sc sc' r :
  is_scheme sc -> is_scheme sc' ->
  form uw t id (sc ++ py "open.spotify.com" ++ r) ->
  form uw t id (sc' ++ py "open.spotify.com" ++ r).
Proof.
  intros Hsc Hsc' [(nl & E & _) | (sc0 & i & q & nl & E & Hsc0 & H)].
  - destruct Hsc as [-> | [-> | ->]]; discriminate E.
  - assert (sc0 = sc) as ->.
    { destruct Hsc as [-> | [-> | ->]], Hsc0 as [-> | [-> | ->]];
        try reflexivity; discriminate E. }
    do 2 apply app_inv_head in E. subst r.
    right. exists sc', i, q, nl. auto.
Qed.

Lemma option_ext (a b : option str) :
  (forall x, a = Some x <-> b = Some x) -> a = b.
Proof.
  intros H. destruct a as [x|], b as [y|]; try reflexivity.
  - symmetry. apply H. reflexivity.
  - symmetry. apply H. reflexivity.
  - apply H. reflexivity.
Qed.

Lemma regex_input_scheme sc sc' r :
  is_scheme sc -> is_scheme sc' ->
  regex_input_for_urls uw (sc ++ py "open.spotify.com" ++ r)
  = regex_input_for_urls uw (sc' ++ py "open.spotify.com" ++ r).
Proof.
  intros Hsc Hsc'.
  assert (H : forall t, id_str uw t (sc ++ py "open.spotify.com" ++ r)
                        = id_str uw t (sc' ++ py "open.spotify.com" ++ r)).
  { intros t. apply option_ext. intros id. rewrite !id_str_Some.
    split; apply form_scheme; assumption. }
  unfold regex_input_for_urls. rewrite !H. reflexivity.
Qed.

(** C10: for every type and every well-formed id the URL is parsed to the
    id of its slot with [https://], with [http://] and with no scheme; and
    whatever follows [open.spotify.com], the three spellings give the same
    result. *)
Theorem scheme_optional t id :
  length id = 22 -> forallb is_alnum id = true ->
  regex_input_for_urls uw (url (py "https://") t id) = only t id
  /\ regex_input_for_urls uw (url (py "http://") t id) = only t id
  /\ regex_input_for_urls uw (url [] t id) = only t id
  /\ forall r,
       regex_input_for_urls uw (py "http://" ++ py "open.spotify.com" ++ r)
       = regex_input_for_urls uw (py "https://" ++ py "open.spotify.com" ++ r)
       /\ regex_input_for_urls uw (py "open.spotify.com" ++ r)
          = regex_input_for_urls uw (py "https://" ++ py "open.spotify.com" ++ r).
Proof.
  intros Hl Hid.
  assert (H : forall sc, is_scheme sc ->
                regex_input_for_urls uw (url sc t id) = only t id).
  { intros sc Hsc. rewrite <- (app_nil_r (url _ t id)). apply regex_input_form.
    apply (url_form_plain uw sc t id [] []); auto. left; reflexivity. }
  split; [apply H; right; right; reflexivity|].
  split; [apply H; right; left; reflexivity|].
  split; [apply H; left; reflexivity|].
  intros r. split.
  - apply regex_input_scheme; [right; left | right; right]; reflexivity.
  - apply (regex_input_scheme [] (py "https://"));
      [left | right; right]; reflexivity.
Qed.

(** C6 fails on the code: a URI whose identifier part is 22 alphanumeric
    characters and a line feed (23 characters, one of them outside
    [[0-9a-zA-Z]]) is matched, because [$] accepts the position before a
    final line feed. *)
Theorem uri_trailing_newline_matches :
  regex_input_for_urls uw (uri Track id0 ++ [LF]) = only Track id0.
Proof.
  apply regex_input_form. left. exists [LF]. unfold uri.
  rewrite <- !app_assoc. auto.
Qed.

(** Apart from that line feed, C6 holds: a malformed identifier in a URI
    yields no match. *)
Lemma malformed_uri_no_match t x :
  forallb dot x = true ->
  length x <> 22 \/ forallb is_alnum x = false ->
  regex_input_for_urls uw (uri t x) = no_match.
Proof.
  intros Hd Hbad. apply regex_input_no_form.
  intros t' id' [(nl & E & Hl' & Hid' & Hnl)
                | (sc & i & q' & nl' & E & [-> | [-> | ->]] & _)];
    try discriminate E.
  unfold uri in E. do 1 apply app_inv_head in E.
  change (py ":" ++ ?x) with (cp ":" :: x) in E.
  apply type_name_sep_inj in E as [<- E]. subst x.
  destruct nl as [|c [|? ?]]; try discriminate Hnl.
  - rewrite app_nil_r in Hbad. destruct Hbad; congruence.
  - rewrite forallb_app in Hd. apply andb_prop in Hd as [_ Hd].
    simpl in Hnl, Hd. apply N.eqb_eq in Hnl. subst c. discriminate Hd.
Qed.

End Scheme.

Section Malformed.
Variable uw : char -> bool.

(** A URL whose identifier part (the path segment behind the type, free
    of line feeds and question marks) is malformed yields no match. *)
Lemma malformed_url_no_match sc i t x q :
  is_scheme sc -> is_intl uw i ->
  q = [] \/ (exists q', q = cp "?" :: q') ->
  forallb dot x = true ->
  forallb (fun c => negb (c =? cp "?")%N) x = true ->
  length x <> 22 \/ forallb is_alnum x = false ->
  regex_input_for_urls uw
    (sc ++ py "open.spotify.com" ++ i ++ py "/" ++ py (type_name t) ++ py "/"
        ++ x ++ q)
  = no_match.
Proof.
  intros Hsc Hi Hq Hd Hqm Hbad. apply regex_input_no_form.
  intros t' id' Hf.
  destruct Hf as [(nl & E & _) | (sc0 & i0 & q0 & nl0 & E & Hsc0 & Hi0 & Hl & Ha & Hq0 & Hnl)].
  { destruct Hsc as [-> | [-> | ->]]; discriminate E. }
  assert (sc0 = sc) as ->.
  { destruct Hsc as [-> | [-> | ->]], Hsc0 as [-> | [-> | ->]];
      try reflexivity; discriminate E. }
  do 2 apply app_inv_head in E.
  change (py "/" ++ ?y) with (cp "/" :: y) in E.
  assert (E' : py (type_name t) ++ cp "/" :: x ++ q
               = py (type_name t') ++ cp "/" :: id' ++ q0 ++ nl0).
  { destruct Hi as [-> | (w & -> & _ & Hw)], Hi0 as [-> | (w' & -> & _ & Hw')].
    - cbn [app] in E. injection E as E. exact E.
    - destruct t; discriminate E.
    - destruct t'; discriminate E.
    - rewrite <- !app_assoc in E. apply app_inv_head in E.
      apply (run_sep_inj _ _ _ _ _ _ Hw Hw' (word_slash uw)) in E. tauto. }
  apply type_name_sep_inj in E' as [<- E']. clear E.
  apply app_eq_app in E' as (l & [[Ex Er] | [Ex Er]]).
  - (* the identifier part goes on behind the 22 characters *)
    destruct l as [|c a].
    { rewrite app_nil_r in Ex. subst x. destruct Hbad; congruence. }
    subst x. rewrite forallb_app in Hd, Hqm.
    apply andb_prop in Hd as [_ Hd]. apply andb_prop in Hqm as [_ Hqm].
    simpl in Hd, Hqm. apply andb_prop in Hd as [Hd _].
    apply andb_prop in Hqm as [Hqm _].
    destruct Hq0 as [-> | (v & -> & _)].
    + simpl in Er. subst nl0. destruct (a ++ q); [|discriminate Hnl].
      simpl in Hnl. unfold dot in Hd. rewrite Hnl in Hd. discriminate Hd.
    + injection Er as <- _. discriminate Hqm.
  - (* the identifier would reach into the query *)
    destruct l as [|c a].
    { rewrite app_nil_r in Ex. subst id'. destruct Hbad; congruence. }
    destruct Hq as [-> | (q' & ->)]; [discriminate Er|].
    injection Er as <- _. subst id'. rewrite forallb_app in Ha.
    apply andb_prop in Ha as [_ Ha]. discriminate Ha.
Qed.

End Malformed.

(** ** What may follow the identifier *)

Lemma chomp_snoc_lf a : chomp (a ++ [LF]) = a.
Proof.
  induction a as [|c a IH]; [reflexivity|].
  cbn [app chomp]. rewrite IH. destruct (a ++ [LF]) eqn:E; [|reflexivity].
  destruct a; discriminate E.
Qed.

Lemma chomp_dot a : forallb dot a = true -> chomp a = a.
Proof.
  induction a as [|c a IH]; [reflexivity|]. intros H.
  cbn [forallb] in H. apply andb_prop in H as [Hc Ha].
  cbn [chomp]. destruct a as [|d a].
  - unfold dot in Hc. apply negb_true_iff in Hc. rewrite Hc. reflexivity.
  - rewrite (IH Ha). reflexivity.
Qed.

Lemma chomp_eol q : exists nl, q = chomp q ++ nl /\ at_eol nl = true.
Proof.
  induction q as [|c q IH]; [exists []; split; reflexivity|].
  cbn [chomp]. destruct q as [|d q].
  - destruct (c =? LF)%N eqn:E.
    + exists [c]. split; [reflexivity | exact E].
    + exists []. split; reflexivity.
  - destruct IH as (nl & E & Hnl). exists nl. split; [|exact Hnl].
    cbn [app]. f_equal. exact E.
Qed.

Lemma si_query_is_query q : si_query q = true -> is_query q.
Proof.
  destruct q as [|a [|b [|c [|d v]]]]; try discriminate. cbn [si_query].
  intros H. repeat (apply andb_prop in H as [H ?]).
  repeat match goal with
         | E : (_ =? _)%N = true |- _ => apply N.eqb_eq in E; subst
         end.
  right. exists v. split; [reflexivity|].
  destruct v; [discriminate|]. split; [discriminate | assumption].
Qed.

Lemma is_query_si_query q : is_query q -> q = [] \/ (si_query q = true /\ forallb dot q = true).
Proof.
  intros [-> | (v & -> & Hv & Hd)]; [left; reflexivity|]. right.
  split; [|rewrite forallb_app, Hd; reflexivity].
  destruct v as [|x v]; [congruence|].
  change (py "?si=" ++ x :: v)
    with (cp "?" :: cp "s" :: cp "i" :: cp "=" :: x :: v).
  cbn [si_query]. rewrite !N.eqb_refl. exact Hd.
Qed.

(** The tails accepted are the ones of the URL forms. *)
Lemma accepted_tail_iff q :
  accepted_tail q = true
  <-> exists qq nl, q = qq ++ nl /\ is_query qq /\ at_eol nl = true.
Proof.
  unfold accepted_tail. split.
  - intros H. destruct (chomp_eol q) as (nl & E & Hnl).
    exists (chomp q), nl. split; [exact E|]. split; [|exact Hnl].
    destruct (chomp q) as [|c r]; [left; reflexivity|].
    apply si_query_is_query, H.
  - intros (qq & nl & -> & Hq & Hnl).
    assert (Hc : chomp (qq ++ nl) = qq).
    { destruct nl as [|c [|? ?]]; try discriminate Hnl.
      - rewrite app_nil_r. destruct (is_query_si_query qq Hq) as [-> | [_ Hd]];
          [reflexivity | apply chomp_dot, Hd].
      - simpl in Hnl. apply N.eqb_eq in Hnl. subst c. apply chomp_snoc_lf. }
    rewrite Hc. destruct (is_query_si_query qq Hq) as [-> | [Hs _]]; [reflexivity|].
    destruct qq; [reflexivity | exact Hs].
Qed.

Section Tails.
Variable uw : char -> bool.

(** C5, as the code has it: for every type, every well-formed id, every
    scheme and every locale segment, the URL followed by a tail parses to
    the id of its slot exactly when the tail is empty or is [?si=] and a
    non-empty value free of line feeds, in both cases possibly followed by
    one final line feed; with any other tail, so with any other query,
    every slot is [None].  The URI followed by anything but one final
    line feed, so by any query, is not matched. *)
Theorem url_si_query t id sc i q :
  length id = 22 -> forallb is_alnum id = true ->
  is_scheme sc -> is_intl uw i ->
  regex_input_for_urls uw
    (sc ++ py "open.spotify.com" ++ i ++ py "/" ++ py (type_name t) ++ py "/"
        ++ id ++ q)
  = (if accepted_tail q then only t id else no_match)
  /\ regex_input_for_urls uw (uri t id ++ q)
     = (if at_eol q then only t id else no_match).
Proof.
  intros Hl Ha Hsc Hi. split.
  - destruct (accepted_tail q) eqn:Hq.
    + apply accepted_tail_iff in Hq as (qq & nl & -> & Hqq & Hnl).
      apply regex_input_form. right. exists sc, i, qq, nl. auto 10.
    + apply regex_input_no_form. intros t' id' Hf.
      destruct Hf as [(nl & E & _)
                     | (sc0 & i0 & q0 & nl0 & E & Hsc0 & Hi0 & Hl' & _ & Hq0 & Hnl)].
      { destruct Hsc as [-> | [-> | ->]]; discriminate E. }
      assert (sc0 = sc) as ->.
      { destruct Hsc as [-> | [-> | ->]], Hsc0 as [-> | [-> | ->]];
          try reflexivity; discriminate E. }
      do 2 apply app_inv_head in E.
      change (py "/" ++ ?y) with (cp "/" :: y) in E.
      assert (E' : py (type_name t) ++ cp "/" :: id ++ q
                   = py (type_name t') ++ cp "/" :: id' ++ q0 ++ nl0).
      { destruct Hi as [-> | (w & -> & _ & Hw)], Hi0 as [-> | (w' & -> & _ & Hw')].
        - cbn [app] in E. injection E as E. exact E.
        - destruct t; discriminate E.
        - destruct t'; discriminate E.
        - rewrite <- !app_assoc in E. apply app_inv_head in E.
          apply (run_sep_inj _ _ _ _ _ _ Hw Hw' (word_slash uw)) in E. tauto. }
      apply type_name_sep_inj in E' as [<- E'].
      apply (app_inj_1 id id') in E' as [_ ->]; [|congruence].
      assert (Hacc : accepted_tail (q0 ++ nl0) = true)
        by (apply accepted_tail_iff; exists q0, nl0; auto).
      congruence.
  - destruct (at_eol q) eqn:Hq.
    + apply regex_input_form. left. exists q. unfold uri.
      rewrite <- !app_assoc. auto.
    + apply regex_input_no_form. intros t' id'
        [(nl & E & Hl' & _ & Hnl) | (sc0 & i0 & q0 & nl0 & E & [-> | [-> | ->]] & _)];
        try discriminate E.
      unfold uri in E. rewrite <- !app_assoc in E. apply app_inv_head in E.
      change (py ":" ++ ?x) with (cp ":" :: x) in E.
      apply type_name_sep_inj in E as [<- E].
      apply (app_inj_1 id id') in E as [_ ->]; [|congruence].
      congruence.
Qed.

End Tails.

Lemma url_si_query_witness :
  regex_input_for_urls ascii_only
    (py "http://" ++ py "open.spotify.com" ++ py "/intl-de" ++ py "/"
       ++ py (type_name Album) ++ py "/" ++ id0 ++ py "?si=xyz")
  = only Album id0
  /\ regex_input_for_urls ascii_only (uri Album id0 ++ py "?si=xyz") = no_match.
Proof.
  apply (url_si_query ascii_only Album id0 (py "http://") (py "/intl-de")
           (py "?si=xyz")).
  - reflexivity.
  - reflexivity.
  - right; left; reflexivity.
  - right. exists (py "de"). split; [reflexivity|]. split; [discriminate | reflexivity].
Defined.

Lemma scheme_optional_witness :
  regex_input_for_urls ascii_only (url (py "https://") Show id0) = only Show id0
  /\ regex_input_for_urls ascii_only (url (py "http://") Show id0) = only Show id0
  /\ regex_input_for_urls ascii_only (url [] Show id0) = only Show id0
  /\ forall r,
       regex_input_for_urls ascii_only (py "http://" ++ py "open.spotify.com" ++ r)
       = regex_input_for_urls ascii_only (py "https://" ++ py "open.spotify.com" ++ r)
       /\ regex_input_for_urls ascii_only (py "open.spotify.com" ++ r)
          = regex_input_for_urls ascii_only (py "https://" ++ py "open.spotify.com" ++ r).
Proof.
  apply (scheme_optional ascii_only Show id0); reflexivity.
Defined.

(** ** [fix_filename] *)

Lemma fix_match_tail n x tl :
  match_at true fix_re (S n) (x :: tl)
  = if forbidden x || (space_or_period x && at_eol tl) then found (S (S n)) else None.
Proof.
  lazy beta iota zeta delta [match_at fix_re seq fold_right exec orelse rest pos
                             advance groups Nat.eqb found].
  destruct (forbidden x); [reflexivity|].
  destruct (space_or_period x); [|reflexivity].
  destruct (at_eol tl); reflexivity.
Qed.

Lemma sub_tail n l : sub_from true fix_re (py "_") (S n) l 0 = tail_pass l.
Proof.
  revert n. induction l as [|x tl IH]; intros n.
  - reflexivity.
  - cbn [sub_from tail_pass]. rewrite fix_match_tail. unfold scrub.
    destruct (forbidden x || space_or_period x && at_eol tl).
    + unfold found. cbn [m_end]. replace (S (S n) - S n) with 1 by lia.
      rewrite IH. reflexivity.
    + rewrite IH. reflexivity.
Qed.

Lemma sub_skip n l k :
  sub_from true fix_re (py "_") (S n) l k = tail_pass (skipn k l).
Proof.
  revert n l. induction k as [|k IH]; intros n l.
  - apply sub_tail.
  - destruct l as [|x tl]; [reflexivity|]. cbn [sub_from skipn]. apply IH.
Qed.

Lemma fix_match_head x tl :
  match_at true fix_re 0 (x :: tl)
  = orelse (if forbidden x then found 1 else None)
     (orelse (reserved_match (x :: tl))
       (orelse (if is_space x then found 1 else None)
               (if space_or_period x && at_eol tl then found 1 else None))).
Proof.
  unfold reserved_match, reserved_alt, match_at, fix_re.
  cbn [exec]. cbn [seq fold_right exec rest pos Nat.eqb advance groups].
  unfold found.
  destruct (space_or_period x); reflexivity. 
Qed.

Lemma den_cls ic p st st' :
  den ic (Cls p) st st' <-> exists x, p x = true /\ eats st [x] st'.
Proof.
  simpl. split.
  - intros (x & tl & E & Hp & ->). exists x. split; [exact Hp|].
    apply eats_advance, E.
  - intros (x & Hp & (E & P & G)). exists x, (rest st'). repeat split; auto.
    destruct st, st'. unfold advance. simpl in *. subst. f_equal. lia.
Qed.

Lemma den_text_ci name st st' :
  den true (text name) st st' <-> exists w, ci name w /\ eats st w st'.
Proof. apply den_lits. Qed.

Lemma den_text_cls name p st st' :
  den true (seq [text name; Cls p]) st st' <->
  exists w3 d, ci name w3 /\ p d = true /\ eats st (w3 ++ [d]) st'.
Proof.
  cbn [seq fold_right]. split.
  - intros (m1 & H1 & m2 & H2 & ->). apply den_text_ci in H1 as (w & Hw & H1).
    apply den_cls in H2 as (d & Hd & H2). exists w, d. repeat split; auto;
      apply (eats_app _ _ _ _ _ H1 H2).
  - intros (w & d & Hw & Hd & (E & P & G)). rewrite <- app_assoc in E.
    rewrite length_app in P. simpl in P.
    exists (MState (pos st + length w) ([d] ++ rest st') (groups st)). split.
    + apply den_text_ci. exists w. split; [exact Hw|]. unfold eats. auto.
    + exists st'. split; [|reflexivity]. apply den_cls. exists d.
      split; [exact Hd|]. unfold eats. simpl. repeat split; [lia | exact G].
Qed.

Lemma den_reserved st st' :
  den true reserved_re st st' <-> exists w, reserved_word w /\ eats st w st'.
Proof.
  unfold reserved_re, reserved_word.
  change (den true (Alt ?a (Alt ?b (Alt ?c (Alt ?d (Alt ?e ?f))))) st st')
    with (den true a st st' \/ den true b st st' \/ den true c st st'
          \/ den true d st st' \/ den true e st st' \/ den true f st st').
  rewrite !den_text_ci, !den_text_cls. split.
  - intros [(w & ? & ?) | [(w & d & ? & ? & ?) | [(w & ? & ?)
           | [(w & d & ? & ? & ?) | [(w & ? & ?) | (w & ? & ?)]]]]];
      eauto 12.
  - intros (w & [? | [(w3 & d & -> & ? & ?) | [? | [(w3 & d & -> & ? & ?)
                | [? | ?]]]]] & ?); eauto 12.
Qed.

Lemma not_ahead_period st :
  (forall st1, ~ den true (Cls not_period) st st1) <-> ends_stem (rest st).
Proof.
  unfold ends_stem. split.
  - intros Hn. destruct (rest st) as [|x tl] eqn:E; [left; reflexivity|].
    right. exists tl. f_equal.
    destruct (not_period x) eqn:Hp.
    + destruct (Hn (advance st tl)). exists x, tl. auto.
    + unfold not_period in Hp. apply negb_false_iff, N.eqb_eq in Hp. exact Hp.
  - intros [E | (tl & E)] st1 (x & tl' & E' & Hp & _); rewrite E in E'.
    + discriminate.
    + injection E' as <- _. discriminate Hp.
Qed.

Lemma reserved_alt_den l st' :
  den true reserved_alt (MState 0 l []) st' <->
  exists w, reserved_word w /\ eats (MState 0 l []) w st' /\ ends_stem (rest st').
Proof.
  unfold reserved_alt. cbn [seq fold_right]. split.
  - intros (m1 & [_ ->] & m2 & H2 & m3 & [Hn ->] & ->).
    apply den_reserved in H2 as (w & Hw & H2). apply not_ahead_period in Hn.
    eauto.
  - intros (w & Hw & He & Hs).
    exists (MState 0 l []). split; [split; reflexivity|].
    exists st'. split; [apply den_reserved; eauto|].
    exists st'. split; [|reflexivity]. split; [|reflexivity].
    apply not_ahead_period, Hs.
Qed.

(** The reserved-name alternative matches exactly a reserved word that is
    the whole stem of the name. *)
Lemma reserved_match_Some l m :
  reserved_match l = Some m ->
  exists w tl, l = w ++ tl /\ reserved_word w /\ ends_stem tl
               /\ m = Match (length w) [].
Proof.
  unfold reserved_match, match_at. intros H.
  apply exec_sound in H as (st' & Hd & Hk).
  apply reserved_alt_den in Hd as (w & Hw & (E & P & G) & Hs).
  simpl in E, P, G. exists w, (rest st'). rewrite P, G in Hk. 
  repeat split; auto. congruence.
Qed.

Lemma reserved_match_is_Some w tl :
  reserved_word w -> ends_stem tl -> is_Some (reserved_match (w ++ tl)).
Proof.
  intros Hw Hs. unfold reserved_match, match_at.
  apply (exec_complete _ _ _ _ (MState (length w) tl [])); [|eauto].
  apply reserved_alt_den. exists w. unfold eats. simpl. auto.
Qed.

(** Boolean tests on code points, as linear arithmetic. *)
Ltac eval_cp :=
  repeat match goal with
         | |- context [cp ?a] =>
             let v := eval vm_compute in (cp a) in change (cp a) with v
         | H : context [cp ?a] |- _ =>
             let v := eval vm_compute in (cp a) in change (cp a) with v in H
         end.

Ltac chars :=
  cbv beta delta [is_alnum is_digit is_lower is_upper forbidden is_space
    space_or_period not_period digit19 dot in_range underscore LF] in *;
  eval_cp;
  repeat match goal with
         | |- _ = false => apply not_true_is_false; intro
         | H : _ = false |- _ => apply not_true_iff_false in H
         end;
  rewrite ?orb_true_iff, ?andb_true_iff, ?negb_true_iff, ?N.leb_le,
    ?N.eqb_eq, ?N.eqb_neq in *;
  try lia.

Lemma alnum_not_forbidden x : is_alnum x = true -> forbidden x = false.
Proof. intros H. chars. Qed.

Lemma alnum_not_space_or_period x : is_alnum x = true -> space_or_period x = false.
Proof. intros H. chars. Qed.

Lemma alnum_not_space x : is_alnum x = true -> is_space x = false.
Proof. intros H. chars. Qed.

Lemma alnum_not_underscore x : is_alnum x = true -> x <> underscore.
Proof. intros H. chars. Qed.

Lemma underscore_plain :
  forbidden underscore = false /\ is_space underscore = false
  /\ space_or_period underscore = false /\ is_alnum underscore = false.
Proof. repeat split; reflexivity. Qed.

Lemma lit_eq_alnum c x :
  is_upper c = true -> lit_eq true c x = true -> is_alnum x = true.
Proof.
  intros Hc H. unfold lit_eq, swapcase in H. rewrite Hc in H. simpl in H.
  apply orb_prop in H as [H | H]; apply N.eqb_eq in H; subst x; chars.
Qed.

Lemma ci_alnum name w :
  forallb is_upper (py name) = true -> ci name w ->
  forallb is_alnum w = true /\ length w = length (py name).
Proof.
  unfold ci. generalize (py name) as l. intros l Hl H.
  induction H as [|c x l w Hc _ IH]; [auto|].
  simpl in *. apply andb_prop in Hl as [Hu Hl].
  rewrite (lit_eq_alnum c x Hu Hc). destruct (IH Hl) as [-> ->]. auto.
Qed.

Lemma digit19_alnum d : digit19 d = true -> is_alnum d = true.
Proof. intros H. chars. Qed.

(** A reserved word is three or four ASCII letters and digits. *)
Lemma reserved_word_alnum w :
  reserved_word w -> forallb is_alnum w = true /\ exists x w', w = x :: w'.
Proof.
  assert (A : forall name w, forallb is_upper (py name) = true ->
                length (py name) = 3 -> ci name w ->
                forallb is_alnum w = true /\ exists x w', w = x :: w').
  { intros name v Hu Hl3 H. destruct (ci_alnum name v Hu H) as [Ha Hl].
    split; [exact Ha|]. destruct v; [rewrite Hl3 in Hl; discriminate | eauto]. }
  intros [H | [(w3 & d & -> & H & Hd) | [H | [(w3 & d & -> & H & Hd) | [H | H]]]]];
    try (refine (A _ _ _ _ H); reflexivity).
  - pose proof (fun hu hl => A _ _ hu hl H) as A'.
    destruct (A' eq_refl eq_refl) as [Ha (x & w' & ->)].
    rewrite forallb_app, Ha. simpl. rewrite (digit19_alnum d Hd). eauto.
  - pose proof (fun hu hl => A _ _ hu hl H) as A'.
    destruct (A' eq_refl eq_refl) as [Ha (x & w' & ->)].
    rewrite forallb_app, Ha. simpl. rewrite (digit19_alnum d Hd). eauto.
Qed.

(** [fix_filename] on a non-empty name, by the alternative that matches at
    its first character. *)
(** The pattern consumes at least one character wherever it matches, as
    [sub_from] expects. *)
Lemma fix_re_consumes n l m : match_at true fix_re n l = Some m -> n < m_end m.
Proof.
  destruct l as [|x tl]; [destruct n; discriminate|].
  destruct n as [|n].
  - rewrite fix_match_head. unfold found.
    destruct (forbidden x); cbn [orelse]; [intros [= <-]; simpl; lia|].
    destruct (reserved_match (x :: tl)) as [m'|] eqn:E; cbn [orelse].
    + intros [= <-].
      apply reserved_match_Some in E as (w & tl' & _ & Hw & _ & ->).
      apply reserved_word_alnum in Hw as (_ & y & w' & ->). simpl. lia.
    + destruct (is_space x); cbn [orelse]; [intros [= <-]; simpl; lia|].
      destruct (space_or_period x && at_eol tl); [|discriminate].
      intros [= <-]. simpl. lia.
  - rewrite fix_match_tail. unfold found.
    destruct (forbidden x || space_or_period x && at_eol tl); [|discriminate].
    intros [= <-]. simpl. lia.
Qed.

Lemma fix_filename_nil : fix_filename [] = [].
Proof. reflexivity. Qed.

Lemma fix_filename_cons x tl :
  fix_filename (x :: tl) =
  if forbidden x then underscore :: tail_pass tl
  else match reserved_match (x :: tl) with
       | Some m => underscore :: tail_pass (skipn (m_end m - 1) tl)
       | None =>
           (if is_space x || (space_or_period x && at_eol tl)
            then underscore else x) :: tail_pass tl
       end.
Proof.
  unfold fix_filename, re_sub. cbn [sub_from]. rewrite fix_match_head.
  destruct (forbidden x); cbn [orelse found m_end Nat.sub].
  { rewrite sub_tail. reflexivity. }
  destruct (reserved_match (x :: tl)) as [m|] eqn:E; cbn [orelse].
  { apply reserved_match_Some in E as (w & tl' & E & Hw & _ & ->).
    apply reserved_word_alnum in Hw as (_ & y & w' & ->).
    cbn [m_end length Nat.sub]. rewrite sub_skip, Nat.sub_0_r. reflexivity. }
  destruct (is_space x); cbn [orelse found m_end Nat.sub orb].
  { rewrite sub_tail. reflexivity. }
  destruct (space_or_period x && at_eol tl); cbn [orelse found m_end Nat.sub].
  { rewrite sub_tail. reflexivity. }
  rewrite sub_tail. reflexivity.
Qed.

Lemma scrub_cases x tl :
  scrub x tl = underscore
  \/ (scrub x tl = x /\ forbidden x = false
      /\ space_or_period x && at_eol tl = false).
Proof.
  unfold scrub. destruct (forbidden x); [left; reflexivity|].
  destruct (space_or_period x && at_eol tl); [left | right]; auto.
Qed.

Lemma scrub_not_forbidden x tl : forbidden (scrub x tl) = false.
Proof.
  destruct (scrub_cases x tl) as [-> | (-> & H & _)]; [reflexivity | exact H].
Qed.

(** The output holds no line feed, so [$] can only match at its end. *)
Lemma at_eol_tail_pass l : at_eol (tail_pass l) = true -> l = [].
Proof.
  destruct l as [|x [|y tl]]; [reflexivity | | discriminate].
  simpl. intros H. pose proof (scrub_not_forbidden x []) as Hf.
  apply N.eqb_eq in H. rewrite H in Hf. discriminate Hf.
Qed.

Lemma tail_pass_idem l : tail_pass (tail_pass l) = tail_pass l.
Proof.
  induction l as [|x tl IH]; [reflexivity|]. simpl. rewrite IH. f_equal.
  destruct (scrub_cases x tl) as [-> | (-> & Hf & Hs)]; [reflexivity|].
  unfold scrub. rewrite Hf. simpl.
  destruct (space_or_period x) eqn:Hx; [|reflexivity]. simpl in *.
  destruct (at_eol (tail_pass tl)) eqn:He; [|reflexivity].
  apply at_eol_tail_pass in He. subst tl. discriminate Hs.
Qed.

(** Letters and digits pass unchanged, so a reserved word at the start of
    the output was already in the input. *)
Lemma tail_pass_alnum_prefix w : forall l tl2,
  forallb is_alnum w = true -> tail_pass l = w ++ tl2 ->
  exists tl1, l = w ++ tl1 /\ tl2 = tail_pass tl1.
Proof.
  induction w as [|y w IH]; intros l tl2 Hw E; simpl in *.
  - exists l. auto.
  - apply andb_prop in Hw as [Hy Hw].
    destruct l as [|x l]; [discriminate|]. simpl in E. injection E as Ex E.
    destruct (IH _ _ Hw E) as (tl1 & -> & ->). exists tl1. split; [|reflexivity].
    f_equal. destruct (scrub_cases x (w ++ tl1)) as [Hu | (Hx & _)].
    + rewrite Hu in Ex. subst y. discriminate Hy.
    + rewrite Hx in Ex. exact Ex.
Qed.

Lemma ends_stem_tail_pass tl : ends_stem (tail_pass tl) -> ends_stem tl.
Proof.
  intros [E | (tl' & E)].
  - left. destruct tl; [reflexivity | discriminate].
  - right. destruct tl as [|x tl]; [discriminate|]. simpl in E.
    injection E as Ex _. exists tl. f_equal.
    destruct (scrub_cases x tl) as [Hu | (Hx & _)];
      [|rewrite Hx in Ex; exact Ex].
    rewrite Hu in Ex. discriminate Ex.
Qed.

Lemma reserved_match_underscore tl : reserved_match (underscore :: tl) = None.
Proof.
  destruct (reserved_match (underscore :: tl)) as [m|] eqn:E; [|reflexivity].
  apply reserved_match_Some in E as (w & tl' & E & Hw & _).
  apply reserved_word_alnum in Hw as (Ha & y & w' & ->).
  simpl in *. injection E as <- _. discriminate Ha.
Qed.

Lemma reserved_match_not_alnum x tl :
  is_alnum x = false -> reserved_match (x :: tl) = None.
Proof.
  intros Hx. destruct (reserved_match (x :: tl)) as [m|] eqn:E; [|reflexivity].
  apply reserved_match_Some in E as (w & tl' & E & Hw & _).
  apply reserved_word_alnum in Hw as (Ha & y & w' & ->).
  simpl in *. injection E as <- _. rewrite Hx in Ha. discriminate Ha.
Qed.

Lemma fix_filename_underscore l :
  fix_filename (underscore :: tail_pass l) = underscore :: tail_pass l.
Proof.
  rewrite fix_filename_cons, reserved_match_underscore, tail_pass_idem.
  reflexivity.
Qed.

Lemma reserved_match_tail_pass x tl :
  reserved_match (x :: tl) = None -> reserved_match (x :: tail_pass tl) = None.
Proof.
  intros Hn. destruct (reserved_match (x :: tail_pass tl)) as [m|] eqn:E;
    [|reflexivity].
  apply reserved_match_Some in E as (w & tl2 & E & Hw & Hs & _).
  destruct (reserved_word_alnum w Hw) as (Ha & y & w' & ->).
  simpl in E, Ha. injection E as <- E. apply andb_prop in Ha as [Hx Ha].
  destruct (tail_pass_alnum_prefix _ _ _ Ha E) as (tl1 & -> & ->).
  apply ends_stem_tail_pass in Hs.
  destruct (reserved_match_is_Some (x :: w') tl1 Hw Hs) as [m' Hm'].
  simpl in Hm'. congruence.
Qed.

(** C3: sanitizing the output of [fix_filename] again changes nothing, for
    every input string. *)
Theorem fix_filename_idempotent s :
  fix_filename (fix_filename s) = fix_filename s.
Proof.
  destruct s as [|x tl]; [reflexivity|].
  rewrite (fix_filename_cons x tl).
  destruct (forbidden x) eqn:Hf; [apply fix_filename_underscore|].
  destruct (reserved_match (x :: tl)) as [m|] eqn:Hr;
    [apply fix_filename_underscore|].
  destruct (is_space x || space_or_period x && at_eol tl) eqn:Hb;
    [apply fix_filename_underscore|].
  apply orb_false_elim in Hb as [Hsp Hb].
  rewrite fix_filename_cons, Hf, (reserved_match_tail_pass _ _ Hr), Hsp,
    tail_pass_idem.
  simpl. destruct (space_or_period x) eqn:Hx; [|reflexivity]. simpl in *.
  destruct (at_eol (tail_pass tl)) eqn:He; [|reflexivity].
  apply at_eol_tail_pass in He. subst tl. discriminate Hb.
Qed.

(** Behind the first character, and short of a final line feed, only the
    last character is subject to the boundary rule. *)
Lemma tail_pass_boundary l d :
  space_or_period d = true -> d <> LF ->
  tail_pass (l ++ [d])
  = map (fun x => if forbidden x then underscore else x) l ++ [underscore].
Proof.
  intros Hd Hlf. induction l as [|x tl IH]; simpl.
  - unfold scrub. rewrite Hd. simpl. rewrite orb_true_r. reflexivity.
  - rewrite IH. f_equal. unfold scrub.
    replace (at_eol (tl ++ [d])) with false; [rewrite andb_false_r, orb_false_r; reflexivity|].
    destruct tl as [|y [|z tl]]; simpl.
    + symmetry. apply N.eqb_neq, Hlf.
    + reflexivity.
    + reflexivity.
Qed.

Lemma space_not_alnum c : is_space c = true -> is_alnum c = false.
Proof.
  intros H. destruct (is_alnum c) eqn:E; [|reflexivity].
  apply alnum_not_space in E. congruence.
Qed.

(** C4 as stated fails: the runs of two spaces of the docstring's example
    are not collapsed into one [_]. *)
Lemma fix_filename_keeps_runs :
  fix_filename (py "  COM1  ") = py "_ COM1 _"
  /\ fix_filename (py "  COM1  ") <> py "_COM1_"
  /\ fix_filename (py "a. .") = py "a. _".
Proof.
  split; [|split]; [vm_compute; reflexivity | | vm_compute; reflexivity].
  vm_compute. discriminate.
Qed.

(** ** [fmt_seconds] *)

Lemma zfill_noop width s : width <= length s -> zfill width s = s.
Proof.
  intros H. unfold zfill. replace (width - length s) with 0 by lia. simpl.
  destruct s as [|c tl]; [reflexivity|]. destruct (is_sign c); reflexivity.
Qed.

Lemma int_str_nonempty n : 1 <= length (int_str n).
Proof.
  unfold int_str, py. rewrite length_map.
  destruct (Z.to_int n) as [d|d]; destruct d; simpl; lia.
Qed.

(** C1, as the code has it: with zero hours, zero minutes and [s] nonzero
    seconds the result is the decimal digits of [s] and the suffix [s],
    unpadded: the suffix is appended before [zfill(2)], which then has
    nothing to pad.  The four examples, with [5s] for 5 seconds. *)
Theorem fmt_seconds_only_seconds (secs : Q) (s : Z) :
  hms (Qfloor secs) = (0, 0, s)%Z -> s <> 0%Z ->
  fmt_seconds secs = int_str s ++ py "s"
  /\ fmt_seconds 0 = py "0s"
  /\ fmt_seconds 5 = py "5s"
  /\ fmt_seconds 65 = py "01:05"
  /\ fmt_seconds 3661 = py "01:01:01".
Proof.
  intros H Hs. split; [|repeat split; vm_compute; reflexivity].
  unfold fmt_seconds. rewrite H.
  apply Z.eqb_neq in Hs. rewrite Hs. simpl.
  apply zfill_noop. rewrite length_app. pose proof (int_str_nonempty s).
  simpl. lia.
Qed.

Lemma fmt_seconds_only_seconds_witness :
  fmt_seconds 42 = int_str 42 ++ py "s"
  /\ fmt_seconds 0 = py "0s"
  /\ fmt_seconds 5 = py "5s"
  /\ fmt_seconds 65 = py "01:05"
  /\ fmt_seconds 3661 = py "01:01:01".
Proof.
  apply (fmt_seconds_only_seconds 42 42).
  - reflexivity.
  - discriminate.
Defined.

(** C1 as stated fails: 5 seconds are rendered [5s], not [05s]. *)
Lemma fmt_seconds_five_unpadded :
  fmt_seconds 5 = py "5s" /\ fmt_seconds 5 <> py "05s".
Proof. split; [vm_compute; reflexivity | vm_compute; discriminate]. Qed.

(** ** Reading lines back *)

Lemma universal_newlines_app_lf_aux n : forall a b,
  length a <= n ->
  universal_newlines ((a ++ [LF]) ++ b)
  = universal_newlines (a ++ [LF]) ++ universal_newlines b
  /\ exists u, universal_newlines (a ++ [LF]) = u ++ [LF].
Proof.
  induction n as [|n IH]; intros a b Hn.
  - destruct a; [|simpl in Hn; lia]. simpl. split; [reflexivity|].
    exists []. reflexivity.
  - destruct a as [|c a]; [simpl; split; [reflexivity | exists []; reflexivity]|].
    simpl in Hn. cbn [app universal_newlines].
    destruct (c =? CR)%N.
    + destruct a as [|c2 a]; cbn [app].
      * simpl. split; [reflexivity | exists []; reflexivity].
      * destruct (c2 =? LF)%N eqn:E2.
        -- simpl in Hn. destruct (IH a b) as [E (u & Eu)]; [lia|].
           rewrite E, Eu. split; [reflexivity | exists (LF :: u); reflexivity].
        -- destruct (IH (c2 :: a) b) as [E (u & Eu)]; [simpl in *; lia|].
           cbn [app] in E, Eu. rewrite E, Eu.
           split; [reflexivity | exists (LF :: u); reflexivity].
    + destruct (IH a b) as [E (u & Eu)]; [lia|].
      rewrite E, Eu. split; [reflexivity | exists (c :: u); reflexivity].
Qed.

Lemma universal_newlines_app_lf a b :
  universal_newlines ((a ++ [LF]) ++ b)
  = universal_newlines (a ++ [LF]) ++ universal_newlines b.
Proof. apply (universal_newlines_app_lf_aux (length a) a b). lia. Qed.

Lemma universal_newlines_ends_lf a :
  exists u, universal_newlines (a ++ [LF]) = u ++ [LF].
Proof. apply (universal_newlines_app_lf_aux (length a) a []). lia. Qed.

Lemma split_lines_app_lf u v : forall cur,
  split_lines cur ((u ++ [LF]) ++ v)
  = split_lines cur (u ++ [LF]) ++ split_lines [] v.
Proof.
  induction u as [|c u IH]; intros cur; simpl.
  - reflexivity.
  - destruct (c =? LF)%N; [rewrite IH; reflexivity | apply IH].
Qed.

Lemma readlines_app a b :
  terminated a -> readlines (a ++ b) = readlines a ++ readlines b.
Proof.
  intros [-> | (a' & ->)]; [reflexivity|]. unfold readlines.
  rewrite universal_newlines_app_lf.
  destruct (universal_newlines_ends_lf a') as (u & ->).
  apply split_lines_app_lf.
Qed.

Lemma ids_of_app a b : terminated a -> ids_of (a ++ b) = ids_of a ++ ids_of b.
Proof.
  intros H. unfold ids_of. rewrite (readlines_app a b H). apply map_app.
Qed.

Lemma universal_newlines_one_line w x :
  one_line w = true -> universal_newlines (w ++ x) = w ++ universal_newlines x.
Proof.
  induction w as [|c w IH]; [reflexivity|]. simpl. intros H.
  apply andb_prop in H as [Hc Hw]. apply andb_prop in Hc as [_ Hc].
  apply negb_true_iff in Hc. rewrite Hc, (IH Hw). reflexivity.
Qed.

Lemma split_lines_one_line w x : forall cur,
  one_line w = true -> split_lines cur (w ++ x) = split_lines (cur ++ w) x.
Proof.
  induction w as [|c w IH]; intros cur H; simpl.
  - rewrite app_nil_r. reflexivity.
  - simpl in H. apply andb_prop in H as [Hc Hw]. apply andb_prop in Hc as [Hc _].
    apply negb_true_iff in Hc. rewrite Hc, (IH _ Hw), <- app_assoc. reflexivity.
Qed.

(** The first line read from a text that ends with a line feed. *)
Lemma split_lines_first u : forall cur,
  exists x more, split_lines cur (u ++ [LF]) = (cur ++ x ++ [LF]) :: more
                 /\ (forallb (fun c => negb (c =? LF)%N) u = true
                     -> x = u /\ more = []).
Proof.
  induction u as [|c u IH]; intros cur; simpl.
  - exists [], []. auto.
  - destruct (c =? LF)%N eqn:E; simpl.
    + apply N.eqb_eq in E. subst c.
      exists [], (split_lines [] (u ++ [LF])). split; [reflexivity | discriminate].
    + destruct (IH (cur ++ [c])) as (x & more & -> & Hx).
      exists (c :: x), more. rewrite <- app_assoc. split; [reflexivity|].
      intros Hu. destruct (Hx Hu) as [-> ->]. auto.
Qed.

Lemma rstrip_snoc s c :
  rstrip (s ++ [c]) = if is_space c then rstrip s else s ++ [c].
Proof.
  unfold rstrip. rewrite rev_app_distr. simpl.
  destruct (is_space c); [reflexivity|]. simpl. rewrite rev_involutive. reflexivity.
Qed.

Lemma clean_id_snoc id : clean_id id -> exists i c, id = i ++ [c] /\ is_space c = false.
Proof.
  intros [Hne Hid]. destruct (exists_last Hne) as (i & c & ->).
  exists i, c. split; [reflexivity|]. rewrite forallb_app in Hid.
  apply andb_prop in Hid as [_ Hc]. simpl in Hc. rewrite andb_true_r in Hc.
  apply negb_true_iff, Hc.
Qed.

(** Stripping the line on the right never reaches into the identifier. *)
Lemma rstrip_after_id id y :
  clean_id id ->
  exists z, rstrip (id ++ TAB :: y) = id ++ z /\ (z = [] \/ exists z', z = TAB :: z').
Proof.
  intros Hid. induction y as [|c y IH] using rev_ind.
  - exists []. split; [|left; reflexivity].
    rewrite rstrip_snoc. simpl.
    destruct (clean_id_snoc id Hid) as (i & c & -> & Hc).
    rewrite rstrip_snoc, Hc, app_nil_r. reflexivity.
  - change (id ++ TAB :: y ++ [c]) with (id ++ (TAB :: y) ++ [c]).
    rewrite app_assoc, rstrip_snoc. destruct (is_space c); [exact IH|].
    exists (TAB :: y ++ [c]). split; [|right; eauto].
    rewrite <- app_assoc. reflexivity.
Qed.

Lemma lstrip_clean id y : clean_id id -> lstrip (id ++ y) = id ++ y.
Proof.
  intros [Hne Hid]. destruct id as [|c id]; [congruence|]. simpl in *.
  apply andb_prop in Hid as [Hc _]. apply negb_true_iff in Hc. rewrite Hc.
  reflexivity.
Qed.

Lemma first_field_id id z :
  forallb (fun c => negb (is_space c)) id = true ->
  z = [] \/ (exists z', z = TAB :: z') ->
  first_field TAB (id ++ z) = id.
Proof.
  intros Hid Hz. induction id as [|c id IH]; simpl in *.
  - destruct Hz as [-> | (z' & ->)]; reflexivity.
  - apply andb_prop in Hid as [Hc Hid]. rewrite (IH Hid).
    destruct (c =? TAB)%N eqn:E; [|reflexivity].
    apply N.eqb_eq in E. subst c. discriminate Hc.
Qed.

(** The identifier is the first field of the line it was written on. *)
Lemma first_field_line id y :
  clean_id id -> first_field TAB (strip (id ++ TAB :: y)) = id.
Proof.
  intros Hid. unfold strip. rewrite (lstrip_clean id _ Hid).
  destruct (rstrip_after_id id y Hid) as (z & -> & Hz).
  apply first_field_id; [apply Hid | exact Hz].
Qed.

Lemma clean_id_one_line id : clean_id id -> one_line id = true.
Proof.
  intros [_ Hid]. unfold one_line. rewrite forallb_forall in *.
  intros c Hc. specialize (Hid c Hc). clear Hc.
  destruct (c =? LF)%N eqn:E1; [apply N.eqb_eq in E1; subst c; discriminate Hid|].
  destruct (c =? CR)%N eqn:E2; [apply N.eqb_eq in E2; subst c; discriminate Hid|].
  reflexivity.
Qed.

Lemma one_line_no_lf s :
  one_line s = true -> forallb (fun c => negb (c =? LF)%N) s = true.
Proof.
  unfold one_line. rewrite !forallb_forall. intros H c Hc.
  specialize (H c Hc). apply andb_prop in H as [H _]. exact H.
Qed.

Lemma one_line_app a b : one_line (a ++ b) = one_line a && one_line b.
Proof. apply forallb_app. Qed.

(** Reading back one archive record: its identifier first, then one entry
    for every further line a line break inside a field has produced. *)
Lemma ids_of_archive_line id now author_name song_name filename :
  clean_id id ->
  exists extra,
    ids_of (archive_line id now author_name song_name filename) = id :: extra
    /\ (one_line (now ++ author_name ++ song_name ++ filename) = true
        -> extra = []).
Proof.
  intros Hid. unfold archive_line, ids_of, readlines.
  set (r := now ++ [TAB] ++ author_name ++ [TAB] ++ song_name ++ [TAB] ++ filename).
  replace (id ++ [TAB] ++ now ++ [TAB] ++ author_name ++ [TAB] ++ song_name
              ++ [TAB] ++ filename ++ [LF])
    with ((id ++ [TAB]) ++ r ++ [LF])
    by (unfold r; rewrite <- !app_assoc; reflexivity).
  assert (Hp : one_line (id ++ [TAB]) = true).
  { rewrite one_line_app, (clean_id_one_line id Hid). reflexivity. }
  rewrite (universal_newlines_one_line _ _ Hp).
  destruct (universal_newlines_ends_lf r) as (u & Eu). rewrite Eu.
  rewrite (split_lines_one_line _ _ [] Hp). simpl app at 1.
  destruct (split_lines_first u (id ++ [TAB])) as (x & more & -> & Hx).
  cbn [map]. rewrite <- app_assoc. cbn [app].
  rewrite (first_field_line id _ Hid).
  eexists. split; [reflexivity|].
  intros Hone.
  assert (Hr : one_line r = true).
  { unfold r. rewrite !one_line_app in *.
    apply andb_prop in Hone as [H1 Hone]. apply andb_prop in Hone as [H2 Hone].
    apply andb_prop in Hone as [H3 H4]. rewrite H1, H2, H3, H4. reflexivity. }
  pose proof (universal_newlines_one_line r [LF] Hr) as Er.
  simpl universal_newlines in Er. rewrite Eu in Er.
  apply app_inj_tail in Er as [-> _].
  destruct (Hx (one_line_no_lf r Hr)) as [_ ->]. reflexivity.
Qed.

(** ** The archive on the file system *)

Lemma node_at_insert (fs : gmap path node) (p : path) (n : node) :
  p <> [] -> node_at (<[p := n]> fs) p = Some n.
Proof.
  intros Hp. destruct p; [congruence|]. simpl. apply lookup_insert_eq.
Qed.

Lemma node_at_not_root (fs : gmap path node) (p : path) :
  node_at fs p <> Some Dir -> p <> [].
Proof. intros H ->. apply H. reflexivity. Qed.

Lemma archive_text_not_root fs p old : archive_text fs p old -> p <> [].
Proof.
  intros [H | (H & _)]; apply (node_at_not_root fs); rewrite H; discriminate.
Qed.

Lemma node_at_lookup (fs : gmap path node) (p : path) :
  p <> [] -> node_at fs p = fs !! p.
Proof. destruct p; [congruence | reflexivity]. Qed.

(** Opening and writing, in one step. *)
Lemma append_file_eq p data fs :
  append_file p data fs
  = match node_at fs p with
    | Some Dir => (Raise IsADirectoryError, fs)
    | Some (File old) =>
        if encodable data then (Ok tt, <[p := File (old ++ data)]> fs)
        else (Raise UnicodeEncodeError, fs)
    | None =>
        match create_check fs p with
        | Some e => (Raise e, fs)
        | None =>
            if encodable data then (Ok tt, <[p := File data]> fs)
            else (Raise UnicodeEncodeError, <[p := File []]> fs)
        end
    end.
Proof.
  unfold append_file, bind, open_file, file_write.
  destruct (node_at fs p) as [[old|]|] eqn:H.
  - assert (Hp : p <> []) by (apply (node_at_not_root fs); rewrite H; discriminate).
    rewrite (node_at_lookup fs p Hp) in H. rewrite H. reflexivity.
  - reflexivity.
  - destruct (create_check fs p); [reflexivity|].
    rewrite lookup_insert_eq, insert_insert_eq. reflexivity.
Qed.

Lemma write_file_eq p data fs :
  write_file p data fs
  = match node_at fs p with
    | Some Dir => (Raise IsADirectoryError, fs)
    | Some (File _) =>
        if encodable data then (Ok tt, <[p := File data]> fs)
        else (Raise UnicodeEncodeError, <[p := File []]> fs)
    | None =>
        match create_check fs p with
        | Some e => (Raise e, fs)
        | None =>
            if encodable data then (Ok tt, <[p := File data]> fs)
            else (Raise UnicodeEncodeError, <[p := File []]> fs)
        end
    end.
Proof.
  unfold write_file, bind, open_file, file_write.
  destruct (node_at fs p) as [[old|]|] eqn:H.
  - rewrite lookup_insert_eq, insert_insert_eq. reflexivity.
  - reflexivity.
  - destruct (create_check fs p); [reflexivity|].
    rewrite lookup_insert_eq, insert_insert_eq. reflexivity.
Qed.

(** One append: the line goes behind what the archive holds. *)
Lemma add_to_archive_appends cfg now song_id filename author_name song_name fs old :
  archive_text fs (get_song_archive cfg) old ->
  let line := archive_line song_id now author_name song_name filename in
  encodable line = true ->
  add_to_archive cfg now song_id filename author_name song_name fs
  = (Ok tt, <[get_song_archive cfg := File (old ++ line)]> fs).
Proof.
  intros H line He. unfold add_to_archive, bind, path_exists.
  destruct H as [H | (H & Hc & ->)]; rewrite H.
  - rewrite append_file_eq, H. fold line. rewrite He. reflexivity.
  - rewrite write_file_eq, H, Hc. fold line. rewrite He. reflexivity.
Qed.

(** X22: a record with a lone surrogate in one of its fields cannot be
    encoded: [add_to_archive] raises [UnicodeEncodeError]; an archive that
    is there keeps its text, and an archive that was not there is left
    behind, empty. *)
Theorem add_to_archive_refused cfg now song_id filename author_name song_name fs old :
  archive_text fs (get_song_archive cfg) old ->
  encodable (archive_line song_id now author_name song_name filename) = false ->
  add_to_archive cfg now song_id filename author_name song_name fs
  = (Raise UnicodeEncodeError,
     match node_at fs (get_song_archive cfg) with
     | None => <[get_song_archive cfg := File []]> fs
     | Some _ => fs
     end).
Proof.
  intros H He. unfold add_to_archive, bind, path_exists.
  destruct H as [H | (H & Hc & ->)]; rewrite H.
  - rewrite append_file_eq, H, He. reflexivity.
  - rewrite write_file_eq, H, Hc, He. reflexivity.
Qed.

Lemma get_previously_downloaded_file cfg fs content :
  node_at fs (get_song_archive cfg) = Some (File content) ->
  get_previously_downloaded cfg fs = (Ok (ids_of content), fs).
Proof.
  intros H. unfold get_previously_downloaded, bind, path_exists, read_file, ret.
  rewrite H. cbn beta iota. rewrite H. reflexivity.
Qed.

Lemma get_previously_downloaded_text cfg fs old :
  archive_text fs (get_song_archive cfg) old ->
  get_previously_downloaded cfg fs = (Ok (ids_of old), fs).
Proof.
  intros [H | (H & _ & ->)]; [apply get_previously_downloaded_file, H|].
  unfold get_previously_downloaded, bind, path_exists, ret. rewrite H.
  reflexivity.
Qed.

Lemma archive_line_terminated song_id now author_name song_name filename :
  terminated (archive_line song_id now author_name song_name filename).
Proof.
  right. unfold archive_line.
  exists (song_id ++ [TAB] ++ now ++ [TAB] ++ author_name ++ [TAB] ++ song_name
            ++ [TAB] ++ filename).
  rewrite <- !app_assoc. reflexivity.
Qed.

Lemma terminated_app a b : terminated a -> terminated b -> terminated (a ++ b).
Proof.
  intros Ha [-> | (b' & ->)]; [rewrite app_nil_r; exact Ha|].
  right. exists (a ++ b'). rewrite app_assoc. reflexivity.
Qed.

(** Appending keeps the archive a text of whole lines: the archives that
    [add_to_archive] builds from nothing are of that kind. *)
Lemma add_to_archive_keeps_lines cfg now song_id filename author_name song_name
    fs old :
  archive_text fs (get_song_archive cfg) old -> terminated old ->
  encodable (archive_line song_id now author_name song_name filename) = true ->
  exists fs',
    add_to_archive cfg now song_id filename author_name song_name fs = (Ok tt, fs')
    /\ archive_text fs' (get_song_archive cfg)
         (old ++ archive_line song_id now author_name song_name filename)
    /\ terminated (old ++ archive_line song_id now author_name song_name filename).
Proof.
  intros Ht Hold He. eexists.
  split; [apply add_to_archive_appends; [exact Ht | exact He]|]. split.
  - left. apply node_at_insert, (archive_text_not_root _ _ _ Ht).
  - apply terminated_app; [exact Hold | apply archive_line_terminated].
Qed.




(** ** Directory archives switched off *)

Lemma make_dir_files (q : path) (fs : gmap path node) (r : path) content :
  make_dir q fs !! r = Some (File content) <-> fs !! r = Some (File content).
Proof.
  unfold make_dir. destruct (fs !! q) eqn:E; [reflexivity|].
  destruct (decide (q = r)) as [-> | Hne].
  - rewrite lookup_insert_eq, E. split; discriminate.
  - rewrite lookup_insert_ne by exact Hne. reflexivity.
Qed.

Lemma make_dirs_files (l : list path) (fs : gmap path node) (r : path) content :
  fold_right make_dir fs l !! r = Some (File content)
  <-> fs !! r = Some (File content).
Proof.
  induction l as [|q l IH]; simpl; [reflexivity|].
  rewrite make_dir_files. exact IH.
Qed.

(** [mkdir] creates directories only: no file appears, disappears or
    changes. *)
Lemma mkdir_parents_files p fs r content :
  snd (mkdir_parents p fs) !! r = Some (File content)
  <-> fs !! r = Some (File content).
Proof.
  unfold mkdir_parents. destruct (node_at fs p) as [[c|]|]; simpl; try reflexivity.
  destruct (existsb _ _); simpl; [reflexivity | apply make_dirs_files].
Qed.


Lemma make_dirs_other (l : list path) (fs : gmap path node) (r : path) :
  ~ In r l -> fold_right make_dir fs l !! r = fs !! r.
Proof.
  intros Hl. induction l as [|y l IH]; [reflexivity|]. simpl.
  unfold make_dir. destruct (_ !! y) eqn:E.
  - apply IH. intros H. apply Hl. right. exact H.
  - rewrite lookup_insert_ne.
    + apply IH. intros H. apply Hl. right. exact H.
    + intros ->. apply Hl. left. reflexivity.
Qed.

Lemma prefixes_length p : forall q, In q (prefixes p) -> length q <= length p.
Proof.
  induction p as [|c p IH]; intros q Hq; [destruct Hq|]. simpl in Hq.
  destruct Hq as [<- | Hq]; [simpl; lia|].
  apply in_map_iff in Hq as (q' & <- & Hq'). simpl. specialize (IH q' Hq'). lia.
Qed.


Lemma hidden_file_not_prefix dp : ~ In (hidden_file dp) (prefixes dp).
Proof.
  intros H. apply prefixes_length in H. unfold hidden_file in H.
  rewrite length_app in H. simpl in H. lia.
Qed.

(** [mkdir] leaves the manifest's path as it was. *)
Lemma mkdir_parents_hidden dp fs :
  snd (mkdir_parents dp fs) !! hidden_file dp = fs !! hidden_file dp.
Proof.
  unfold mkdir_parents. destruct (node_at fs dp) as [[c|]|]; simpl; try reflexivity.
  destruct (existsb _ _); simpl; [reflexivity|].
  apply make_dirs_other, hidden_file_not_prefix.
Qed.







(** C9: when the archive does not exist,
    [get_previously_downloaded] returns the empty list, and when the
    manifest does not exist so does [get_directory_song_ids]; neither
    raises nor changes the file system. *)
Theorem missing_files_read_empty cfg dp fs :
  (node_at fs (get_song_archive cfg) = None ->
   get_previously_downloaded cfg fs = (Ok [], fs))
  /\ (node_at fs (hidden_file dp) = None ->
      get_directory_song_ids cfg dp fs = (Ok [], fs)).
Proof.
  split; intros H.
  - unfold get_previously_downloaded, bind, path_exists. rewrite H. reflexivity.
  - unfold get_directory_song_ids, bind, is_file. rewrite H. reflexivity.
Qed.

Lemma missing_files_read_empty_witness :
  get_previously_downloaded (Config [py ".song_archive"] false) ∅ = (Ok [], ∅)
  /\ get_directory_song_ids (Config [py ".song_archive"] false) demo_dir ∅
     = (Ok [], ∅).
Proof.
  destruct (missing_files_read_empty (Config [py ".song_archive"] false) demo_dir ∅)
    as [H1 H2].
  split; [apply H1 | apply H2]; reflexivity.
Defined.

(** * Further properties *)

(** ** [regex_input_for_urls] *)

Section Extractor.
Variable uw : char -> bool.

Lemma slot_id_str t s : slot t (regex_input_for_urls uw s) = id_str uw t s.
Proof. destruct t; reflexivity. Qed.

(** X1: whatever the input, an identifier found in a slot is 22 characters
    of [[0-9a-zA-Z]]. *)
Theorem slot_ids_well_formed s t id :
  slot t (regex_input_for_urls uw s) = Some id ->
  length id = 22 /\ forallb is_alnum id = true.
Proof.
  rewrite slot_id_str, id_str_Some.
  intros [(nl & _ & Hl & Ha & _) | (sc & i & q & nl & _ & _ & _ & Hl & Ha & _)];
    auto.
Qed.

(** X2: the inputs that are accepted.  The result has [id] in the slot of
    [t] and nothing else exactly when the input is the URI or a URL of [id]
    for [t]; every slot is [None] exactly when the input has none of these
    forms. *)
Theorem regex_input_characterized s :
  (forall t id, regex_input_for_urls uw s = only t id <-> form uw t id s)
  /\ (regex_input_for_urls uw s = no_match <-> forall t id, ~ form uw t id s).
Proof.
  split.
  - intros t id. split; [|apply regex_input_form].
    intros H. apply id_str_Some. rewrite <- slot_id_str, H.
    destruct t; reflexivity.
  - split; [|apply regex_input_no_form].
    intros H t id Hf. apply id_str_Some in Hf.
    rewrite <- slot_id_str, H in Hf. destruct t; discriminate Hf.
Qed.

(** X3: the URI of a well-formed identifier fills the slot of its type, and
    so does its URL with a locale segment [/intl-<locale>], whatever the
    scheme and with or without the [?si=] query. *)
Theorem uri_and_intl_url_parse t id sc locale q :
  length id = 22 -> forallb is_alnum id = true ->
  is_scheme sc ->
  locale <> [] -> forallb (is_word uw) locale = true ->
  is_query q ->
  regex_input_for_urls uw (uri t id) = only t id
  /\ regex_input_for_urls uw (url_intl sc locale t id ++ q) = only t id.
Proof.
  intros Hl Ha Hsc Hne Hw Hq. split; apply regex_input_form.
  - left. exists []. unfold uri. rewrite app_nil_r. auto.
  - right. exists sc, (py "/intl-" ++ locale), q, []. unfold url_intl.
    rewrite app_nil_r, <- !app_assoc. repeat split; auto.
    right. exists locale. auto.
Qed.

End Extractor.

(** X4: an identifier part that is not 22 characters of [[0-9a-zA-Z]] (and
    holds no line feed and no question mark) is matched in no form: neither
    in the URI of a type nor in its URL, with or without a locale segment
    or a query. *)
Theorem malformed_id_no_match uw t x sc i q :
  forallb dot x = true ->
  forallb (fun c => negb (c =? cp "?")%N) x = true ->
  length x <> 22 \/ forallb is_alnum x = false ->
  is_scheme sc -> is_intl uw i ->
  q = [] \/ (exists q', q = cp "?" :: q') ->
  regex_input_for_urls uw (uri t x) = no_match
  /\ regex_input_for_urls uw
       (sc ++ py "open.spotify.com" ++ i ++ py "/" ++ py (type_name t) ++ py "/"
           ++ x ++ q)
     = no_match.
Proof.
  intros Hd Hq Hbad Hsc Hi Hqq. split.
  - apply malformed_uri_no_match; assumption.
  - apply malformed_url_no_match; assumption.
Qed.

Lemma slot_ids_well_formed_witness :
  length id0 = 22 /\ forallb is_alnum id0 = true.
Proof.
  apply (slot_ids_well_formed ascii_only
           (py "https://open.spotify.com/album/0123456789abcdefghijkl?si=xyz")
           Album id0).
  vm_compute. reflexivity.
Defined.

Lemma uri_and_intl_url_parse_witness :
  regex_input_for_urls ascii_only (uri Episode id0) = only Episode id0
  /\ regex_input_for_urls ascii_only
       (url_intl (py "https://") (py "en") Episode id0 ++ py "?si=abc")
     = only Episode id0.
Proof.
  apply (uri_and_intl_url_parse ascii_only Episode id0 (py "https://") (py "en")
           (py "?si=abc")).
  - reflexivity.
  - reflexivity.
  - right; right; reflexivity.
  - discriminate.
  - reflexivity.
  - right. exists (py "abc"). split; [reflexivity|]. split; [discriminate | reflexivity].
Defined.

Lemma malformed_id_no_match_witness :
  regex_input_for_urls ascii_only (uri Track (py "0123456789abcdefghijk!"))
  = no_match
  /\ regex_input_for_urls ascii_only
       (py "https://" ++ py "open.spotify.com" ++ [] ++ py "/"
          ++ py (type_name Track) ++ py "/" ++ py "0123456789abcdefghijk!"
          ++ py "?si=abc")
     = no_match.
Proof.
  apply (malformed_id_no_match ascii_only Track (py "0123456789abcdefghijk!")
           (py "https://") [] (py "?si=abc")).
  - reflexivity.
  - reflexivity.
  - right. reflexivity.
  - right; right; reflexivity.
  - left; reflexivity.
  - right. exists (py "si=abc"). reflexivity.
Defined.

(** ** [fix_filename] *)

Lemma tail_pass_not_forbidden l :
  forallb (fun c => negb (forbidden c)) (tail_pass l) = true.
Proof.
  induction l as [|x tl IH]; [reflexivity|]. simpl.
  rewrite (scrub_not_forbidden x tl), IH. reflexivity.
Qed.

Lemma tail_pass_length l : length (tail_pass l) = length l.
Proof. induction l as [|x tl IH]; simpl; congruence. Qed.

Lemma tail_pass_last l :
  space_or_period (List.last (tail_pass l) underscore) = false.
Proof.
  induction l as [|x tl IH]; [reflexivity|].
  destruct tl as [|y tl].
  - simpl. unfold scrub. simpl. rewrite andb_true_r.
    destruct (forbidden x); [reflexivity|]. simpl.
    destruct (space_or_period x) eqn:E; [reflexivity | exact E].
  - exact IH.
Qed.

Lemma last_cons_tail_pass h l :
  space_or_period h = false \/ l <> [] ->
  space_or_period (List.last (h :: tail_pass l) underscore) = false.
Proof.
  intros H. destruct l as [|x tl].
  - simpl. destruct H as [H | H]; [exact H | congruence].
  - change (List.last (h :: tail_pass (x :: tl)) underscore)
      with (List.last (tail_pass (x :: tl)) underscore).
    apply tail_pass_last.
Qed.

Lemma reserved_match_None_iff l :
  reserved_match l = None <->
  ~ (exists w tl, l = w ++ tl /\ reserved_word w /\ ends_stem tl).
Proof.
  split.
  - intros Hn (w & tl & -> & Hw & Hs).
    destruct (reserved_match_is_Some w tl Hw Hs) as [m Hm]. congruence.
  - intros Hn. destruct (reserved_match l) as [m|] eqn:E; [|reflexivity].
    apply reserved_match_Some in E as (w & tl & E & Hw & Hs & _).
    destruct Hn. eauto.
Qed.

Lemma valid_underscore_tail_pass l : valid_name (underscore :: tail_pass l).
Proof.
  split; [|split; [|split]].
  - simpl. apply tail_pass_not_forbidden.
  - reflexivity.
  - apply last_cons_tail_pass. left. reflexivity.
  - apply reserved_match_None_iff, reserved_match_underscore.
Qed.

Lemma fix_filename_output_valid s : valid_name (fix_filename s).
Proof.
  destruct s as [|x tl].
  { rewrite fix_filename_nil. repeat split; try reflexivity.
    intros (w & tl & E & Hw & _).
    apply reserved_word_alnum in Hw as (_ & y & w' & ->). discriminate E. }
  rewrite fix_filename_cons.
  destruct (forbidden x) eqn:Hf; [apply valid_underscore_tail_pass|].
  destruct (reserved_match (x :: tl)) as [m|] eqn:Hr;
    [apply valid_underscore_tail_pass|].
  destruct (is_space x || space_or_period x && at_eol tl) eqn:Hb;
    [apply valid_underscore_tail_pass|].
  apply orb_false_elim in Hb as [Hsp Hb].
  split; [|split; [|split]].
  - simpl. rewrite Hf. apply tail_pass_not_forbidden.
  - exact Hsp.
  - apply last_cons_tail_pass. destruct tl as [|y tl]; [left | right; discriminate].
    simpl in Hb. rewrite andb_true_r in Hb. exact Hb.
  - apply reserved_match_None_iff, reserved_match_tail_pass, Hr.
Qed.

Lemma no_lf_at_eol l :
  forallb (fun c => negb (forbidden c)) l = true -> at_eol l = true -> l = [].
Proof.
  destruct l as [|c [|d l]]; [reflexivity | | discriminate].
  simpl. intros Hf Hc. apply N.eqb_eq in Hc. subst c. discriminate Hf.
Qed.

Lemma tail_pass_valid l :
  forallb (fun c => negb (forbidden c)) l = true ->
  space_or_period (List.last l underscore) = false ->
  tail_pass l = l.
Proof.
  induction l as [|x tl IH]; [reflexivity|]. intros Hf Hl.
  simpl in Hf. apply andb_prop in Hf as [Hx Hf]. apply negb_true_iff in Hx.
  simpl. unfold scrub. rewrite Hx. simpl.
  destruct tl as [|y tl].
  - simpl in *. rewrite Hl. reflexivity.
  - rewrite (IH Hf Hl). f_equal.
    destruct (at_eol (y :: tl)) eqn:E; [|rewrite andb_false_r; reflexivity].
    apply (no_lf_at_eol _ Hf) in E. discriminate E.
Qed.

Lemma fix_filename_valid_fixed s : valid_name s -> fix_filename s = s.
Proof.
  intros (Hf & Hh & Hl & Hr). destruct s as [|x tl]; [reflexivity|].
  rewrite fix_filename_cons. simpl in Hf, Hh.
  apply andb_prop in Hf as [Hx Hf]. apply negb_true_iff in Hx.
  apply reserved_match_None_iff in Hr. rewrite Hx, Hr, Hh. simpl.
  destruct tl as [|y tl].
  - simpl in *. rewrite Hl. reflexivity.
  - rewrite (tail_pass_valid _ Hf Hl). f_equal.
    destruct (at_eol (y :: tl)) eqn:E; [|rewrite andb_false_r; reflexivity].
    apply (no_lf_at_eol _ Hf) in E. discriminate E.
Qed.

(** X5: whatever the input, the output of [fix_filename] is a valid name,
    and the names it leaves as they are are exactly the valid names. *)
Theorem fix_filename_valid_names s :
  valid_name (fix_filename s) /\ (fix_filename s = s <-> valid_name s).
Proof.
  split; [apply fix_filename_output_valid|]. split.
  - intros E. rewrite <- E. apply fix_filename_output_valid.
  - apply fix_filename_valid_fixed.
Qed.

Lemma ci_length name w : ci name w -> length w = length (py name).
Proof. intros H. symmetry. apply (Forall2_length _ _ _ H). Qed.

Lemma reserved_word_length w : reserved_word w -> length w = 3 \/ length w = 4.
Proof.
  intros [H | [(w3 & d & -> & H & _) | [H | [(w3 & d & -> & H & _) | [H | H]]]]];
    apply ci_length in H; rewrite ?length_app, H; simpl; auto.
Qed.

Lemma reserved_word_digit w :
  reserved_word w -> length w = 4 -> exists w3 d, w = w3 ++ [d] /\ digit19 d = true.
Proof.
  intros [H | [(w3 & d & -> & H & Hd) | [H | [(w3 & d & -> & H & Hd) | [H | H]]]]] Hl;
    eauto; apply ci_length in H; rewrite H in Hl; discriminate Hl.
Qed.

(** A name has at most one reserved stem. *)
Lemma reserved_stem_unique w tl w' tl' :
  reserved_word w -> ends_stem tl -> reserved_word w' -> ends_stem tl' ->
  w ++ tl = w' ++ tl' -> w = w' /\ tl = tl'.
Proof.
  assert (A : forall w tl w' tl',
             reserved_word w -> ends_stem tl -> reserved_word w' ->
             length w = 3 -> length w' = 4 -> w ++ tl = w' ++ tl' -> False).
  { intros v tv v' tv' Hv Hs Hv' H3 H4 E.
    destruct (reserved_word_digit v' Hv' H4) as (w3 & d & -> & Hd).
    rewrite length_app in H4. simpl in H4.
    rewrite <- app_assoc in E. apply app_inj_1 in E as [-> E]; [|lia].
    destruct Hs as [-> | (t & ->)]; [discriminate E|].
    injection E as <- _. discriminate Hd. }
  intros Hw Hs Hw' Hs' E.
  destruct (reserved_word_length w Hw) as [H | H],
           (reserved_word_length w' Hw') as [H' | H'].
  - apply app_inj_1 in E; [exact E | congruence].
  - destruct (A _ _ _ _ Hw Hs Hw' H H' E).
  - symmetry in E. destruct (A _ _ _ _ Hw' Hs' Hw H' H E).
  - apply app_inj_1 in E; [exact E | congruence].
Qed.

Lemma fix_filename_stem w tl :
  reserved_word w -> ends_stem tl ->
  fix_filename (w ++ tl) = underscore :: tail_pass tl.
Proof.
  intros Hw Hs. destruct (reserved_word_alnum w Hw) as (Ha & x & w' & ->).
  cbn [app]. rewrite fix_filename_cons.
  simpl in Ha. apply andb_prop in Ha as [Hx _].
  rewrite (alnum_not_forbidden x Hx).
  destruct (reserved_match_is_Some _ _ Hw Hs) as [m Hm]. cbn [app] in Hm.
  rewrite Hm. apply reserved_match_Some in Hm as (v & tv & E & Hv & Hsv & ->).
  destruct (reserved_stem_unique _ _ _ _ Hw Hs Hv Hsv E) as [<- <-].
  cbn [m_end length Nat.sub]. rewrite Nat.sub_0_r, skipn_app, skipn_all.
  rewrite Nat.sub_diag. reflexivity.
Qed.

(** X6: a reserved device name, in any letter case, that is the whole name
    or its stem before a period is replaced by one underscore, and an
    alphanumeric extension is kept. *)
Theorem fix_filename_reserved w ext :
  reserved_word w -> ext <> [] -> forallb is_alnum ext = true ->
  fix_filename w = py "_"
  /\ fix_filename (w ++ py "." ++ ext) = py "_." ++ ext.
Proof.
  intros Hw Hne Ha. split.
  - rewrite <- (app_nil_r w). apply (fix_filename_stem w []); [exact Hw|].
    left. reflexivity.
  - rewrite (fix_filename_stem w (py "." ++ ext) Hw); [|right; eexists; reflexivity].
    assert (Hf : forallb (fun c => negb (forbidden c)) ext = true).
    { apply forallb_forall. intros c Hc. rewrite forallb_forall in Ha.
      rewrite (alnum_not_forbidden c (Ha c Hc)). reflexivity. }
    assert (Hl : space_or_period (List.last ext underscore) = false).
    { destruct (exists_last Hne) as (e & c & ->). rewrite last_last.
      rewrite forallb_app in Ha. apply andb_prop in Ha as [_ Ha]. simpl in Ha.
      rewrite andb_true_r in Ha. apply alnum_not_space_or_period, Ha. }
    change (py "." ++ ext) with (cp "." :: ext). cbn [tail_pass].
    rewrite (tail_pass_valid ext Hf Hl). unfold scrub.
    destruct (at_eol ext) eqn:E.
    + apply (no_lf_at_eol _ Hf) in E. congruence.
    + reflexivity.
Qed.

(** X7: the output of [fix_filename] is never longer than the input, and as long as the
    input unless a reserved stem was replaced. *)
Theorem fix_filename_length s :
  length (fix_filename s) <= length s
  /\ ((forall w tl, s = w ++ tl -> reserved_word w -> ends_stem tl -> False) ->
      length (fix_filename s) = length s).
Proof.
  destruct s as [|x tl]; [split; reflexivity|].
  rewrite fix_filename_cons.
  destruct (forbidden x);
    [simpl; rewrite tail_pass_length; split; [lia | reflexivity]|].
  destruct (reserved_match (x :: tl)) as [m|] eqn:Hr.
  - split.
    + simpl. rewrite tail_pass_length, length_skipn. lia.
    + intros Hn. apply reserved_match_Some in Hr as (w & tl' & E & Hw & Hs & _).
      destruct (Hn w tl' E Hw Hs).
  - simpl. rewrite tail_pass_length. split; [lia | reflexivity].
Qed.

Lemma scrub_replaced x behind :
  scrub x behind = if replaced false x behind then underscore else x.
Proof. unfold scrub, replaced. cbn [andb]. rewrite orb_false_r. reflexivity. Qed.

Lemma tail_pass_nth l : forall i x,
  nth_error l i = Some x ->
  nth_error (tail_pass l) i
  = Some (if replaced false x (skipn (S i) l) then underscore else x).
Proof.
  induction l as [|y l IH]; intros [|i] x H; try discriminate H.
  - injection H as ->. cbn [tail_pass nth_error skipn]. rewrite scrub_replaced.
    reflexivity.
  - cbn [tail_pass nth_error]. rewrite (IH i x H). reflexivity.
Qed.

(** C4, as the code has it, for every name.  A name without reserved stem
    keeps its length, and the character at each place is replaced by [_]
    exactly when it is forbidden, or is whitespace at the first place, or
    is whitespace or a period with nothing, or only one final line feed,
    behind it; every other character, the rest of a leading or trailing
    run included, stays as it is: no run is collapsed.  In a name with a
    reserved stem the stem becomes one [_], and what follows it is treated
    the same way. *)
Theorem fix_filename_boundaries s :
  ((~ exists w tl, s = w ++ tl /\ reserved_word w /\ ends_stem tl) ->
   length (fix_filename s) = length s
   /\ forall i x, nth_error s i = Some x ->
        nth_error (fix_filename s) i
        = Some (if replaced (i =? 0) x (skipn (S i) s) then underscore else x))
  /\ (forall w tl, s = w ++ tl -> reserved_word w -> ends_stem tl ->
      length (fix_filename s) = S (length tl)
      /\ nth_error (fix_filename s) 0 = Some underscore
      /\ forall i x, nth_error tl i = Some x ->
           nth_error (fix_filename s) (S i)
           = Some (if replaced false x (skipn (S i) tl) then underscore else x)).
Proof.
  split.
  - intros Hn. destruct s as [|x tl].
    { rewrite fix_filename_nil. split; [reflexivity|].
      intros [|i] x H; discriminate H. }
    apply reserved_match_None_iff in Hn.
    assert (E : fix_filename (x :: tl)
                = (if replaced true x tl then underscore else x) :: tail_pass tl).
    { rewrite fix_filename_cons, Hn. unfold replaced. cbn [andb].
      destruct (forbidden x); reflexivity. }
    rewrite E. split; [cbn [length]; rewrite tail_pass_length; reflexivity|].
    intros [|i] y H.
    + injection H as ->. reflexivity.
    + cbn [nth_error] in *. apply (tail_pass_nth tl i y H).
  - intros w tl -> Hw Hs. rewrite (fix_filename_stem w tl Hw Hs).
    split; [cbn [length]; rewrite tail_pass_length; reflexivity|].
    split; [reflexivity|]. intros i x H. apply (tail_pass_nth tl i x H).
Qed.


(** ** [fmt_seconds] *)

(** The subtract-and-divide steps of the source are division with
    remainder. *)
Lemma hms_div v : hms v = ((v / 3600)%Z, ((v / 60) mod 60)%Z, (v mod 60)%Z).
Proof.
  unfold hms.
  assert (E1 : ((v - v mod 60) / 60 = v / 60)%Z).
  { rewrite (Z.div_mod v 60) at 1 by lia.
    replace (60 * (v / 60) + v mod 60 - v mod 60)%Z with ((v / 60) * 60)%Z by lia.
    apply Z.div_mul. lia. }
  cbv zeta. rewrite E1.
  assert (E2 : ((v / 60 - (v / 60) mod 60) / 60 = v / 3600)%Z).
  { rewrite (Z.div_mod (v / 60) 60) at 1 by lia.
    replace (60 * (v / 60 / 60) + (v / 60) mod 60 - (v / 60) mod 60)%Z
      with ((v / 60 / 60) * 60)%Z by lia.
    rewrite Z.div_mul by lia. rewrite Z.div_div by lia. reflexivity. }
  rewrite E2. reflexivity.
Qed.

Lemma zfill_two_digits n : (0 <= n < 60)%Z -> zfill 2 (int_str n) = two_digits n.
Proof.
  intros H.
  assert (A : forallb (fun k => bool_decide (zfill 2 (int_str (Z.of_nat k))
                                             = two_digits (Z.of_nat k)))
                      (List.seq 0 60) = true) by (vm_compute; reflexivity).
  rewrite forallb_forall in A. specialize (A (Z.to_nat n)).
  rewrite Z2Nat.id in A by lia.
  assert (B : In (Z.to_nat n) (List.seq 0 60)) by (apply in_seq; lia).
  apply A in B. apply bool_decide_eq_true in B. exact B.
Qed.

Lemma int_str_two_chars n : (10 <= n)%Z -> 2 <= length (int_str n).
Proof.
  intros H. unfold int_str, py. rewrite length_map.
  pose proof (DecimalZ.of_to n) as E.
  destruct (Z.to_int n) as [u|u].
  - destruct u as [|u|u|u|u|u|u|u|u|u|u];
      try (exfalso; cbv in E; lia);
      (destruct u; [exfalso; cbv in E; lia | simpl; lia ..]).
  - exfalso. unfold Z.of_int, Z.of_uint in E.
    pose proof (N2Z.is_nonneg (Pos.of_uint u)). lia.
Qed.

(** X8: from one minute up to one hour the result is [MM:SS]: the whole
    minutes and the remaining seconds, two digits each. *)
Theorem fmt_seconds_minutes (secs : Q) :
  (60 <= Qfloor secs < 3600)%Z ->
  fmt_seconds secs
  = two_digits (Qfloor secs / 60) ++ py ":" ++ two_digits (Qfloor secs mod 60).
Proof.
  intros H. unfold fmt_seconds. rewrite hms_div. set (v := Qfloor secs) in *.
  assert (Hh : (v / 3600 = 0)%Z) by (apply Z.div_small; lia).
  assert (Hm : (1 <= v / 60 < 60)%Z).
  { split; [apply Z.div_le_lower_bound; lia | apply Z.div_lt_upper_bound; lia]. }
  rewrite Hh, (Z.mod_small (v / 60) 60) by lia.
  replace ((v / 60 =? 0)%Z) with false by (symmetry; apply Z.eqb_neq; lia).
  rewrite Z.eqb_refl. cbn [andb].
  rewrite (zfill_two_digits (v / 60)) by lia.
  rewrite (zfill_two_digits (v mod 60)) by (apply Z.mod_pos_bound; lia).
  reflexivity.
Qed.

(** X9: from one hour on (and as far as a double counts whole seconds
    exactly) the result is [H:MM:SS]: the whole hours, at least two digits
    and as many as they need, then minutes and seconds within the hour, two
    digits each. *)
Theorem fmt_seconds_hours (secs : Q) :
  (3600 <= Qfloor secs < 2 ^ 53)%Z ->
  fmt_seconds secs
  = (if (Qfloor secs / 3600 <? 10)%Z then two_digits (Qfloor secs / 3600)
     else int_str (Qfloor secs / 3600))
    ++ py ":" ++ two_digits ((Qfloor secs / 60) mod 60)
    ++ py ":" ++ two_digits (Qfloor secs mod 60).
Proof.
  intros H. unfold fmt_seconds. rewrite hms_div. set (v := Qfloor secs) in *.
  assert (Hh : (1 <= v / 3600)%Z) by (apply Z.div_le_lower_bound; lia).
  replace ((v / 3600 =? 0)%Z) with false by (symmetry; apply Z.eqb_neq; lia).
  cbn [andb].
  rewrite (zfill_two_digits ((v / 60) mod 60)) by (apply Z.mod_pos_bound; lia).
  rewrite (zfill_two_digits (v mod 60)) by (apply Z.mod_pos_bound; lia).
  f_equal. destruct (Z.ltb_spec (v / 3600) 10).
  - apply zfill_two_digits. lia.
  - apply zfill_noop, int_str_two_chars. lia.
Qed.

Lemma fmt_seconds_minutes_witness :
  fmt_seconds 754.5
  = two_digits (Qfloor 754.5 / 60) ++ py ":" ++ two_digits (Qfloor 754.5 mod 60).
Proof.
  apply (fmt_seconds_minutes 754.5). vm_compute.
  split; [intros H; discriminate H | reflexivity].
Defined.

Lemma fmt_seconds_hours_witness :
  fmt_seconds 360061
  = (if (Qfloor 360061 / 3600 <? 10)%Z then two_digits (Qfloor 360061 / 3600)
     else int_str (Qfloor 360061 / 3600))
    ++ py ":" ++ two_digits ((Qfloor 360061 / 60) mod 60)
    ++ py ":" ++ two_digits (Qfloor 360061 mod 60).
Proof.
  apply (fmt_seconds_hours 360061). vm_compute.
  split; [intros H; discriminate H | reflexivity].
Defined.

(** ** The archives *)

Lemma ids_of_entry_line e : clean_entry e -> ids_of (entry_line e) = [e_id e].
Proof.
  intros (Hid & Hone & _).
  destruct (ids_of_archive_line (e_id e) (e_now e) (e_author e) (e_name e)
              (e_filename e) Hid) as (extra & E & Hx).
  unfold entry_line. rewrite E, (Hx Hone). reflexivity.
Qed.

Lemma ids_of_entry_lines es :
  Forall clean_entry es -> ids_of (concat (map entry_line es)) = map e_id es.
Proof.
  induction 1 as [|e es He _ IH]; [reflexivity|]. simpl.
  rewrite ids_of_app by apply archive_line_terminated.
  rewrite (ids_of_entry_line e He), IH. reflexivity.
Qed.

Lemma insert_other (fs : gmap path node) (p q : path) (n : node) :
  q <> p -> <[p := n]> fs !! q = fs !! q.
Proof. intros H. apply lookup_insert_ne. congruence. Qed.

(** X10: a run of downloads on an archive of whole lines, with records
    that are clean: an id that is not empty and free of whitespace, no line
    break in the other fields, no lone surrogate in any field.  Every
    append succeeds; the archive then holds its old text followed by one
    line per record, in order; reading it back gives the old ids followed
    by the ids of the records, in order, duplicates included; and no other
    path of the file system is touched. *)
Theorem archive_round_trip cfg es : forall fs old,
  archive_text fs (get_song_archive cfg) old ->
  terminated old ->
  Forall clean_entry es ->
  exists fs',
    add_all_to_archive cfg es fs = (Ok tt, fs')
    /\ archive_text fs' (get_song_archive cfg) (old ++ concat (map entry_line es))
    /\ get_previously_downloaded cfg fs' = (Ok (ids_of old ++ map e_id es), fs')
    /\ (forall q, q <> get_song_archive cfg -> fs' !! q = fs !! q).
Proof.
  induction es as [|e es IH]; intros fs old Ht Hold Hes.
  - exists fs. simpl. rewrite !app_nil_r.
    split; [reflexivity|]. split; [exact Ht|].
    split; [apply get_previously_downloaded_text, Ht | reflexivity].
  - inversion Hes as [|? ? He Hes']; subst.
    assert (Henc : encodable (entry_line e) = true) by apply He.
    destruct (add_to_archive_keeps_lines cfg (e_now e) (e_id e) (e_filename e)
                (e_author e) (e_name e) fs old Ht Hold Henc)
      as (fs1 & E1 & Ht1 & Hold1).
    pose proof (add_to_archive_appends cfg (e_now e) (e_id e) (e_filename e)
                  (e_author e) (e_name e) fs old Ht Henc) as E1'.
    rewrite E1 in E1'. injection E1' as Efs1.
    destruct (IH fs1 _ Ht1 Hold1 Hes') as (fs' & E & Ht' & Hg & Hfr).
    exists fs'. cbn [add_all_to_archive]. unfold bind at 1. rewrite E1.
    split; [exact E|]. fold (entry_line e) in Ht', Hg.
    cbn [map concat]. rewrite app_assoc. split; [exact Ht'|]. split.
    + rewrite Hg. rewrite ids_of_app by exact Hold.
      rewrite (ids_of_entry_line e He), <- app_assoc. reflexivity.
    + intros q Hq. rewrite (Hfr q Hq), Efs1. apply insert_other, Hq.
Qed.

Lemma append_file_text fs p old data :
  archive_text fs p old -> encodable data = true ->
  append_file p data fs = (Ok tt, <[p := File (old ++ data)]> fs).
Proof.
  intros [H | (H & Hc & ->)] He; rewrite append_file_eq, H, ?Hc, He; reflexivity.
Qed.

Lemma archive_text_insert fs p old text :
  archive_text fs p old -> archive_text (<[p := File text]> fs) p text.
Proof.
  intros H. left. apply node_at_insert, (archive_text_not_root _ _ _ H).
Qed.

Lemma get_directory_song_ids_text cfg dp fs old :
  get_disable_directory_archives cfg = false ->
  archive_text fs (hidden_file dp) old ->
  get_directory_song_ids cfg dp fs = (Ok (ids_of old), fs).
Proof.
  intros Hd Ht. unfold get_directory_song_ids, bind, is_file, read_file, ret.
  rewrite Hd. destruct Ht as [H | (H & _ & ->)]; rewrite H; cbn beta iota.
  - cbn [andb negb]. rewrite H. reflexivity.
  - reflexivity.
Qed.

(** What a run of downloads does to the manifest of a directory. *)
Lemma add_all_to_directory_text cfg dp es : forall fs old,
  get_disable_directory_archives cfg = false ->
  archive_text fs (hidden_file dp) old ->
  Forall clean_entry es ->
  exists fs',
    add_all_to_directory cfg dp es fs = (Ok tt, fs')
    /\ archive_text fs' (hidden_file dp) (old ++ concat (map entry_line es))
    /\ (forall q, q <> hidden_file dp -> fs' !! q = fs !! q).
Proof.
  induction es as [|e es IH]; intros fs old Hd Ht Hes.
  - exists fs. simpl. rewrite !app_nil_r.
    split; [reflexivity|]. split; [exact Ht | reflexivity].
  - inversion Hes as [|? ? He Hes']; subst.
    set (fs1 := <[hidden_file dp := File (old ++ entry_line e)]> fs).
    assert (E1 : add_to_directory_song_ids cfg (e_now e) dp (e_id e)
                   (e_filename e) (e_author e) (e_name e) fs = (Ok tt, fs1)).
    { unfold add_to_directory_song_ids. rewrite Hd.
      apply (append_file_text fs _ old _ Ht). apply He. }
    assert (Ht1 : archive_text fs1 (hidden_file dp) (old ++ entry_line e))
      by apply (archive_text_insert fs _ old _ Ht).
    destruct (IH fs1 _ Hd Ht1 Hes') as (fs' & E & Ht' & Hfr).
    exists fs'. cbn [add_all_to_directory]. unfold bind at 1. rewrite E1.
    split; [exact E|].
    cbn [map concat]. rewrite app_assoc. split; [exact Ht'|].
    intros q Hq. rewrite (Hfr q Hq). apply insert_other, Hq.
Qed.

(** X11: the manifest of a directory when directory archives are on.  On a
    manifest of whole lines, or on none where one can be created, every
    append of a run of clean records (an id that is not empty and free of
    whitespace, no line break in the other fields, no lone surrogate in
    any field) succeeds, the manifest then holds its old text followed by
    one line per record, reading it back gives the ids it held followed by
    the ids recorded, in order, and no other path is touched. *)
Theorem directory_round_trip cfg dp es fs old :
  get_disable_directory_archives cfg = false ->
  archive_text fs (hidden_file dp) old ->
  terminated old ->
  Forall clean_entry es ->
  exists fs',
    add_all_to_directory cfg dp es fs = (Ok tt, fs')
    /\ archive_text fs' (hidden_file dp) (old ++ concat (map entry_line es))
    /\ get_directory_song_ids cfg dp fs' = (Ok (ids_of old ++ map e_id es), fs')
    /\ (forall q, q <> hidden_file dp -> fs' !! q = fs !! q).
Proof.
  intros Hd Ht Hold Hes.
  destruct (add_all_to_directory_text cfg dp es fs old Hd Ht Hes)
    as (fs' & E & Ht' & Hfr).
  exists fs'. split; [exact E|]. split; [exact Ht'|]. split; [|exact Hfr].
  rewrite (get_directory_song_ids_text cfg dp fs' _ Hd Ht').
  rewrite ids_of_app by exact Hold. rewrite (ids_of_entry_lines es Hes).
  reflexivity.
Qed.


Lemma hidden_file_not_root dp : hidden_file dp <> [].
Proof. unfold hidden_file. destruct dp; discriminate. Qed.

Lemma node_at_hidden fs dp : node_at fs (hidden_file dp) = fs !! hidden_file dp.
Proof.
  unfold node_at. destruct (hidden_file dp) eqn:E; [|reflexivity].
  destruct (hidden_file_not_root dp E).
Qed.



(** X13: [create_download_directory] never truncates: a file that is
    there, the manifest included, keeps its content, with directory
    archives on or off and whether the call succeeds or raises. *)
Theorem create_download_directory_keeps_files cfg dp fs q content :
  fs !! q = Some (File content) ->
  snd (create_download_directory cfg dp fs) !! q = Some (File content).
Proof.
  intros Hq. unfold create_download_directory, bind.
  pose proof (proj2 (mkdir_parents_files dp fs q content) Hq) as H1.
  pose proof (mkdir_parents_hidden dp fs) as Hh.
  destruct (mkdir_parents dp fs) as [[[]|e] fs1]; simpl in *; [|exact H1].
  destruct (get_disable_directory_archives cfg); [exact H1|].
  unfold is_file, open_file, ret. cbn beta iota. rewrite node_at_hidden, Hh.
  destruct (fs !! hidden_file dp) as [[c|]|] eqn:E; cbn [negb]; cbn beta iota;
    rewrite ?node_at_hidden, ?Hh; try exact H1.
  destruct (create_check fs1 (hidden_file dp)); simpl; [exact H1|].
  rewrite lookup_insert_ne; [exact H1|]. intros <-. congruence.
Qed.

(** ** [add_to_m3u] *)

Lemma encodable_app a b : encodable (a ++ b) = encodable a && encodable b.
Proof. apply forallb_app. Qed.

(** ASCII text has no surrogate. *)
Lemma py_encodable s : encodable (py s) = true.
Proof.
  unfold encodable, py. apply forallb_forall. intros c Hc.
  apply in_map_iff in Hc as (a & <- & _).
  pose proof (N_ascii_bounded a) as Hb.
  unfold surrogate, in_range. apply negb_true_iff, andb_false_intro1.
  apply N.leb_gt. lia.
Qed.

Lemma open_file_there b p fs old :
  node_at fs p = Some (File old) ->
  open_file b p fs = (Ok tt, if b then <[p := File []]> fs else fs).
Proof. intros H. unfold open_file. rewrite H. reflexivity. Qed.

Lemma file_write_there p data fs old :
  fs !! p = Some (File old) -> encodable data = true ->
  file_write p data fs = (Ok tt, <[p := File (old ++ data)]> fs).
Proof. intros H He. unfold file_write. rewrite He, H. reflexivity. Qed.

Lemma file_write_refused p data fs :
  encodable data = false -> file_write p data fs = (Raise UnicodeEncodeError, fs).
Proof. intros He. unfold file_write. rewrite He. reflexivity. Qed.

Lemma m3u_path_not_root z : m3u_path z <> [].
Proof. unfold m3u_path. destruct (get_root_path z); discriminate. Qed.

Lemma m3u_extinf_encodable s :
  encodable (s_name s) = true -> encodable (m3u_extinf s) = true.
Proof.
  intros H. unfold m3u_extinf, int_str.
  rewrite !encodable_app, !py_encodable, H. reflexivity.
Qed.

(** The header goes first: behind it the playlist is a file, and holds
    [text]. *)
Lemma add_to_m3u_header z filename song_duration song_name fs text :
  playlist_text fs (m3u_path z) text ->
  add_to_m3u z filename song_duration song_name fs
  = (seconds <- lift (int_of_float song_duration) ;;
     _ <- file_write (m3u_path z)
            (py "#EXTINF:" ++ int_str seconds ++ py ", " ++ song_name ++ [LF]) ;;
     file_write (m3u_path z) (filename ++ [LF; LF]))
      (<[m3u_path z := File text]> fs)
    /\ (<[m3u_path z := File text]> fs) !! m3u_path z = Some (File text).
Proof.
  intros H. split; [|apply lookup_insert_eq].
  pose proof (m3u_path_not_root z) as Hp.
  unfold add_to_m3u. fold (m3u_path z). fold m3u_header.
  unfold bind at 1. unfold path_exists.
  destruct H as [H | (H & Hc & ->)]; rewrite H; cbn [negb].
  - unfold bind at 1. unfold ret. unfold bind at 1.
    rewrite (open_file_there false _ fs text H).
    rewrite (node_at_lookup fs _ Hp) in H.
    rewrite (insert_id fs _ _ H). reflexivity.
  - unfold bind at 1. rewrite write_file_eq, H, Hc.
    change (encodable m3u_header) with true. cbn iota.
    unfold bind at 1.
    rewrite (open_file_there false _ _ m3u_header (node_at_insert fs _ _ Hp)).
    reflexivity.
Qed.

Lemma add_to_m3u_appends z s fs text :
  playlist_text fs (m3u_path z) text ->
  clean_song s ->
  add_to_m3u z (s_filename s) (s_duration s) (s_name s) fs
  = (Ok tt, <[m3u_path z := File (text ++ m3u_entry s)]> fs).
Proof.
  intros H ((q & Hq) & Hn & Hf).
  destruct (add_to_m3u_header z (s_filename s) (s_duration s) (s_name s) fs text H)
    as [-> Hl].
  pose proof (m3u_extinf_encodable s Hn) as He.
  unfold m3u_extinf in He. rewrite Hq in *. cbn [whole_seconds] in He.
  unfold bind, lift. cbn [int_of_float].
  rewrite (file_write_there _ _ _ text Hl He).
  rewrite (file_write_there _ _ _ _ (lookup_insert_eq _ _ _)).
  - rewrite !insert_insert_eq. unfold m3u_entry, m3u_extinf. rewrite Hq.
    cbn [whole_seconds]. rewrite <- !app_assoc. reflexivity.
  - rewrite encodable_app, Hf. reflexivity.
Qed.

(** X14: the playlist of a run of songs that can be written (a finite
    duration, no lone surrogate in the title or in the path).  Starting
    from a playlist file, or from none where one can be created, every call
    succeeds and the file then holds what it held (the header [#EXTM3U] and
    a blank line, for a new file) followed by one block per song in the
    order of the calls; nothing already in the file is rewritten and no
    other path is touched. *)
Theorem m3u_playlist z songs : forall fs text,
  playlist_text fs (m3u_path z) text ->
  Forall clean_song songs ->
  exists fs',
    add_all_to_m3u z songs fs = (Ok tt, fs')
    /\ playlist_text fs' (m3u_path z) (text ++ concat (map m3u_entry songs))
    /\ (songs <> [] ->
        node_at fs' (m3u_path z)
        = Some (File (text ++ concat (map m3u_entry songs))))
    /\ (forall q, q <> m3u_path z -> fs' !! q = fs !! q).
Proof.
  pose proof (m3u_path_not_root z) as Hp.
  induction songs as [|s songs IH]; intros fs text Ht Hs.
  - exists fs. simpl. rewrite app_nil_r. repeat split; [exact Ht | congruence].
  - inversion Hs as [|? ? Hc Hs']; subst.
    set (fs1 := <[m3u_path z := File (text ++ m3u_entry s)]> fs).
    assert (H1 : node_at fs1 (m3u_path z) = Some (File (text ++ m3u_entry s)))
      by apply (node_at_insert fs _ _ Hp).
    destruct (IH fs1 (text ++ m3u_entry s) (or_introl H1) Hs')
      as (fs' & E & Ht' & Hn & Hfr).
    exists fs'. cbn [add_all_to_m3u]. unfold bind at 1.
    rewrite (add_to_m3u_appends z s fs text Ht Hc). fold fs1.
    cbn [map concat]. rewrite app_assoc.
    split; [exact E|]. split; [exact Ht'|]. split.
    + intros _. destruct songs as [|s' songs'].
      * simpl in E. injection E as <-. simpl. rewrite app_nil_r. exact H1.
      * apply Hn. discriminate.
    + intros q Hq. rewrite (Hfr q Hq). apply insert_other, Hq.
Qed.

(** X15: for a song that can be written (a finite duration, no lone
    surrogate in the title or in the path) [add_to_m3u] writes all or
    nothing.  Either the playlist is a file, or can be created, and the
    call appends the block of the song to what it held (to the header, for
    a new file); or opening it fails, the call raises and the file system
    is as it was. *)
Theorem add_to_m3u_all_or_nothing z s fs :
  clean_song s ->
  (exists text,
     playlist_text fs (m3u_path z) text
     /\ add_to_m3u z (s_filename s) (s_duration s) (s_name s) fs
        = (Ok tt, <[m3u_path z := File (text ++ m3u_entry s)]> fs))
  \/ (exists e,
        add_to_m3u z (s_filename s) (s_duration s) (s_name s) fs = (Raise e, fs)
        /\ (node_at fs (m3u_path z) = Some Dir
            \/ (node_at fs (m3u_path z) = None
                /\ create_check fs (m3u_path z) = Some e))).
Proof.
  intros Hs. destruct (node_at fs (m3u_path z)) as [[text|]|] eqn:H.
  - left. exists text. split; [left; exact H|].
    apply add_to_m3u_appends; [left; exact H | exact Hs].
  - right. exists IsADirectoryError. split; [|left; reflexivity].
    unfold add_to_m3u. fold (m3u_path z). unfold bind, path_exists.
    rewrite H. cbn [negb]. unfold ret, open_file. rewrite H. reflexivity.
  - destruct (create_check fs (m3u_path z)) as [e|] eqn:Hc.
    + right. exists e. split; [|right; split; reflexivity].
      unfold add_to_m3u. fold (m3u_path z). unfold bind at 1 2. unfold path_exists.
      rewrite H. cbn [negb]. rewrite write_file_eq, H, Hc. reflexivity.
    + left. exists m3u_header.
      assert (Ht : playlist_text fs (m3u_path z) m3u_header)
        by (right; repeat split; assumption).
      split; [exact Ht | apply add_to_m3u_appends; [exact Ht | exact Hs]].
Qed.

(** X21: a song that cannot be written.  When the playlist is a file or
    can be created, a duration that is a NaN or an infinity makes
    [add_to_m3u] raise [ValueError] or [OverflowError], and a lone
    surrogate in the title [UnicodeEncodeError], with nothing of the song
    written: a playlist that was not there is left with the header alone.
    A lone surrogate in the path, behind a good title, raises
    [UnicodeEncodeError] and leaves the [#EXTINF] line without its path. *)
Theorem add_to_m3u_refused z s fs text e written :
  playlist_text fs (m3u_path z) text ->
  m3u_failure s = Some (e, written) ->
  add_to_m3u z (s_filename s) (s_duration s) (s_name s) fs
  = (Raise e, <[m3u_path z := File (text ++ written)]> fs).
Proof.
  intros H Hf.
  destruct (add_to_m3u_header z (s_filename s) (s_duration s) (s_name s) fs text H)
    as [-> Hl].
  unfold m3u_failure in Hf. unfold bind at 1. unfold lift.
  destruct (s_duration s) as [q|b|] eqn:Hq; cbn [int_of_float].
  - destruct (encodable (s_name s)) eqn:Hn; cbn [negb] in Hf.
    + destruct (encodable (s_filename s)) eqn:Hfn; cbn [negb] in Hf;
        [discriminate Hf|]. injection Hf as <- <-.
      pose proof (m3u_extinf_encodable s Hn) as He.
      unfold m3u_extinf in *. rewrite Hq in *. cbn [whole_seconds] in *.
      unfold bind. rewrite (file_write_there _ _ _ text Hl He).
      rewrite file_write_refused
        by (rewrite encodable_app, Hfn; reflexivity).
      rewrite insert_insert_eq. reflexivity.
    + injection Hf as <- <-. unfold bind. rewrite file_write_refused.
      * rewrite app_nil_r. reflexivity.
      * rewrite !encodable_app, Hn, !andb_false_r. reflexivity.
  - injection Hf as <- <-. rewrite app_nil_r. reflexivity.
  - injection Hf as <- <-. rewrite app_nil_r. reflexivity.
Qed.

(** ** [split_input] *)

(** Runs of [split_input] on ASCII selections. *)
Example split_input_run1 :
  split_input no_unicode_digits 4300 (py " 1_0 - +12 ")
  = Return (map Number [10; 11; 12]%Z).
Proof. vm_compute. reflexivity. Qed.

Example split_input_run2 :
  split_input no_unicode_digits 4300 (py "a, b ,c")
  = Return [Text (py "a"); Text (py "b"); Text (py "c")].
Proof. vm_compute. reflexivity. Qed.

Example split_input_run3 :
  split_input no_unicode_digits 4300 (py "5-2") = Return [].
Proof. vm_compute. reflexivity. Qed.

Example split_input_run4 :
  split_input no_unicode_digits 4300 (py "1__0-3") = Throw ValueError.
Proof. vm_compute. reflexivity. Qed.

Example split_input_run5 :
  split_input no_unicode_digits 4300 [] = Return [Text []].
Proof. vm_compute. reflexivity. Qed.

Lemma uint_value_acc u : forall p,
  uint_value (Npos p) u = Npos (Pos.of_uint_acc u p).
Proof.
  induction u; intros p; simpl; try reflexivity;
    rewrite <- IHu; f_equal; lia.
Qed.

Lemma uint_value_of_uint u : uint_value 0 u = Pos.of_uint u.
Proof.
  induction u; simpl; try reflexivity; try exact IHu; apply uint_value_acc.
Qed.

Lemma py_String c s : py (String c s) = N_of_ascii c :: py s.
Proof. reflexivity. Qed.

Section PyIntFacts.
Variable ud : char -> option N.
Variable limit : nat.

Lemma scan_digits_uint u : forall acc n rest,
  scan_digits ud acc n false (py (NilEmpty.string_of_uint u) ++ rest)
  = scan_digits ud (uint_value acc u) (n + Decimal.nb_digits u) false rest.
Proof.
  induction u; intros acc n rest; simpl NilEmpty.string_of_uint;
    [simpl; rewrite Nat.add_0_r; reflexivity | ..];
    rewrite py_String; cbn [app scan_digits];
    cbn [uint_value Decimal.nb_digits];
    rewrite <- Nat.add_succ_comm; rewrite <- IHu; reflexivity.
Qed.

Lemma uint_digits u : forallb is_digit (py (NilEmpty.string_of_uint u)) = true.
Proof.
  induction u; simpl NilEmpty.string_of_uint; [reflexivity | ..];
    rewrite py_String; cbn [forallb]; rewrite IHu; reflexivity.
Qed.

Lemma uint_length u : length (py (NilEmpty.string_of_uint u)) = Decimal.nb_digits u.
Proof.
  induction u; simpl NilEmpty.string_of_uint; [reflexivity | ..];
    rewrite py_String; cbn [length Decimal.nb_digits]; rewrite IHu; reflexivity.
Qed.

Lemma int_str_pos p : int_str (Zpos p) = py (NilEmpty.string_of_uint (Pos.to_uint p)).
Proof.
  unfold int_str. simpl Z.to_int. unfold NilZero.string_of_int, NilZero.string_of_uint.
  pose proof (DecimalPos.Unsigned.of_to p) as E.
  destruct (Pos.to_uint p); [discriminate E | reflexivity ..].
Qed.

Lemma int_str_digits a : (0 <= a)%Z -> forallb is_digit (int_str a) = true.
Proof.
  intros H. destruct a as [|p|p]; [reflexivity | | lia].
  rewrite int_str_pos. apply uint_digits.
Qed.

Lemma digit_head s :
  forallb is_digit s = true -> s <> [] ->
  exists c tl, s = c :: tl /\ is_digit c = true.
Proof.
  destruct s as [|c tl]; [congruence|]. simpl. intros H _.
  apply andb_prop in H as [H _]. eauto.
Qed.

Lemma digit_plain c :
  is_digit c = true ->
  int_space c = false /\ (c =? cp "+")%N = false /\ (c =? cp "-")%N = false
  /\ (c =? underscore)%N = false /\ (c =? cp ",")%N = false.
Proof.
  intros H. unfold int_space. repeat split; chars.
Qed.

(** [int(str(n))] is [n], for a natural number within the digit limit;
    beyond the limit [int] refuses the numeral. *)
Lemma int_of_str_int_str a :
  (0 <= a)%Z ->
  int_of_str ud limit (int_str a)
  = if too_many_digits limit (length (int_str a)) then Throw ValueError
    else Return a.
Proof.
  intros H. destruct a as [|p|p]; [reflexivity | | lia].
  rewrite int_str_pos in *. set (u := Pos.to_uint p) in *.
  assert (Hu : uint_value 0 u = Npos p)
    by (rewrite uint_value_of_uint; apply DecimalPos.Unsigned.of_to).
  assert (Hne : py (NilEmpty.string_of_uint u) <> []).
  { intros E. apply (f_equal (@length _)) in E. rewrite uint_length in E.
    destruct u; simpl in *; try discriminate E. discriminate Hu. }
  destruct (digit_head _ (uint_digits u) Hne) as (c & tl & Es & Hc).
  destruct (digit_plain c Hc) as (H1 & H2 & H3 & H4 & _).
  rewrite uint_length.
  unfold int_of_str. rewrite Es. cbn [skip_spaces]. rewrite H1, H2, H3, H4.
  rewrite <- Es, <- (app_nil_r (py _)), scan_digits_uint, Hu.
  cbn [scan_digits Nat.add].
  destruct (Decimal.nb_digits u) as [|k] eqn:Ek.
  { rewrite <- uint_length in Ek.
    destruct (py (NilEmpty.string_of_uint u)); [congruence | discriminate Ek]. }
  cbn [Nat.eqb]. destruct (too_many_digits limit (S k)); reflexivity.
Qed.

Lemma few_digits n : n <= 640 -> too_many_digits limit n = false.
Proof.
  intros H. unfold too_many_digits.
  replace (640 <? n) with false by (symmetry; apply Nat.ltb_ge; lia).
  reflexivity.
Qed.

End PyIntFacts.

Lemma split_on_nonempty sep s : split_on sep s <> [].
Proof.
  destruct s as [|c tl]; simpl; [discriminate|].
  destruct (c =? sep)%N; [discriminate|]. destruct (split_on sep tl); discriminate.
Qed.

Lemma split_on_free sep x : free_of sep x = true -> split_on sep x = [x].
Proof.
  induction x as [|c x IH]; [reflexivity|]. simpl. intros H.
  apply andb_prop in H as [Hc Hx]. apply negb_true_iff in Hc.
  rewrite Hc, (IH Hx). reflexivity.
Qed.

Lemma split_on_app sep x y :
  free_of sep x = true -> split_on sep (x ++ sep :: y) = x :: split_on sep y.
Proof.
  induction x as [|c x IH]; simpl.
  - intros _. rewrite N.eqb_refl. reflexivity.
  - intros H. apply andb_prop in H as [Hc Hx]. apply negb_true_iff in Hc.
    rewrite Hc, (IH Hx). reflexivity.
Qed.

Lemma existsb_sep_app sep x y :
  existsb (fun c => (c =? sep)%N) (x ++ sep :: y) = true.
Proof.
  rewrite existsb_app. simpl. rewrite N.eqb_refl, orb_true_r. reflexivity.
Qed.

Lemma existsb_free sep x :
  existsb (fun c => (c =? sep)%N) x = negb (free_of sep x).
Proof.
  induction x as [|c x IH]; [reflexivity|]. simpl. rewrite IH.
  destruct (c =? sep)%N; reflexivity.
Qed.

Lemma range_length lo hi : length (range lo hi) = Z.to_nat (hi - lo).
Proof. unfold range. rewrite length_map, length_seq. reflexivity. Qed.

Lemma range_In lo hi n : In n (range lo hi) <-> (lo <= n < hi)%Z.
Proof.
  unfold range. rewrite in_map_iff. split.
  - intros (i & <- & Hi). apply in_seq in Hi. lia.
  - intros H. exists (Z.to_nat (n - lo)). split; [lia|]. apply in_seq. lia.
Qed.

Lemma digits_free a sep :
  (0 <= a)%Z -> is_digit sep = false -> free_of sep (int_str a) = true.
Proof.
  intros H Hs. pose proof (int_str_digits a H) as Hd.
  unfold free_of. rewrite forallb_forall in *. intros c Hc.
  specialize (Hd c Hc). apply negb_true_iff, N.eqb_neq. intros ->. congruence.
Qed.

Lemma join_cons sep x y tl :
  join sep (x :: y :: tl) = x ++ sep ++ join sep (y :: tl).
Proof. reflexivity. Qed.

Lemma split_on_two sep s :
  existsb (fun c => (c =? sep)%N) s = true ->
  exists a b r, split_on sep s = a :: b :: r.
Proof.
  induction s as [|c tl IH]; [discriminate|]. simpl.
  destruct (c =? sep)%N eqn:E.
  - intros _. destruct (split_on sep tl) as [|b r] eqn:Et.
    + destruct (split_on_nonempty _ _ Et).
    + exists [], b, r. reflexivity.
  - intros H. destruct (IH H) as (a & b & r & ->). exists (c :: a), b, r.
    reflexivity.
Qed.

Lemma join_split_on sep s : join [sep] (split_on sep s) = s.
Proof.
  induction s as [|c tl IH]; [reflexivity|]. simpl.
  destruct (c =? sep)%N eqn:E.
  - apply N.eqb_eq in E. subst c.
    destruct (split_on sep tl) as [|b r] eqn:Et.
    + destruct (split_on_nonempty _ _ Et).
    + rewrite join_cons, IH. reflexivity.
  - destruct (split_on sep tl) as [|x [|y r]] eqn:Et.
    + destruct (split_on_nonempty _ _ Et).
    + simpl in *. rewrite IH. reflexivity.
    + rewrite join_cons. rewrite join_cons in IH. rewrite <- IH. reflexivity.
Qed.

Lemma split_on_pieces_free sep s :
  Forall (fun p => free_of sep p = true) (split_on sep s).
Proof.
  induction s as [|c tl IH]; [repeat constructor|]. simpl.
  destruct (c =? sep)%N eqn:E; [constructor; [reflexivity | exact IH]|].
  destruct (split_on sep tl) as [|x r]; [repeat constructor; simpl; rewrite E; reflexivity|].
  inversion IH as [|? ? Hx Hr]; subst. constructor; [|exact Hr].
  simpl. rewrite E, Hx. reflexivity.
Qed.

Lemma scan_digits_error ud s : forall acc digits b e,
  scan_digits ud acc digits b s = Throw e -> e = ValueError.
Proof.
  induction s as [|c tl IH]; intros acc digits b e; simpl.
  - destruct b; congruence.
  - destruct (digit_value ud c); [apply IH|].
    destruct (c =? underscore)%N; destruct b; try congruence. apply IH.
Qed.

Lemma int_of_str_error ud limit s e :
  int_of_str ud limit s = Throw e -> e = ValueError.
Proof.
  unfold int_of_str.
  destruct (match skip_spaces s with
            | [] => (false, [])
            | c :: tl =>
                if (c =? cp "+")%N then (false, tl)
                else if (c =? cp "-")%N then (true, tl)
                else (false, skip_spaces s)
            end) as [negative s2].
  destruct s2 as [|c tl]; [congruence|].
  destruct (c =? underscore)%N; [congruence|].
  destruct (scan_digits ud 0 0 false (c :: tl)) as [[[v digits] after]|e'] eqn:E.
  - destruct (digits =? 0)%nat; [congruence|].
    destruct (too_many_digits limit digits); [congruence|].
    destruct (skip_spaces after); congruence.
  - apply scan_digits_error in E. congruence.
Qed.

Lemma strip_space y : strip (32%N :: y) = strip y.
Proof. reflexivity. Qed.

Lemma split_on_cons sep c z :
  (c =? sep)%N = false ->
  split_on sep (c :: z)
  = match split_on sep z with
    | x :: r => (c :: x) :: r
    | [] => [[c]]
    end.
Proof. intros H. simpl. rewrite H. reflexivity. Qed.

Lemma split_on_join x tl :
  Forall (fun y => free_of (cp ",") y = true) (x :: tl) ->
  split_on (cp ",") (join (py ", ") (x :: tl)) = x :: map (cons 32%N) tl.
Proof.
  revert x. induction tl as [|y tl IH]; intros x H.
  - inversion H; subst. simpl. apply split_on_free. assumption.
  - inversion H as [|? ? Hx Htl]; subst. rewrite join_cons. cbn [map].
    change (py ", " ++ ?z) with (cp "," :: 32%N :: z).
    rewrite (split_on_app _ _ _ Hx). f_equal.
    rewrite (split_on_cons (cp ",") 32%N _ eq_refl), (IH y Htl). reflexivity.
Qed.

Lemma free_of_app sep a b : free_of sep (a ++ b) = free_of sep a && free_of sep b.
Proof. apply forallb_app. Qed.

Lemma free_of_join sep xs :
  free_of sep (py ", ") = true ->
  Forall (fun y => free_of sep y = true) xs ->
  free_of sep (join (py ", ") xs) = true.
Proof.
  intros Hs. induction 1 as [|x xs Hx Hxs IH]; [reflexivity|].
  destruct xs as [|y xs]; [exact Hx|].
  rewrite join_cons, !free_of_app, Hx, Hs, IH. reflexivity.
Qed.

Section SplitInput.
Variable ud : char -> option N.
Variable limit : nat.

(** X16: a selection [<a>-<b>] of two decimal numbers, neither with more
    digits than the interpreter's limit on a numeral allows (up to 640
    digits no limit applies), gives the numbers from [a] to [b], both
    included, in increasing order; none when [b] is below [a].  A numeral
    beyond the limit raises [ValueError]. *)
Theorem split_input_range a b :
  (0 <= a)%Z -> (0 <= b)%Z ->
  split_input ud limit (int_str a ++ py "-" ++ int_str b)
  = (if too_many_digits limit (length (int_str a))
        || too_many_digits limit (length (int_str b))
     then Throw ValueError
     else Return (map Number (range a (b + 1))))
  /\ (length (int_str a) <= 640 -> length (int_str b) <= 640 ->
      split_input ud limit (int_str a ++ py "-" ++ int_str b)
      = Return (map Number (range a (b + 1))))
  /\ length (range a (b + 1)) = Z.to_nat (b - a + 1)
  /\ (forall n, In n (range a (b + 1)) <-> (a <= n <= b)%Z)
  /\ (forall i, i < length (range a (b + 1)) ->
                nth i (range a (b + 1)) 0%Z = (a + Z.of_nat i)%Z).
Proof.
  intros Ha Hb.
  assert (E : split_input ud limit (int_str a ++ py "-" ++ int_str b)
              = if too_many_digits limit (length (int_str a))
                   || too_many_digits limit (length (int_str b))
                then Throw ValueError
                else Return (map Number (range a (b + 1)))).
  { unfold split_input. change (py "-" ++ int_str b) with (cp "-" :: int_str b).
    rewrite existsb_sep_app, split_on_app by (apply digits_free; [exact Ha | reflexivity]).
    rewrite split_on_free by (apply digits_free; [exact Hb | reflexivity]).
    rewrite !int_of_str_int_str by assumption.
    destruct (too_many_digits limit (length (int_str a))); [reflexivity|].
    destruct (too_many_digits limit (length (int_str b))); reflexivity. }
  split; [exact E|]. split; [|split; [|split]].
  - intros Hla Hlb. rewrite E, !few_digits by assumption. reflexivity.
  - rewrite range_length. f_equal. lia.
  - intros n. rewrite range_In. lia.
  - intros i Hi. rewrite range_length in Hi. unfold range.
    set (f := fun i : nat => (a + Z.of_nat i)%Z).
    rewrite (nth_indep _ 0%Z (f 0%nat))
      by (rewrite length_map, length_seq; exact Hi).
    rewrite map_nth, seq_nth by exact Hi. reflexivity.
Qed.

(** X17: a selection that starts with a dash raises [ValueError] (so a
    negative number cannot be selected); and only the text before the
    second dash counts: what follows it is never read. *)
Theorem split_input_dashes :
  (forall rest, split_input ud limit (py "-" ++ rest) = Throw ValueError)
  /\ (forall first second rest,
        free_of (cp "-") first = true -> free_of (cp "-") second = true ->
        split_input ud limit (first ++ py "-" ++ second ++ py "-" ++ rest)
        = split_input ud limit (first ++ py "-" ++ second)).
Proof.
  split.
  - intros rest. unfold split_input. change (py "-" ++ rest) with (cp "-" :: rest).
    cbn [existsb]. rewrite N.eqb_refl. cbn [orb split_on].
    rewrite N.eqb_refl. destruct (split_on (cp "-") rest) eqn:E.
    + destruct (split_on_nonempty _ _ E).
    + reflexivity.
  - intros x y rest Hx Hy. unfold split_input.
    assert (D : forall z, py "-" ++ z = cp "-" :: z) by reflexivity.
    rewrite !D.
    rewrite !existsb_sep_app, !split_on_app by assumption.
    rewrite (split_on_free _ y Hy). reflexivity.
Qed.

(** X18: the outcomes of [split_input].  A selection with a dash raises
    [ValueError] or gives the numbers of a range, never text and never
    [IndexError]; a selection without a dash never raises: it gives the
    pieces between its commas, each without the whitespace around it, and
    at least one. *)
Theorem split_input_outcomes selection :
  (free_of (cp "-") selection = false
   /\ (split_input ud limit selection = Throw ValueError
       \/ exists lo hi,
            split_input ud limit selection
            = Return (map Number (range lo (hi + 1)))))
  \/ (free_of (cp "-") selection = true
      /\ exists pieces,
           join (py ",") pieces = selection
           /\ Forall (fun p => free_of (cp ",") p = true) pieces
           /\ pieces <> []
           /\ split_input ud limit selection
              = Return (map (fun p => Text (strip p)) pieces)).
Proof.
  unfold split_input. rewrite existsb_free.
  destruct (free_of (cp "-") selection) eqn:Hd; cbn [negb].
  - right. split; [reflexivity|]. exists (split_on (cp ",") selection).
    split; [apply (join_split_on (cp ","))|].
    split; [apply split_on_pieces_free|].
    split; [apply split_on_nonempty | reflexivity].
  - left. split; [reflexivity|].
    destruct (split_on_two (cp "-") selection) as (a & b & r & ->).
    { rewrite existsb_free, Hd. reflexivity. }
    destruct (int_of_str ud limit a) as [lo|e] eqn:Ea.
    + destruct (int_of_str ud limit b) as [hi|e] eqn:Eb.
      * right. exists lo, hi. reflexivity.
      * left. rewrite (int_of_str_error _ _ _ _ Eb). reflexivity.
    + left. rewrite (int_of_str_error _ _ _ _ Ea). reflexivity.
Qed.

(** X19: a selection without a dash is a list of names: joining names with
    a comma and a blank and splitting the result gives the names back,
    provided no name holds a comma or a dash or starts or ends with
    whitespace. *)
Theorem split_input_join xs :
  xs <> [] ->
  Forall (fun x => strip x = x /\ free_of (cp ",") x = true
                   /\ free_of (cp "-") x = true) xs ->
  split_input ud limit (join (py ", ") xs) = Return (map Text xs).
Proof.
  intros Hne H. unfold split_input.
  assert (Hc : Forall (fun y => free_of (cp ",") y = true) xs)
    by (eapply List.Forall_impl; [|exact H]; simpl; tauto).
  assert (Hd : Forall (fun y => free_of (cp "-") y = true) xs)
    by (eapply List.Forall_impl; [|exact H]; simpl; tauto).
  rewrite existsb_free, (free_of_join (cp "-") xs eq_refl Hd). cbn [negb].
  destruct xs as [|x tl]; [congruence|].
  rewrite (split_on_join x tl Hc). f_equal.
  inversion H as [|? ? [Hx _] Htl]; subst. cbn [map]. rewrite Hx. f_equal.
  clear -Htl. induction Htl as [|y tl [Hy _] _ IH]; [reflexivity|].
  cbn [map]. rewrite strip_space, Hy, IH. reflexivity.
Qed.

End SplitInput.

(** ** [conv_artist_format] *)

Lemma map_cons_inj (c : char) (l l' : list str) :
  map (cons c) l = map (cons c) l' -> l = l'.
Proof.
  revert l'. induction l as [|x l IH]; intros [|y l'] H; try discriminate H.
  - reflexivity.
  - simpl in H. injection H as -> H. f_equal. apply IH, H.
Qed.

(** X20: [conv_artist_format] loses nothing on artists whose names hold no
    comma: two such lists, neither empty, with the same text are the same
    list. *)
Theorem conv_artist_format_injective a b :
  a <> [] -> b <> [] ->
  Forall (fun x => free_of (cp ",") x = true) a ->
  Forall (fun x => free_of (cp ",") x = true) b ->
  conv_artist_format a = conv_artist_format b -> a = b.
Proof.
  intros Ha Hb Fa Fb E.
  destruct a as [|x tl]; [congruence|]. destruct b as [|y tl']; [congruence|].
  apply (f_equal (split_on (cp ","))) in E. unfold conv_artist_format in E.
  rewrite (split_on_join x tl Fa), (split_on_join y tl' Fb) in E.
  injection E as -> E. f_equal. apply (map_cons_inj _ _ _ E).
Qed.

(** ** Concrete inputs *)

Lemma fix_filename_boundaries_witness :
  (length (fix_filename (py "  COM1  ")) = length (py "  COM1  ")
   /\ forall i x, nth_error (py "  COM1  ") i = Some x ->
        nth_error (fix_filename (py "  COM1  ")) i
        = Some (if replaced (i =? 0) x (skipn (S i) (py "  COM1  "))
                then underscore else x))
  /\ (length (fix_filename (py "con" ++ py ". ")) = S (length (py ". "))
      /\ nth_error (fix_filename (py "con" ++ py ". ")) 0 = Some underscore
      /\ forall i x, nth_error (py ". ") i = Some x ->
           nth_error (fix_filename (py "con" ++ py ". ")) (S i)
           = Some (if replaced false x (skipn (S i) (py ". "))
                   then underscore else x)).
Proof.
  split.
  - apply (proj1 (fix_filename_boundaries (py "  COM1  "))).
    apply reserved_match_None_iff. vm_compute. reflexivity.
  - apply (proj2 (fix_filename_boundaries (py "con" ++ py ". ")) (py "con") (py ". ")).
    + reflexivity.
    + right; right; left. unfold ci. repeat constructor.
    + right. eexists. reflexivity.
Defined.

(** Names that end in a period, or in whitespace before a final line feed,
    or start with a reserved stem. *)
Example fix_filename_boundary_runs :
  fix_filename (py "a.") = py "a_"
  /\ fix_filename (py " a") = py "_a"
  /\ fix_filename (py "a " ++ [LF]) = py "a__"
  /\ fix_filename (py "con. ") = py "_._".
Proof. repeat split; vm_compute; reflexivity. Qed.

Lemma add_to_archive_refused_witness :
  add_to_archive demo_cfg (py "2024-01-01 10:00:00") id0 (py "a.ogg")
    [55296%N] (py "Song") ∅
  = (Raise UnicodeEncodeError, <[get_song_archive demo_cfg := File []]> ∅).
Proof.
  etransitivity.
  - apply (add_to_archive_refused demo_cfg (py "2024-01-01 10:00:00") id0
             (py "a.ogg") [55296%N] (py "Song") ∅ []).
    + right. repeat split; reflexivity.
    + reflexivity.
  - reflexivity.
Defined.

Lemma fix_filename_reserved_witness :
  fix_filename (py "cOm7") = py "_"
  /\ fix_filename (py "cOm7" ++ py "." ++ py "txt") = py "_." ++ py "txt".
Proof.
  apply (fix_filename_reserved (py "cOm7") (py "txt")).
  - right; left. exists (py "cOm"), (cp "7").
    split; [reflexivity|]. split; [|reflexivity].
    unfold ci. repeat constructor.
  - discriminate.
  - reflexivity.
Defined.

Lemma archive_round_trip_witness :
  exists fs',
    add_all_to_archive demo_cfg demo_entries ∅ = (Ok tt, fs')
    /\ archive_text fs' (get_song_archive demo_cfg)
         ([] ++ concat (map entry_line demo_entries))
    /\ get_previously_downloaded demo_cfg fs'
       = (Ok (ids_of [] ++ map e_id demo_entries), fs')
    /\ (forall q, q <> get_song_archive demo_cfg -> fs' !! q = (∅ : gmap path node) !! q).
Proof.
  apply (archive_round_trip demo_cfg demo_entries ∅ []).
  - right. repeat split; reflexivity.
  - left. reflexivity.
  - repeat constructor; try discriminate; reflexivity.
Defined.

Lemma directory_round_trip_witness :
  exists fs',
    add_all_to_directory demo_on demo_dir demo_entries demo_fs = (Ok tt, fs')
    /\ archive_text fs' (hidden_file demo_dir)
         ((py "abc" ++ [LF]) ++ concat (map entry_line demo_entries))
    /\ get_directory_song_ids demo_on demo_dir fs'
       = (Ok (ids_of (py "abc" ++ [LF]) ++ map e_id demo_entries), fs')
    /\ (forall q, q <> hidden_file demo_dir -> fs' !! q = demo_fs !! q).
Proof.
  apply (directory_round_trip demo_on demo_dir demo_entries demo_fs
           (py "abc" ++ [LF])).
  - reflexivity.
  - left. vm_compute. reflexivity.
  - right. exists (py "abc"). reflexivity.
  - repeat constructor; try discriminate; reflexivity.
Defined.


Lemma create_download_directory_keeps_files_witness :
  snd (create_download_directory demo_on demo_dir demo_fs) !! hidden_file demo_dir
  = Some (File (py "abc" ++ [LF])).
Proof.
  apply (create_download_directory_keeps_files demo_on demo_dir demo_fs
           (hidden_file demo_dir) (py "abc" ++ [LF])).
  vm_compute. reflexivity.
Defined.

Lemma m3u_playlist_witness :
  exists fs',
    add_all_to_m3u demo_launch demo_songs demo_root = (Ok tt, fs')
    /\ node_at fs' (m3u_path demo_launch)
       = Some (File (m3u_header ++ concat (map m3u_entry demo_songs)))
    /\ (forall q, q <> m3u_path demo_launch -> fs' !! q = demo_root !! q).
Proof.
  destruct (m3u_playlist demo_launch demo_songs demo_root m3u_header)
    as (fs' & E & _ & Hn & Hfr).
  - right. split; [vm_compute; reflexivity|]. split; [vm_compute; reflexivity|].
    reflexivity.
  - repeat constructor; eexists; reflexivity.
  - exists fs'. split; [exact E|]. split; [apply Hn; discriminate | exact Hfr].
Defined.

Lemma add_to_m3u_all_or_nothing_witness :
  (exists text,
     playlist_text ∅ (m3u_path demo_launch) text
     /\ add_to_m3u demo_launch (py "music/a.ogg") (Finite (1815 # 10)) (py "Song") ∅
        = (Ok tt,
           <[m3u_path demo_launch
             := File (text ++ m3u_entry (Song (py "music/a.ogg")
                                           (Finite (1815 # 10)) (py "Song")))]> ∅))
  \/ (exists e,
        add_to_m3u demo_launch (py "music/a.ogg") (Finite (1815 # 10)) (py "Song") ∅
        = (Raise e, ∅)
        /\ (node_at ∅ (m3u_path demo_launch) = Some Dir
            \/ (node_at ∅ (m3u_path demo_launch) = None
                /\ create_check ∅ (m3u_path demo_launch) = Some e))).
Proof.
  apply (add_to_m3u_all_or_nothing demo_launch
           (Song (py "music/a.ogg") (Finite (1815 # 10)) (py "Song")) ∅).
  split; [eexists; reflexivity | split; reflexivity].
Defined.

Lemma add_to_m3u_refused_witness :
  add_to_m3u demo_launch (py "music/a.ogg") NaN (py "Song") demo_root
  = (Raise ValueError, <[m3u_path demo_launch := File (m3u_header ++ [])]> demo_root).
Proof.
  apply (add_to_m3u_refused demo_launch (Song (py "music/a.ogg") NaN (py "Song"))
           demo_root m3u_header ValueError []).
  - right. split; [vm_compute; reflexivity|]. split; [vm_compute; reflexivity|].
    reflexivity.
  - reflexivity.
Defined.

Lemma split_input_range_witness :
  split_input no_unicode_digits 4300 (int_str 2 ++ py "-" ++ int_str 5)
  = Return (map Number (range 2 (5 + 1)))
  /\ length (range 2 (5 + 1)) = Z.to_nat (5 - 2 + 1)
  /\ (forall n, In n (range 2 (5 + 1)) <-> (2 <= n <= 5)%Z)
  /\ (forall i, i < length (range 2 (5 + 1)) ->
                nth i (range 2 (5 + 1)) 0%Z = (2 + Z.of_nat i)%Z).
Proof.
  destruct (split_input_range no_unicode_digits 4300 2 5)
    as (E & _ & R); [lia | lia |].
  split; [exact E | exact R].
Defined.

Lemma split_input_join_witness :
  split_input no_unicode_digits 4300
    (join (py ", ") [py "daft punk"; py "air"; py "m83"])
  = Return (map Text [py "daft punk"; py "air"; py "m83"]).
Proof.
  apply (split_input_join no_unicode_digits 4300
           [py "daft punk"; py "air"; py "m83"]).
  - discriminate.
  - repeat constructor.
Defined.

Lemma conv_artist_format_injective_witness :
  [py "daft punk"; py "air"] = [py "daft punk"; py "air"].
Proof.
  apply (conv_artist_format_injective [py "daft punk"; py "air"]
           [py "daft punk"; py "air"]).
  - discriminate.
  - discriminate.
  - repeat constructor.
  - repeat constructor.
  - reflexivity.
Defined.
